(** * RealtimeDataPlatform: observability core, queue layer and cache layer

  A shallow embedding of the parts of the platform that its specification
  makes universal statements about, with the statements proved (or refuted
  at a concrete input) against the embedded code:

  - [Health]   : src/utils/monitoring/HealthChecker.js
  - [Metrics]  : src/utils/monitoring/MetricsCollector.js
  - [Alerts]   : src/utils/monitoring/AlertManager.js
  - [MsgProc]  : src/utils/queue/MessageProcessor.js
  - [DLQ]      : src/utils/queue/DeadLetterQueue.js (over Queue.js)
  - [Cache]    : src/utils/CacheLock.js, src/utils/cache.js,
                 src/utils/CacheKeyGenerator.js
  - [Monitoring] : src/utils/monitoring/MonitoringService.js (the request
                 middleware, over [Metrics])

  Conventions.  JavaScript numbers that the code uses as counts, delays and
  timestamps are integers ([Z], or [nat] for a count that starts at 0 and is
  only incremented).  [Date.now()] is a parameter [now].  A [Map] or a plain
  object that the code only looks up by key is a [gmap]; one whose iteration
  order is observable is a list of entries in insertion order.  A promise is
  modelled by the way it settles; the outcome of a callback supplied by the
  caller (a health check, a message handler, a notifier, a cache fallback)
  is a parameter of the model.  Logging through [logger] has no effect on
  the state and is left out unless a statement is about it.  The values of
  metrics are integers too: what the code does with them (addition,
  comparison with 0 and with the bucket boundaries) is exact there, and
  [NaN], the infinities and values that are not numbers are outside the
  model.

  Line numbers are those of the files as they lie in the source tree:
  HealthChecker.js and MonitoringService.js by themselves;
  MetricsCollector.js in part_014;
  CacheLock.js followed by cache.js in part_013; AlertManager.js followed
  by Queue.js in part_016; DeadLetterQueue.js followed by
  MessageProcessor.js in part_017; CacheKeyGenerator.js in part_011. *)

From stdpp Require Import base option list gmap strings pretty sorting.
From Stdlib Require Import ZArith Lia Ascii.

Local Open Scope string_scope.
Local Open Scope list_scope.
Local Open Scope Z_scope.

(** ** Insertion-ordered [Map] with string keys

    [Map.prototype.set] overwrites in place or appends, [delete] removes
    the entry, and [entries()], [values()] go in insertion order. *)
Module JsMap.

Fixpoint mapGet {V} (k : string) (m : list (string * V)) : option V :=
  match m with
  | [] => None
  | (k', v) :: r => if decide (k = k') then Some v else mapGet k r
  end.

Fixpoint mapSet {V} (k : string) (v : V) (m : list (string * V)) : list (string * V) :=
  match m with
  | [] => [(k, v)]
  | (k', v') :: r =>
      if decide (k = k') then (k, v) :: r else (k', v') :: mapSet k v r
  end.

Fixpoint mapDelete {V} (k : string) (m : list (string * V)) : list (string * V) :=
  match m with
  | [] => []
  | (k', v') :: r =>
      if decide (k = k') then mapDelete k r else (k', v') :: mapDelete k r
  end.

Definition mapValues {V} (m : list (string * V)) : list V := map snd m.

End JsMap.

(** ** Health registry (HealthChecker.js) *)
Module Health.

(** [HealthStatus] enum, lines 9-14. *)
Inductive HealthStatus := UNKNOWN | HEALTHY | UNHEALTHY | DEGRADED.

#[global] Instance HealthStatus_eq_dec : EqDecision HealthStatus.
Proof. solve_decision. Defined.

(** What [Promise.race([check.check(), timer])] does in [runCheck]: the
    check resolves in time with (optional) details, rejects (or throws)
    with a message, or is beaten by the timer. *)
Inductive CheckOutcome :=
| Resolves (details : option string)
| Rejects (message : string)
| TimesOut.

(** A registered check (lines 53-58).  The check function itself is not a
    field: what it does on a given run is the argument [run] of
    [checkAll].  [onUnhealthy] runs best-effort and its exceptions are
    swallowed (lines 253-259); the callback is taken not to write to the
    registry. *)
Record Check := mkCheck {
  timeout : Z;
  check_critical : bool;
  hasOnUnhealthy : bool
}.

(** An entry of [status.components]. *)
Record Component := mkComponent {
  status : HealthStatus;
  critical : bool;
  details : option string;
  error : option string;
  lastCheck : option Z;
  lastSuccess : option Z;
  lastFailure : option Z
}.

Record HealthChecker := mkHealthChecker {
  checks : gmap string Check;
  overall : HealthStatus;            (* this.status.status *)
  overallLastCheck : option Z;       (* this.status.lastCheck *)
  components : gmap string Component (* this.status.components *)
}.

(** The fields the constructor sets, lines 20-30. *)
Definition new : HealthChecker :=
  {| checks := ∅; overall := UNKNOWN; overallLastCheck := None;
     components := ∅ |}.

(** [registerCheck], lines 48-68: [options.timeout || 5000],
    [options.critical !== false]. *)
Definition registerCheck (name : string) (timeoutOpt : option Z)
    (criticalOpt : option bool) (onUnhealthy : bool)
    (hc : HealthChecker) : HealthChecker :=
  let t := match timeoutOpt with
           | Some t => if decide (t = 0) then 5000 else t
           | None => 5000
           end in
  let c := match criticalOpt with Some false => false | _ => true end in
  {| checks := <[name := mkCheck t c onUnhealthy]> (checks hc);
     overall := overall hc;
     overallLastCheck := overallLastCheck hc;
     components :=
       <[name := mkComponent UNKNOWN c None None None None None]>
         (components hc) |}.

Definition timeoutMessage (name : string) : string :=
  "Health check timeout for " +:+ name.

(** The component after one [runCheck] on it, lines 226-265. *)
Definition runComponent (now : Z) (name : string) (o : CheckOutcome)
    (c : Component) : Component :=
  match o with
  | Resolves d =>
      {| status := HEALTHY; critical := critical c;
         details := Some (default EmptyString d); error := None;
         lastCheck := Some now; lastSuccess := Some now;
         lastFailure := lastFailure c |}
  | Rejects msg =>
      {| status := UNHEALTHY; critical := critical c;
         details := details c; error := Some msg;
         lastCheck := Some now; lastSuccess := lastSuccess c;
         lastFailure := Some now |}
  | TimesOut =>
      {| status := UNHEALTHY; critical := critical c;
         details := details c; error := Some (timeoutMessage name);
         lastCheck := Some now; lastSuccess := lastSuccess c;
         lastFailure := Some now |}
  end.

(** [runCheck(name, check)].  When [status.components[name]] is missing
    the first assignment throws inside the async function and [checkAll]
    catches the rejection (lines 280-283): nothing changes. *)
Definition runCheck (now : Z) (run : string → CheckOutcome)
    (name : string) (comps : gmap string Component) : gmap string Component :=
  match comps !! name with
  | Some c => <[name := runComponent now name (run name) c]> comps
  | None => comps
  end.

(** [_updateOverallStatus], lines 300-324: one pass over the components
    that raises two flags, then the three-way choice. *)
Definition flagStep (acc : bool * bool) (c : Component) : bool * bool :=
  if decide (status c = UNHEALTHY)
  then (if critical c then (true, snd acc) else (fst acc, true))
  else acc.

Definition flags (comps : gmap string Component) : bool * bool :=
  map_fold (λ _ c acc, flagStep acc c) (false, false) comps.

Definition _updateOverallStatus (hc : HealthChecker) : HealthChecker :=
  let '(hasUnhealthyCritical, hasUnhealthyNonCritical) := flags (components hc) in
  {| checks := checks hc;
     overall := if hasUnhealthyCritical then UNHEALTHY
                else if hasUnhealthyNonCritical then DEGRADED
                else HEALTHY;
     overallLastCheck := overallLastCheck hc;
     components := components hc |}.

(** [checkAll], lines 272-294: every registered check is run (each one
    only writes its own component, so the order in which the promises
    settle does not matter), then the overall status is recomputed. *)
Definition runAll (now : Z) (run : string → CheckOutcome)
    (chks : gmap string Check) (comps : gmap string Component)
    : gmap string Component :=
  map_fold (λ name _ acc, runCheck now run name acc) comps chks.

Definition checkAll (now : Z) (run : string → CheckOutcome)
    (hc : HealthChecker) : HealthChecker :=
  _updateOverallStatus
    {| checks := checks hc;
       overall := overall hc;
       overallLastCheck := Some now;
       components := runAll now run (checks hc) (components hc) |}.

(** Constructor, lines 20-36: unless [options.enabled] is [false] it
    calls [startChecking], which runs [checkAll] at once (lines 329-337),
    on the registry as it is then: empty. *)
Definition construct (enabledOpt : option bool) (now : Z)
    (run : string → CheckOutcome) : HealthChecker :=
  match enabledOpt with
  | Some false => new
  | _ => checkAll now run new
  end.

Definition isHealthy (hc : HealthChecker) : bool :=
  bool_decide (overall hc = HEALTHY).

Definition isAvailable (hc : HealthChecker) : bool :=
  bool_decide (overall hc = HEALTHY) || bool_decide (overall hc = DEGRADED).

(** The derivation rule of the data model, in the specification's own
    words: unhealthy if any critical check is unhealthy; else degraded if
    any non-critical one is unhealthy; else healthy; unknown if no checks
    have run yet (no component has left the [UNKNOWN] state). *)
Definition anyUnhealthy (crit : bool) (comps : gmap string Component) : Prop :=
  ∃ name c, comps !! name = Some c ∧ status c = UNHEALTHY ∧ critical c = crit.

Definition truthTable (comps : gmap string Component) (s : HealthStatus) : Prop :=
  (anyUnhealthy true comps ∧ s = UNHEALTHY) ∨
  (¬ anyUnhealthy true comps ∧ anyUnhealthy false comps ∧ s = DEGRADED) ∨
  (¬ anyUnhealthy true comps ∧ ¬ anyUnhealthy false comps ∧ s = HEALTHY).

Definition specStatus (comps : gmap string Component) (s : HealthStatus) : Prop :=
  if decide (map_Forall (λ _ c, status c = UNKNOWN) comps)
  then s = UNKNOWN
  else truthTable comps s.

(** A registry as the API builds it with periodic checking disabled: the
    constructor followed by any number of [registerCheck] calls (the last
    call is the head). *)
Definition Registration : Type := string * option Z * option bool * bool.

Definition register (r : Registration) (hc : HealthChecker) : HealthChecker :=
  let '(name, t, c, u) := r in registerCheck name t c u hc.

Definition registered (rs : list Registration) : HealthChecker :=
  foldr register new rs.

End Health.

(** ** Metric registry (MetricsCollector.js) *)
Module Metrics.
Import JsMap.

(** [MetricType] enum, lines 10-14. *)
Inductive MetricType := COUNTER | GAUGE | HISTOGRAM.

#[global] Instance MetricType_eq_dec : EqDecision MetricType.
Proof. solve_decision. Defined.

(** *** Histogram cells *)

(** The fixed bucket ladder, lines 169 and 193. *)
Definition ladder : list Z :=
  [1; 5; 10; 25; 50; 100; 250; 500; 1000; 2500; 5000; 10000].

(** [buckets] is a plain object keyed by the boundary: integer keys, which
    [Object.entries] enumerates in ascending order whatever the order they
    were created in.  It is kept as a list sorted by boundary. *)
Fixpoint bucketGet (b : Z) (bs : list (Z * Z)) : option Z :=
  match bs with
  | [] => None
  | (b', n) :: r => if decide (b = b') then Some n else bucketGet b r
  end.

Fixpoint bucketSet (b n : Z) (bs : list (Z * Z)) : list (Z * Z) :=
  match bs with
  | [] => [(b, n)]
  | (b', n') :: r =>
      if decide (b = b') then (b, n) :: r
      else if decide (b < b') then (b, n) :: (b', n') :: r
      else (b', n') :: bucketSet b n r
  end.

Record HistData := mkHist {
  sum : Z;
  count : Z;
  buckets : list (Z * Z)
}.

Definition emptyHist : HistData := mkHist 0 0 [].

(** One step of the loop over the ladder, lines 170-174 and 194-198:
    [buckets[bucket] = (buckets[bucket] || 0) + 1] when [value <= bucket]. *)
Definition bumpBucket (value : Z) (bs : list (Z * Z)) (bucket : Z) : list (Z * Z) :=
  if decide (value ≤ bucket)
  then bucketSet bucket (default 0 (bucketGet bucket bs) + 1) bs
  else bs.

(** A histogram observation, lines 164-174 and 189-198. *)
Definition observe (value : Z) (h : HistData) : HistData :=
  {| sum := sum h + value;
     count := count h + 1;
     buckets := foldl (bumpBucket value) (buckets h) ladder |}.

(** *** Metrics *)

(** [value] and [labelValues] of a metric.  Their shape goes with the type
    the metric was registered with (line 108): a number for a counter or a
    gauge, a histogram cell for a histogram. *)
Inductive MetricData :=
| CounterData (value : Z) (labelValues : list (string * Z))
| GaugeData (value : Z) (labelValues : list (string * Z))
| HistogramData (value : HistData) (labelValues : list (string * HistData)).

Record Metric := mkMetric {
  name : string;              (* the full name: prefix + registered name *)
  help : string;
  labelNames : list string;
  created : Z;
  data : MetricData
}.

Definition type (m : Metric) : MetricType :=
  match data m with
  | CounterData _ _ => COUNTER
  | GaugeData _ _ => GAUGE
  | HistogramData _ _ => HISTOGRAM
  end.

Definition withData (m : Metric) (d : MetricData) : Metric :=
  {| name := name m; help := help m; labelNames := labelNames m;
     created := created m; data := d |}.

(** The ['metric:update'] event, lines 203-208. *)
Record Update := mkUpdate {
  u_name : string;
  u_type : MetricType;
  u_value : Z;
  u_labels : gmap string string
}.

Record MetricsCollector := mkCollector {
  metrics : list (string * Metric);   (* this.metrics, a Map *)
  prefix : string;
  initialized : bool;
  warnings : list string;             (* logger.warn, oldest first *)
  emitted : list Update               (* 'metric:update' events, oldest first *)
}.

Definition withMetrics (mc : MetricsCollector) (ms : list (string * Metric))
    : MetricsCollector :=
  {| metrics := ms; prefix := prefix mc; initialized := initialized mc;
     warnings := warnings mc; emitted := emitted mc |}.

Definition warn (msg : string) (mc : MetricsCollector) : MetricsCollector :=
  {| metrics := metrics mc; prefix := prefix mc; initialized := initialized mc;
     warnings := warnings mc ++ [msg]; emitted := emitted mc |}.

Definition emit (u : Update) (mc : MetricsCollector) : MetricsCollector :=
  {| metrics := metrics mc; prefix := prefix mc; initialized := initialized mc;
     warnings := warnings mc; emitted := emitted mc ++ [u] |}.

(** [registerMetric], lines 95-117: a registered name is left as it is. *)
Definition registerMetric (now : Z) (nm : string) (ty : MetricType)
    (hlp : string) (lbls : list string) (mc : MetricsCollector) : MetricsCollector :=
  match mapGet nm (metrics mc) with
  | Some _ => mc
  | None =>
      let metric :=
        {| name := prefix mc +:+ nm; help := hlp; labelNames := lbls;
           created := now;
           data := match ty with
                   | COUNTER => CounterData 0 []
                   | GAUGE => GaugeData 0 []
                   | HISTOGRAM => HistogramData emptyHist []
                   end |} in
      withMetrics mc (mapSet nm metric (metrics mc))
  end.

(** [Array.prototype.join]. *)
Fixpoint join (sep : string) (l : list string) : string :=
  match l with
  | [] => EmptyString
  | [x] => x
  | x :: r => x +:+ sep +:+ join sep r
  end.

(** [String.prototype.split] on a one-character separator. *)
Fixpoint split (sep : ascii) (s : string) : list string :=
  match s with
  | EmptyString => [EmptyString]
  | String c r =>
      if decide (c = sep) then EmptyString :: split sep r
      else match split sep r with
           | h :: t => String c h :: t
           | [] => [String c EmptyString]
           end
  end.

(** [_getLabelKey], lines 377-381: a missing label is the empty string. *)
Definition _getLabelKey (labels : gmap string string) (lbls : list string) : string :=
  join "," (map (λ n, n +:+ ":" +:+ default EmptyString (labels !! n)) lbls).

(** An object built by assignments [result[name] = value]; a value is
    [None] where the code assigns [undefined].  (The special place that
    [Object.entries] gives to integer-like property names is not modelled:
    label names are identifiers.) *)
Definition LabelObject : Type := list (string * option string).

(** [_parseLabelKey], lines 389-401. *)
Definition parsePart (result : LabelObject) (part : string) : LabelObject :=
  match split ":" part with
  | nm :: rest => if decide (nm = EmptyString) then result
                  else mapSet nm (head rest) result
  | [] => result
  end.

Definition _parseLabelKey (labelKey : string) : LabelObject :=
  foldl parsePart [] (split "," labelKey).

(** [setMetric], lines 125-209. *)
Definition setMetric (nm : string) (value : Z) (labels : gmap string string)
    (mc : MetricsCollector) : MetricsCollector :=
  match mapGet nm (metrics mc) with
  | None => warn ("Attempted to set unknown metric: " +:+ nm) mc
  | Some metric =>
      let update := mkUpdate (name metric) (type metric) value labels in
      let store d mc := emit update (withMetrics mc (mapSet nm (withData metric d) (metrics mc))) in
      match labelNames metric with
      | _ :: _ =>
          let missingLabels := filter (λ l, labels !! l = None) (labelNames metric) in
          let mc1 := match missingLabels with
                     | [] => mc
                     | _ => warn ("Missing labels for metric " +:+ nm +:+ ": "
                                  +:+ join ", " missingLabels) mc
                     end in
          let labelKey := _getLabelKey labels (labelNames metric) in
          match data metric with
          | CounterData v lv =>
              if decide (value < 0)
              then warn ("Cannot decrease counter metric " +:+ nm) mc1
              else
                let currentValue := default 0 (mapGet labelKey lv) in
                store (CounterData v (mapSet labelKey (currentValue + value) lv)) mc1
          | GaugeData v lv =>
              store (GaugeData v (mapSet labelKey value lv)) mc1
          | HistogramData v lv =>
              let histData := default emptyHist (mapGet labelKey lv) in
              store (HistogramData v (mapSet labelKey (observe value histData) lv)) mc1
          end
      | [] =>
          match data metric with
          | CounterData v lv =>
              if decide (value < 0)
              then warn ("Cannot decrease counter metric " +:+ nm) mc
              else store (CounterData (v + value) lv) mc
          | GaugeData v lv => store (GaugeData value lv) mc
          | HistogramData v lv => store (HistogramData (observe value v) lv) mc
          end
      end
  end.

(** [incrementCounter], lines 217-230. *)
Definition incrementCounter (nm : string) (increment : Z)
    (labels : gmap string string) (mc : MetricsCollector) : MetricsCollector :=
  match mapGet nm (metrics mc) with
  | None => warn ("Attempted to increment unknown metric: " +:+ nm) mc
  | Some metric =>
      match type metric with
      | COUNTER => setMetric nm increment labels mc
      | _ => warn ("Metric " +:+ nm +:+ " is not a counter") mc
      end
  end.

(** [observeHistogram], lines 238-251. *)
Definition observeHistogram (nm : string) (value : Z)
    (labels : gmap string string) (mc : MetricsCollector) : MetricsCollector :=
  match mapGet nm (metrics mc) with
  | None => warn ("Attempted to observe unknown metric: " +:+ nm) mc
  | Some metric =>
      match type metric with
      | HISTOGRAM => setMetric nm value labels mc
      | _ => warn ("Metric " +:+ nm +:+ " is not a histogram") mc
      end
  end.

(** What [getMetric] returns: a number, a histogram cell or [null]. *)
Inductive MetricValue := VNum (z : Z) | VHist (h : HistData) | VNull.

(** [getMetric], lines 259-274 (its warning for an unknown name aside).
    [labelValues.get(labelKey) || null] turns a missing cell, and a cell
    that holds 0, into [null]. *)
Definition getMetric (nm : string) (labels : gmap string string)
    (mc : MetricsCollector) : MetricValue :=
  match mapGet nm (metrics mc) with
  | None => VNull
  | Some metric =>
      let labelKey := _getLabelKey labels (labelNames metric) in
      let numCell lv := match mapGet labelKey lv with
                        | Some z => if decide (z = 0) then VNull else VNum z
                        | None => VNull
                        end in
      let labelled := bool_decide (labelNames metric ≠ []) && bool_decide (labels ≠ ∅) in
      match data metric with
      | CounterData v lv | GaugeData v lv => if labelled then numCell lv else VNum v
      | HistogramData v lv =>
          if labelled then from_option VHist VNull (mapGet labelKey lv) else VHist v
      end
  end.

(** An element of the array [getMetrics] returns, lines 280-313. *)
Inductive SnapshotValues :=
| Value (v : MetricValue)
| Values (vs : list (LabelObject * MetricValue)).

Record MetricSnapshot := mkSnapshot {
  s_name : string;
  s_type : MetricType;
  s_help : string;
  s_labelNames : list string;
  s_values : SnapshotValues
}.

Definition snapshot (metric : Metric) : MetricSnapshot :=
  {| s_name := name metric; s_type := type metric; s_help := help metric;
     s_labelNames := labelNames metric;
     s_values :=
       match labelNames metric, data metric with
       | [], (CounterData v _ | GaugeData v _) => Value (VNum v)
       | [], HistogramData v _ => Value (VHist v)
       | _ :: _, (CounterData _ lv | GaugeData _ lv) =>
           Values (map (λ kv, (_parseLabelKey kv.1, VNum kv.2)) lv)
       | _ :: _, HistogramData _ lv =>
           Values (map (λ kv, (_parseLabelKey kv.1, VHist kv.2)) lv)
       end |}.

Definition getMetrics (mc : MetricsCollector) : list MetricSnapshot :=
  map (λ kv, snapshot kv.2) (metrics mc).

(** The metrics [initialize] registers, lines 46-81. *)
Definition defaultMetrics : list (string * MetricType * string * list string) :=
  [ ("system_cpu_usage", GAUGE, "CPU usage percentage", []);
    ("system_memory_total", GAUGE, "Total memory in bytes", []);
    ("system_memory_free", GAUGE, "Free memory in bytes", []);
    ("system_memory_usage", GAUGE, "Memory usage percentage", []);
    ("system_load_average", GAUGE, "System load average (1m)", []);
    ("app_uptime", GAUGE, "Application uptime in seconds", []);
    ("app_requests_total", COUNTER, "Total number of requests", []);
    ("app_requests_active", GAUGE, "Number of active requests", []);
    ("app_request_duration", HISTOGRAM, "Request duration in ms",
       ["method"; "route"; "status_code"]);
    ("app_requests_errors", COUNTER, "Total number of request errors", []);
    ("cache_hits", COUNTER, "Cache hits", []);
    ("cache_misses", COUNTER, "Cache misses", []);
    ("cache_hit_rate", GAUGE, "Cache hit rate", []);
    ("cache_size", GAUGE, "Current cache size in bytes", []);
    ("queue_size", GAUGE, "Queue size", ["queue_name"]);
    ("queue_processed", COUNTER, "Processed messages", ["queue_name"]);
    ("queue_errors", COUNTER, "Message processing errors", ["queue_name"]);
    ("queue_processing_time", HISTOGRAM, "Message processing time in ms",
       ["queue_name"]);
    ("processor_throughput", GAUGE, "Data processor throughput (items/sec)", []);
    ("processor_processing_time", HISTOGRAM, "Data processing time in ms", []);
    ("processor_errors", COUNTER, "Data processing errors", []);
    ("processor_concurrency", GAUGE, "Current processing concurrency", []);
    ("db_connections", GAUGE, "Database active connections", []);
    ("db_queries", COUNTER, "Total database queries", []);
    ("db_query_time", HISTOGRAM, "Database query time in ms", []);
    ("db_errors", COUNTER, "Database query errors", []) ].

Definition markInitialized (mc : MetricsCollector) : MetricsCollector :=
  {| metrics := metrics mc; prefix := prefix mc; initialized := true;
     warnings := warnings mc; emitted := emitted mc |}.

Definition initialize (now : Z) (mc : MetricsCollector) : MetricsCollector :=
  if initialized mc then mc
  else
    markInitialized
      (foldl (λ acc '(nm, ty, hlp, lbls), registerMetric now nm ty hlp lbls acc)
             mc defaultMetrics).

(** Constructor, lines 20-37: [options.prefix || 'app_'],
    [options.enabled !== false]. *)
Definition new (now : Z) (prefixOpt : option string) (enabled : bool)
    : MetricsCollector :=
  let pfx := match prefixOpt with
             | Some p => if decide (p = EmptyString) then "app_" else p
             | None => "app_"
             end in
  let mc := {| metrics := []; prefix := pfx; initialized := false;
               warnings := []; emitted := [] |} in
  if enabled then initialize now mc else mc.

(** *** Text exposition, [exportPrometheusMetrics], lines 407-461 *)

Definition dq : string := String (ascii_of_nat 34) EmptyString.

Definition typeName (ty : MetricType) : string :=
  match ty with
  | COUNTER => "counter" | GAUGE => "gauge" | HISTOGRAM => "histogram"
  end.

(** [Object.entries(labelValues).map(([k, v]) => k="v").join(',')]. *)
Definition labelString (lo : LabelObject) : string :=
  join "," (map (λ kv, kv.1 +:+ "=" +:+ dq +:+ default "undefined" kv.2 +:+ dq) lo).

(** The [+Inf] lines, lines 427 and 452. *)
Definition infLine (nm : string) (n : Z) : string :=
  nm +:+ "_bucket{le=" +:+ dq +:+ "+Inf" +:+ dq +:+ "} " +:+ pretty n.

Definition infLineLabelled (nm ls : string) (n : Z) : string :=
  nm +:+ "_bucket{" +:+ ls +:+ ",le=" +:+ dq +:+ "+Inf" +:+ dq +:+ "} "
  +:+ pretty n.

Definition histLines (nm : string) (h : HistData) : list string :=
  [ nm +:+ "_sum " +:+ pretty (sum h);
    nm +:+ "_count " +:+ pretty (count h) ]
  ++ map (λ bn, nm +:+ "_bucket{le=" +:+ dq +:+ pretty bn.1 +:+ dq +:+ "} "
                +:+ pretty bn.2) (buckets h)
  ++ [ infLine nm (count h) ].

Definition histLinesLabelled (nm ls : string) (h : HistData) : list string :=
  [ nm +:+ "_sum{" +:+ ls +:+ "} " +:+ pretty (sum h);
    nm +:+ "_count{" +:+ ls +:+ "} " +:+ pretty (count h) ]
  ++ map (λ bn, nm +:+ "_bucket{" +:+ ls +:+ ",le=" +:+ dq +:+ pretty bn.1 +:+ dq
                +:+ "} " +:+ pretty bn.2) (buckets h)
  ++ [ infLineLabelled nm ls (count h) ].

Definition metricLines (metric : Metric) : list string :=
  [ "# HELP " +:+ name metric +:+ " " +:+ help metric;
    "# TYPE " +:+ name metric +:+ " " +:+ typeName (type metric) ]
  ++ match labelNames metric, data metric with
     | [], HistogramData v _ => histLines (name metric) v
     | [], (CounterData v _ | GaugeData v _) => [ name metric +:+ " " +:+ pretty v ]
     | _ :: _, HistogramData _ lv =>
         concat (map (λ kv, histLinesLabelled (name metric)
                              (labelString (_parseLabelKey kv.1)) kv.2) lv)
     | _ :: _, (CounterData _ lv | GaugeData _ lv) =>
         map (λ kv, name metric +:+ "{" +:+ labelString (_parseLabelKey kv.1)
                    +:+ "} " +:+ pretty kv.2) lv
     end.

Definition exportLines (mc : MetricsCollector) : list string :=
  concat (map (λ kv, metricLines kv.2) (metrics mc)).

Definition newline : string := String (ascii_of_nat 10) EmptyString.

Definition exportPrometheusMetrics (mc : MetricsCollector) : string :=
  join newline (exportLines mc).

(** *** Sequences of operations *)

(** The operations of the registry that write to it. *)
Inductive Op :=
| Register (nm : string) (ty : MetricType) (hlp : string) (lbls : list string)
| Set_ (nm : string) (value : Z) (labels : gmap string string)
| Increment (nm : string) (increment : Z) (labels : gmap string string)
| Observe (nm : string) (value : Z) (labels : gmap string string).

Definition applyOp (now : Z) (mc : MetricsCollector) (op : Op) : MetricsCollector :=
  match op with
  | Register nm ty hlp lbls => registerMetric now nm ty hlp lbls mc
  | Set_ nm v ls => setMetric nm v ls mc
  | Increment nm v ls => incrementCounter nm v ls mc
  | Observe nm v ls => observeHistogram nm v ls mc
  end.

Definition runOps (now : Z) (ops : list Op) (mc : MetricsCollector) : MetricsCollector :=
  foldl (applyOp now) mc ops.






Definition observeAll (nm : string) (labels : gmap string string)
    (values : list Z) (mc : MetricsCollector) : MetricsCollector :=
  foldl (λ acc v, observeHistogram nm v labels acc) mc values.

(** What [setMetric] does to [value] and [labelValues] of the metric it
    finds, by label names and type (a rejected decrement leaves them). *)
Definition updateData (lbls : list string) (value : Z)
    (labels : gmap string string) (d : MetricData) : MetricData :=
  let labelKey := _getLabelKey labels lbls in
  match lbls, d with
  | _ :: _, CounterData v lv =>
      if decide (value < 0) then d
      else CounterData v (mapSet labelKey (default 0 (mapGet labelKey lv) + value) lv)
  | _ :: _, GaugeData v lv => GaugeData v (mapSet labelKey value lv)
  | _ :: _, HistogramData v lv =>
      HistogramData v
        (mapSet labelKey (observe value (default emptyHist (mapGet labelKey lv))) lv)
  | [], CounterData v lv =>
      if decide (value < 0) then d else CounterData (v + value) lv
  | [], GaugeData v lv => GaugeData value lv
  | [], HistogramData v lv => HistogramData (observe value v) lv
  end.

(** Every counter cell is non-negative. *)
Definition counterOK (metric : Metric) : Prop :=
  match data metric with
  | CounterData v lv => 0 ≤ v ∧ Forall (λ kv, 0 ≤ kv.2) lv
  | _ => True
  end.


(** The label objects of scenario S1. *)
Definition get200 : gmap string string :=
  <["method" := "GET"]> (<["status" := "200"]> ∅).

Definition post201 : gmap string string :=
  <["method" := "POST"]> (<["status" := "201"]> ∅).

End Metrics.

(** ** Alert engine (AlertManager.js) *)
Module Alerts.
Import JsMap.

(** [AlertSeverity] and [AlertStatus] enums, lines 9-24. *)
Inductive AlertSeverity := INFO | WARNING | ERROR | CRITICAL.
Inductive AlertStatus := ACTIVE | RESOLVED | ACKNOWLEDGED | SILENCED.

(** An entry of [alert.notifications], lines 728-742. *)
Record Notification := mkNotification {
  n_notifier : string;
  n_time : Z;
  n_success : bool;
  n_error : option string
}.

Record Alert := mkAlert {
  id : string;
  name : string;
  message : string;
  severity : AlertSeverity;
  labels : list string;
  data : option string;
  status : AlertStatus;
  timestamp : Z;
  lastUpdated : Z;
  notifications : list Notification;
  silencedBy : option string
}.

(** How the promise of [notifier.notify(alert)] settles: it resolves with a
    truthy or a falsy value, or it rejects (or [notify] throws). *)
Inductive NotifyOutcome :=
| Resolved (truthy : bool)
| Rejected (message : string).

Record Notifier := mkNotifier {
  nf_name : string;
  notify : Alert → NotifyOutcome;
  filter : Alert → bool
}.

Record Silence := mkSilence {
  s_id : string;
  s_name : string;
  s_labels : list string;
  createdAt : Z;
  expireAt : Z;
  s_silencedBy : string;
  s_message : option string
}.

Record AlertManager := mkManager {
  alerts : list (string * Alert);          (* this.alerts, a Map by name *)
  alertHistory : list Alert;               (* newest first *)
  notifiers : list Notifier;
  silencedAlerts : list (string * Silence);(* this.silencedAlerts, a Map by id *)
  maxHistorySize : nat;
  enabled : bool;
  notified : list (string * Alert)
    (* every call of a notifier's [notify], oldest first: the notifier's
       name and the alert it was given *)
}.

Definition withSilences (am : AlertManager) (m : list (string * Silence))
    : AlertManager :=
  {| alerts := alerts am; alertHistory := alertHistory am;
     notifiers := notifiers am; silencedAlerts := m;
     maxHistorySize := maxHistorySize am; enabled := enabled am;
     notified := notified am |}.

Definition withHistory (am : AlertManager) (h : list Alert) : AlertManager :=
  {| alerts := alerts am; alertHistory := h;
     notifiers := notifiers am; silencedAlerts := silencedAlerts am;
     maxHistorySize := maxHistorySize am; enabled := enabled am;
     notified := notified am |}.

Definition withAlerts (am : AlertManager) (a : list (string * Alert)) : AlertManager :=
  {| alerts := a; alertHistory := alertHistory am;
     notifiers := notifiers am; silencedAlerts := silencedAlerts am;
     maxHistorySize := maxHistorySize am; enabled := enabled am;
     notified := notified am |}.

Definition withNotified (am : AlertManager) (n : list (string * Alert)) : AlertManager :=
  {| alerts := alerts am; alertHistory := alertHistory am;
     notifiers := notifiers am; silencedAlerts := silencedAlerts am;
     maxHistorySize := maxHistorySize am; enabled := enabled am;
     notified := n |}.

(** [addNotifier], lines 236-249; a missing filter lets everything pass. *)
Definition addNotifier (nm : string) (nfy : Alert → NotifyOutcome)
    (flt : option (Alert → bool)) (am : AlertManager) : AlertManager :=
  {| alerts := alerts am; alertHistory := alertHistory am;
     notifiers := notifiers am ++ [mkNotifier nm nfy (default (λ _, true) flt)];
     silencedAlerts := silencedAlerts am;
     maxHistorySize := maxHistorySize am; enabled := enabled am;
     notified := notified am |}.

(** Constructor, lines 30-51.  The built-in logger notifier resolves with
    no value. *)
Definition new (maxHistory : option nat) (enabledOpt : option bool) : AlertManager :=
  addNotifier "logger" (λ _, Resolved false) None
    {| alerts := []; alertHistory := []; notifiers := []; silencedAlerts := [];
       maxHistorySize := match maxHistory with
                         | Some (S n) => S n
                         | _ => 1000%nat
                         end;
       enabled := match enabledOpt with Some false => false | _ => true end;
       notified := [] |}.

(** [_labelMatch], lines 825-833. *)
Definition _labelMatch (alertLabels matchLabels : list string) : bool :=
  match matchLabels with
  | [] => true
  | _ => forallb (λ label, bool_decide (label ∈ alertLabels)) matchLabels
  end.

(** The loop of [_isSilenced], lines 793-813, over the entries [todo] still
    to visit; [m] is the map as the deletions so far have left it.  Keys
    are unique and the only entry the loop deletes is the one it is
    visiting, so the entries still to visit are those of the map at the
    start. *)
Fixpoint isSilencedLoop (now : Z) (nm : string) (lbls : list string)
    (todo : list Silence) (m : list (string * Silence))
    : bool * list (string * Silence) :=
  match todo with
  | [] => (false, m)
  | silence :: rest =>
      if bool_decide (s_name silence ≠ nm) && bool_decide (s_name silence ≠ "*")
      then isSilencedLoop now nm lbls rest m
      else if bool_decide (0 < length (s_labels silence))%nat
              && negb (_labelMatch lbls (s_labels silence))
      then isSilencedLoop now nm lbls rest m
      else if bool_decide (0 < expireAt silence) && bool_decide (expireAt silence < now)
      then isSilencedLoop now nm lbls rest (mapDelete (s_id silence) m)
      else (true, m)
  end.

(** [_isSilenced], lines 792-816: the verdict and the manager, from which
    the expired silences met on the way are gone. *)
Definition _isSilenced (now : Z) (nm : string) (lbls : list string)
    (am : AlertManager) : bool * AlertManager :=
  let '(b, m) := isSilencedLoop now nm lbls (mapValues (silencedAlerts am))
                   (silencedAlerts am) in
  (b, withSilences am m).

(** [_addToHistory], lines 755-766. *)
Definition _addToHistory (alert : Alert) (am : AlertManager) : AlertManager :=
  let h := alert :: alertHistory am in
  withHistory am
    (if bool_decide (maxHistorySize am < length h)%nat
     then take (maxHistorySize am) h else h).

(** [findIndex(a => a.id === alert.id)] followed by the assignment at the
    index. *)
Fixpoint replaceFirst (alert : Alert) (h : list Alert) : option (list Alert) :=
  match h with
  | [] => None
  | a :: r => if decide (id a = id alert) then Some (alert :: r)
              else cons a <$> replaceFirst alert r
  end.

(** [_updateAlertHistory], lines 773-783. *)
Definition _updateAlertHistory (alert : Alert) (am : AlertManager) : AlertManager :=
  match replaceFirst alert (alertHistory am) with
  | Some h => withHistory am h
  | None => _addToHistory alert am
  end.

Definition withNotification (alert : Alert) (n : Notification) : Alert :=
  {| id := id alert; name := name alert; message := message alert;
     severity := severity alert; labels := labels alert; data := data alert;
     status := status alert; timestamp := timestamp alert;
     lastUpdated := lastUpdated alert;
     notifications := notifications alert ++ [n];
     silencedBy := silencedBy alert |}.

(** The loop of [_sendNotifications], lines 717-744: the alert with its
    delivery log, and the calls made. *)
Fixpoint sendLoop (now : Z) (ns : list Notifier) (alert : Alert)
    (calls : list (string * Alert)) : Alert * list (string * Alert) :=
  match ns with
  | [] => (alert, calls)
  | notifier :: rest =>
      if negb (filter notifier alert) then sendLoop now rest alert calls
      else
        let calls' := calls ++ [(nf_name notifier, alert)] in
        match notify notifier alert with
        | Resolved result =>
            sendLoop now rest
              (withNotification alert (mkNotification (nf_name notifier) now result None))
              calls'
        | Rejected msg =>
            sendLoop now rest
              (withNotification alert
                 (mkNotification (nf_name notifier) now false (Some msg)))
              calls'
        end
  end.

(** [_sendNotifications], lines 716-748, run to completion.  The alert it
    writes the delivery log to is the object held by the active map. *)
Definition _sendNotifications (now : Z) (alert : Alert) (am : AlertManager)
    : AlertManager :=
  let '(alert', calls) := sendLoop now (notifiers am) alert (notified am) in
  let am1 := withNotified am calls in
  let am2 := match mapGet (name alert) (alerts am1) with
             | Some a => if decide (id a = id alert)
                         then withAlerts am1 (mapSet (name alert) alert' (alerts am1))
                         else am1
             | None => am1
             end in
  _updateAlertHistory alert' am2.

(** [alert], lines 413-448: [null] for a silenced alert, else the alert
    created. *)
Definition alert (now : Z) (nm msg : string) (sev : AlertSeverity)
    (lbls : list string) (dat : option string) (am : AlertManager)
    : option Alert * AlertManager :=
  let '(silenced, am0) := _isSilenced now nm lbls am in
  if silenced then (None, am0)
  else
    let a := {| id := nm +:+ "_" +:+ pretty now; name := nm; message := msg;
                severity := sev; labels := lbls; data := dat; status := ACTIVE;
                timestamp := now; lastUpdated := now; notifications := [];
                silencedBy := None |} in
    let am1 := withAlerts am0 (mapSet nm a (alerts am0)) in
    let am2 := _addToHistory a am1 in
    let am3 := _sendNotifications now a am2 in
    (Some a, am3).

Definition silenceAlert (a : Alert) (silenceId : string) (now : Z) : Alert :=
  {| id := id a; name := name a; message := message a;
     severity := severity a; labels := labels a; data := data a;
     status := SILENCED; timestamp := timestamp a; lastUpdated := now;
     notifications := notifications a; silencedBy := Some silenceId |}.

(** [silence], lines 526-570 (the timer that calls [unsilence] when a
    finite duration has passed is not part of the state). *)
Definition silence (now : Z) (nm : string) (duration : Z) (lbls : list string)
    (by_ : string) (msg : option string) (am : AlertManager)
    : string * AlertManager :=
  let silenceId := nm +:+ "_" +:+ pretty now in
  let s := {| s_id := silenceId; s_name := nm; s_labels := lbls;
              createdAt := now;
              expireAt := if decide (0 < duration) then now + duration else 0;
              s_silencedBy := by_; s_message := msg |} in
  let am1 := withSilences am (mapSet silenceId s (silencedAlerts am)) in
  match mapGet nm (alerts am1) with
  | Some a =>
      if _labelMatch (labels a) lbls
      then let a' := silenceAlert a silenceId now in
           (silenceId,
            _updateAlertHistory a' (withAlerts am1 (mapSet nm a' (alerts am1))))
      else (silenceId, am1)
  | None => (silenceId, am1)
  end.

(** A silence is unexpired at [now] when the test of line 805 fails. *)
Definition unexpired (now : Z) (s : Silence) : Prop :=
  ¬ (0 < expireAt s ∧ expireAt s < now).

(** A silence matches a prospective alert: same name or wildcard, and every
    label of the silence among the alert's. *)
Definition matches (s : Silence) (nm : string) (lbls : list string) : Prop :=
  (s_name s = nm ∨ s_name s = "*") ∧ ∀ l, l ∈ s_labels s → l ∈ lbls.

End Alerts.

(** ** Message processor (MessageProcessor.js) *)
Module MsgProc.

(** A message [{ id, type, data, attempts }].  A field that is [None] is
    missing; [id] and [type] are strings, so the falsy ones are the missing
    one and the empty one. *)
Record Message := mkMessage {
  id : option string;
  type : option string;
  data : string;
  attempts : option nat
}.

Definition truthy (s : option string) : option string :=
  match s with
  | Some x => if decide (x = EmptyString) then None else Some x
  | None => None
  end.

(** The errors [process] throws: its own (lines 381, 386, 392, 406) and
    whatever a handler rejects with. *)
Inductive Error :=
| InvalidFormat                    (* Invalid message format: missing id or type *)
| AlreadyProcessing (id : string)  (* Message <id> is already being processed *)
| NoHandler (type : string)        (* No handler registered for message type: <type> *)
| ProcessingTimeout (id : string)  (* Processing timeout for message <id> *)
| HandlerError (message : string).

(** What a call [handler(data)] does when raced against the timer: its
    promise resolves, it rejects (or the handler throws), or it is still
    pending when the timer fires. *)
Inductive HandlerOutcome :=
| Resolves (result : string)
| Rejects (message : string)
| Pending.

(** A handler may answer differently from one call to the next: its first
    argument is the number of calls already made to it. *)
Abbreviation Handler := (nat → string → HandlerOutcome).

Inductive Event :=
| Invoked (type data : string)                       (* handler(data) *)
| Processed (id result : string)                     (* emit('processed') *)
| Retry (id : string) (error : Error) (attempts : nat) (nextRetryDelay : Z)
| Failed (id : string) (error : Error) (attempts : nat)
| Slept (ms : Z).                                    (* await this.delay(ms) *)

Record ProcessingInfo := mkInfo {
  startTime : Z;
  i_attempts : nat
}.

Record MessageProcessor := mkProcessor {
  maxRetries : Z;
  retryDelay : Z;
  timeout : Z;
  processingMessages : gmap string ProcessingInfo;
  handlers : gmap string Handler;
  trace : list Event    (* what the processor has done, oldest first *)
}.

(** Constructor, lines 342-357, with the defaults 3, 1000, 30000. *)
Definition new (maxRetriesOpt retryDelayOpt timeoutOpt : option Z) : MessageProcessor :=
  {| maxRetries := default 3 maxRetriesOpt;
     retryDelay := default 1000 retryDelayOpt;
     timeout := default 30000 timeoutOpt;
     processingMessages := ∅; handlers := ∅; trace := [] |}.

(** [registerHandler], lines 364-370. *)
Definition registerHandler (ty : string) (handler : Handler)
    (mp : MessageProcessor) : MessageProcessor :=
  {| maxRetries := maxRetries mp; retryDelay := retryDelay mp;
     timeout := timeout mp; processingMessages := processingMessages mp;
     handlers := <[ty := handler]> (handlers mp); trace := trace mp |}.

Definition withProcessing (mp : MessageProcessor)
    (pm : gmap string ProcessingInfo) : MessageProcessor :=
  {| maxRetries := maxRetries mp; retryDelay := retryDelay mp;
     timeout := timeout mp; processingMessages := pm;
     handlers := handlers mp; trace := trace mp |}.

Definition record (evs : list Event) (mp : MessageProcessor) : MessageProcessor :=
  {| maxRetries := maxRetries mp; retryDelay := retryDelay mp;
     timeout := timeout mp; processingMessages := processingMessages mp;
     handlers := handlers mp; trace := trace mp ++ evs |}.

(** The number of calls made so far to the handler of [ty]. *)
Definition isInvoked (ty : string) (e : Event) : bool :=
  match e with
  | Invoked ty' _ => bool_decide (ty' = ty)
  | _ => false
  end.

Definition invocations (ty : string) (tr : list Event) : nat :=
  length (List.filter (isInvoked ty) tr).

(** [calculateRetryDelay], lines 516-522.  [process] calls it with the
    attempt count it recorded, which is at least 1. *)
Definition calculateRetryDelay (mp : MessageProcessor) (attempts : nat) : Z :=
  Z.min (retryDelay mp * 2 ^ (Z.of_nat attempts - 1)) 30000.

Inductive Result :=
| Returned (result : string)
| Thrown (error : Error).

Definition withAttempts (message : Message) (n : nat) : Message :=
  {| id := id message; type := type message; data := data message;
     attempts := Some n |}.

(** [process], lines 377-457.  The function calls itself after a failed
    attempt; [fuel] bounds the depth of these calls and [None] means that
    it ran out.  The timer of the race is set and cleared again within one
    attempt and is not part of the state. *)
Fixpoint processFuel (fuel : nat) (now : Z) (message : Message)
    (mp : MessageProcessor) : option (Result * MessageProcessor) :=
  match fuel with
  | O => None
  | S fuel' =>
      let attempts := default 0%nat (attempts message) in
      match truthy (id message), truthy (type message) with
      | Some i, Some ty =>
          if decide (is_Some (processingMessages mp !! i))
          then Some (Thrown (AlreadyProcessing i), mp)
          else
            match handlers mp !! ty with
            | None => Some (Thrown (NoHandler ty), mp)
            | Some handler =>
                let mp1 := withProcessing mp
                             (<[i := mkInfo now (attempts + 1)]> (processingMessages mp)) in
                let outcome := handler (invocations ty (trace mp1)) (data message) in
                let mp2 := record [Invoked ty (data message)] mp1 in
                let failed error :=
                  let processingInfo :=
                    default (mkInfo now 1) (processingMessages mp2 !! i) in
                  let shouldRetry :=
                    bool_decide (Z.of_nat (i_attempts processingInfo) < maxRetries mp2) in
                  let mp3 := withProcessing mp2 (delete i (processingMessages mp2)) in
                  if shouldRetry then
                    let delay := calculateRetryDelay mp3 (i_attempts processingInfo) in
                    let mp4 := record [Retry i error (i_attempts processingInfo) delay;
                                       Slept delay] mp3 in
                    processFuel fuel' (now + delay)
                      (withAttempts message (i_attempts processingInfo)) mp4
                  else
                    Some (Thrown error,
                          record [Failed i error (i_attempts processingInfo)] mp3) in
                match outcome with
                | Resolves result =>
                    Some (Returned result,
                          record [Processed i result]
                            (withProcessing mp2 (delete i (processingMessages mp2))))
                | Rejects msg => failed (HandlerError msg)
                | Pending => failed (ProcessingTimeout i)
                end
            end
      | _, _ => Some (Thrown InvalidFormat, mp)
      end
  end.

(** Enough fuel for any message: one call, and one more for each attempt
    count from the message's up to [maxRetries]. *)
Definition fuelFor (mp : MessageProcessor) (message : Message) : nat :=
  S (Z.to_nat (maxRetries mp - Z.of_nat (default 0%nat (attempts message)))).

Definition process (now : Z) (message : Message) (mp : MessageProcessor)
    : option (Result * MessageProcessor) :=
  processFuel (fuelFor mp message) now message mp.

(** The error a failed attempt ends with. *)
Definition failure (i : string) (o : HandlerOutcome) : option Error :=
  match o with
  | Resolves _ => None
  | Rejects msg => Some (HandlerError msg)
  | Pending => Some (ProcessingTimeout i)
  end.

Definition sleeps (tr : list Event) : list Z :=
  omap (λ e, match e with Slept ms => Some ms | _ => None end) tr.

(** The handler of scenario S6: it rejects twice, then resolves with
    ["ok"]. *)
Definition flaky : Handler :=
  λ n _, if decide (n < 2)%nat then Rejects "boom" else Resolves "ok".

End MsgProc.

(** ** Dead-letter queue (DeadLetterQueue.js over Queue.js) *)
Module DLQ.

(** The original message a DLQ record wraps. *)
Record Message := mkMessage {
  m_id : string;
  m_body : string
}.

(** [meta] of a DLQ record; a field that is [None] is [undefined]. *)
Record Meta := mkMeta {
  addedAt : option Z;
  retryCount : option Z;
  lastRetryAt : option Z;
  nextRetryAt : option Z
}.

Record Context := mkContext {
  failedAt : option Z;
  originalQueue : option string;
  c_attempts : option Z
}.

(** The DLQ record [{ originalMessage, error, context, meta }]. *)
Record DeadLetterMessage := mkDLM {
  originalMessage : option Message;
  error : string;
  context : option Context;
  meta : option Meta
}.

(** Job options as [Queue.add] passes them to the store. *)
Record JobOptions := mkOpts {
  attempts : option Z;
  backoffDelay : option Z;          (* exponential backoff, base delay *)
  removeOnComplete : option bool;
  jobId : option string
}.

Definition noOptions : JobOptions := mkOpts None None None None.

(** [Queue.add], lines 976-994: the defaults
    [{ attempts: 3, backoff: exponential 1000, removeOnComplete: true }]
    with the caller's options spread over them. *)
Definition queueAddOptions (jobOptions : JobOptions) : JobOptions :=
  {| attempts := Some (default 3 (attempts jobOptions));
     backoffDelay := Some (default 1000 (backoffDelay jobOptions));
     removeOnComplete := Some (default true (removeOnComplete jobOptions));
     jobId := jobId jobOptions |}.

(** A job added to a queue other than the dead-letter queue. *)
Record Enqueued := mkEnqueued {
  e_queue : string;
  e_data : Message;
  e_options : JobOptions
}.

(** The dead-letter queue object together with the job store behind it.
    [getJob] reads a job from the store: what [retryMessage] writes to the
    data it was handed reaches the store through [job.update] only.
    Whether the store accepts an [add] or an [update] is not up to this
    code: [addRejects q] is the error with which adding to queue [q]
    rejects, [updateRejects] the one with which [job.update] does. *)
Record DeadLetterQueue := mkDLQ {
  queueName : string;
  retryInterval : Z;
  maxRetries : Z;
  ttl : Z;
  dlqJobs : gmap string DeadLetterMessage;   (* the dead-letter queue, by job id *)
  enqueued : list Enqueued;                  (* the [add] calls on other queues, oldest first *)
  addRejects : string → option string;
  updateRejects : option string
}.

(** Constructor, lines 7-28, over a store that accepts everything. *)
Definition new (queueNameOpt : option string)
    (retryIntervalOpt maxRetriesOpt ttlOpt : option Z) : DeadLetterQueue :=
  {| queueName := default "dead-letter-queue" queueNameOpt;
     retryInterval := default (1000 * 60 * 30) retryIntervalOpt;
     maxRetries := default 3 maxRetriesOpt;
     ttl := default (1000 * 60 * 60 * 24 * 7) ttlOpt;
     dlqJobs := ∅; enqueued := [];
     addRejects := λ _, None; updateRejects := None |}.

Definition withStore (q : DeadLetterQueue) (jobs : gmap string DeadLetterMessage)
    (enq : list Enqueued) : DeadLetterQueue :=
  {| queueName := queueName q; retryInterval := retryInterval q;
     maxRetries := maxRetries q; ttl := ttl q;
     dlqJobs := jobs; enqueued := enq;
     addRejects := addRejects q; updateRejects := updateRejects q |}.

Definition dlqJobId (messageId : string) : string := "dlq:" +:+ messageId.

(** [_calculateNextRetryTime], lines 277-280. *)
Definition _calculateNextRetryTime (now : Z) (q : DeadLetterQueue) (retryCount : Z) : Z :=
  now + retryInterval q * 2 ^ retryCount.

Inductive Result :=
| Returned (b : bool)
| Thrown (message : string).

(** [addFailedMessage], lines 37-71; [context.queueName] becomes
    [originalQueue].  The store keeps a job whose id it already has. *)
Definition addFailedMessage (now : Z) (message : Message) (err : string)
    (ctxQueueName : option string) (ctxAttempts : option Z)
    (q : DeadLetterQueue) : option string * DeadLetterQueue :=
  let deadLetterMessage :=
    {| originalMessage := Some message; error := err;
       context := Some {| failedAt := Some now; originalQueue := ctxQueueName;
                          c_attempts := Some (default 0 ctxAttempts) |};
       meta := Some {| addedAt := Some now; retryCount := Some 0;
                       lastRetryAt := None;
                       nextRetryAt := Some (_calculateNextRetryTime now q 0) |} |} in
  match addRejects q (queueName q) with
  | Some e => (Some e, q)
  | None =>
      match dlqJobs q !! dlqJobId (m_id message) with
      | Some _ => (None, q)
      | None =>
          (None,
           withStore q (<[dlqJobId (m_id message) := deadLetterMessage]> (dlqJobs q))
                       (enqueued q))
      end
  end.

(** [meta.retryCount] after the defensive defaults of lines 94-103. *)
Definition effectiveRetryCount (d : DeadLetterMessage) : Z :=
  match meta d with
  | Some m => default 0 (retryCount m)
  | None => 0
  end.

(** The queue the message goes back to, after the defaults of lines
    117-121: a missing or empty [originalQueue] is [default-queue]. *)
Definition targetQueueName (d : DeadLetterMessage) : string :=
  match context d with
  | Some c => match originalQueue c with
              | Some n => if decide (n = EmptyString) then "default-queue" else n
              | None => "default-queue"
              end
  | None => "default-queue"
  end.

Definition retriedContext (d : DeadLetterMessage) : Context :=
  match context d with
  | Some c => {| failedAt := failedAt c;
                 originalQueue := Some (targetQueueName d);
                 c_attempts := c_attempts c |}
  | None => {| failedAt := None; originalQueue := Some "default-queue";
               c_attempts := None |}
  end.

Definition retriedMeta (now : Z) (q : DeadLetterQueue) (d : DeadLetterMessage) : Meta :=
  let count := effectiveRetryCount d + 1 in
  {| addedAt := meta d ≫= addedAt;
     retryCount := Some count;
     lastRetryAt := Some now;
     nextRetryAt := Some (_calculateNextRetryTime now q count) |}.

(** The options of the job that a retry adds to the target queue:
    [{ ...options, attempts: 1 }] through [Queue.add]. *)
Definition retryJobOptions (options : JobOptions) : JobOptions :=
  queueAddOptions
    {| attempts := Some 1; backoffDelay := backoffDelay options;
       removeOnComplete := removeOnComplete options; jobId := jobId options |}.

(** [retryMessage], lines 79-142. *)
Definition retryMessage (now : Z) (messageId : string) (options : JobOptions)
    (q : DeadLetterQueue) : Result * DeadLetterQueue :=
  match dlqJobs q !! dlqJobId messageId with
  | None =>
      (Thrown ("Message " +:+ messageId +:+ " not found in dead letter queue"), q)
  | Some deadLetterMessage =>
      match originalMessage deadLetterMessage with
      | None =>
          (Thrown "Invalid dead letter message structure: missing originalMessage", q)
      | Some original =>
          if decide (maxRetries q ≤ effectiveRetryCount deadLetterMessage)
          then (Returned false, q)
          else
            let meta' := retriedMeta now q deadLetterMessage in
            let context' := retriedContext deadLetterMessage in
            let target := targetQueueName deadLetterMessage in
            match addRejects q target with
            | Some e => (Thrown e, q)
            | None =>
                let job := {| e_queue := target; e_data := original;
                              e_options := retryJobOptions options |} in
                let q1 := withStore q (dlqJobs q) (enqueued q ++ [job]) in
                match updateRejects q with
                | Some e => (Thrown e, q1)
                | None =>
                    (Returned true,
                     withStore q1
                       (<[dlqJobId messageId :=
                            {| originalMessage := Some original;
                               error := error deadLetterMessage;
                               context := Some context';
                               meta := Some meta' |}]> (dlqJobs q1))
                       (enqueued q1))
                end
            end
      end
  end.

(** [n] calls of [retryMessage] for the same message, one after the
    other: the results in order, and the queue at the end. *)
Fixpoint retryTimes (n : nat) (now : Z) (messageId : string) (options : JobOptions)
    (q : DeadLetterQueue) : list Result * DeadLetterQueue :=
  match n with
  | O => ([], q)
  | S n' =>
      let '(r, q1) := retryMessage now messageId options q in
      let '(rs, q2) := retryTimes n' now messageId options q1 in
      (r :: rs, q2)
  end.


(** Scenario S5: the queue after [addFailedMessage] of message [m1] with
    error [boom] in context [{ queueName: "orders" }], and the record. *)
Definition s5Queue : DeadLetterQueue :=
  (addFailedMessage 0 (mkMessage "m1" "payload") "boom" (Some "orders") None
     (new None None None None)).2.

Definition s5Record (count : Z) (last next : option Z) : DeadLetterMessage :=
  {| originalMessage := Some (mkMessage "m1" "payload"); error := "boom";
     context := Some {| failedAt := Some 0; originalQueue := Some "orders";
                        c_attempts := Some 0 |};
     meta := Some {| addedAt := Some 0; retryCount := Some count;
                     lastRetryAt := last; nextRetryAt := next |} |}.

(** The store accepts every [add] and every [update]. *)
Definition storeAccepts (q : DeadLetterQueue) : Prop :=
  (∀ name, addRejects q name = None) ∧ updateRejects q = None.

End DLQ.

(** ** Cache lock and stampede-protected cache
       (CacheLock.js, cache.js, CacheKeyGenerator.js) *)
Module Cache.

(** A JSON value, as far as its truthiness goes: an object or an array
    (carried as its text) is always truthy. *)
Inductive Json :=
| JNull
| JBool (b : bool)
| JNum (n : Z)
| JStr (s : string)
| JObject (text : string).

#[global] Instance Json_eq_dec : EqDecision Json.
Proof. solve_decision. Defined.

(** JavaScript's [if (data)]. *)
Definition truthy (v : Json) : bool :=
  match v with
  | JNull => false
  | JBool b => b
  | JNum n => bool_decide (n ≠ 0)
  | JStr s => bool_decide (s ≠ EmptyString)
  | JObject _ => true
  end.

(** A key of the store: the value written ([JSON.stringify] on the way
    in, [JSON.parse] on the way out) and the expiry it was set with, in
    seconds.  The store answers every command. *)
Record Entry := mkEntry {
  payload : Json;
  ttl : Z
}.

Inductive Result :=
| Ok (data : Json)
| Throw (message : string).

(** How the promise of [fallback()] settles. *)
Inductive FallbackOutcome :=
| Yields (data : Json)
| Fails (message : string).

(** The arguments of [getWithProtection].  [fallback n] is what the call
    of [fallback] does that [n] calls have preceded. *)
Record Request := mkRequest {
  entity : string;
  operation : string;
  identifier : string;
  fallback : nat → FallbackOutcome;
  expireTime : Z
}.

(** [CacheKeyGenerator.generate], with the service's prefix [rdp] and the
    default version [v1]: the key, or the validation error. *)
Definition generateKey (rq : Request) : string + string :=
  if decide (entity rq = EmptyString) then inr "entity is required"
  else if decide (operation rq = EmptyString) then inr "operation is required"
  else if decide (identifier rq = EmptyString) then inr "identifier is required"
  else inl ("rdp:" +:+ entity rq +:+ ":" +:+ operation rq +:+ ":"
            +:+ identifier rq +:+ ":v1").

Definition cacheKeyOf (rq : Request) : string :=
  "rdp:" +:+ entity rq +:+ ":" +:+ operation rq +:+ ":" +:+ identifier rq +:+ ":v1".

(** [CacheLock.getLockKey], [lockPrefix = 'lock:']. *)
Definition getLockKey (key : string) : string := "lock:" +:+ key.

Definition defaultLockTime : Z := 10.

(** [CacheLock.acquire], lines 26-36: [SET lockKey '1' NX EX ttl]. *)
Definition acquire (key : string) (redis : gmap string Entry)
    : bool * gmap string Entry :=
  match redis !! getLockKey key with
  | Some _ => (false, redis)
  | None => (true, <[getLockKey key := mkEntry (JNum 1) defaultLockTime]> redis)
  end.

(** [CacheLock.release], lines 42-49: an unconditional [DEL]. *)
Definition release (key : string) (redis : gmap string Entry) : gmap string Entry :=
  delete (getLockKey key) redis.

(** [CacheService.get], lines 129-138: [data ? JSON.parse(data) : null]. *)
Definition get (key : string) (redis : gmap string Entry) : Json :=
  match redis !! key with
  | Some e => payload e
  | None => JNull
  end.

(** [CacheService.set], lines 112-120: [SET key value EX expireTime]. *)
Definition set (key : string) (value : Json) (expire : Z)
    (redis : gmap string Entry) : gmap string Entry :=
  <[key := mkEntry value expire]> redis.

(** What the calls share: the store, the number of calls of [fallback]
    made so far, and the sleeps taken (in ms, oldest first). *)
Record World := mkWorld {
  redis : gmap string Entry;
  fallbackCalls : nat;
  sleeps : list Z
}.

Definition withRedis (w : World) (r : gmap string Entry) : World :=
  {| redis := r; fallbackCalls := fallbackCalls w; sleeps := sleeps w |}.

(** Where a call of [getWithProtection] (lines 231-266) stands: at each
    point the next thing to happen is one command of the store, the 100 ms
    timer, or the settling of [fallback()]. *)
Inductive Pc :=
| Start                            (* 232-238: generateKey, [get] *)
| TryLock                          (* 241: [acquire] *)
| Sleeping                         (* 244: the timer, then the recursive call *)
| DoubleCheck                      (* 250: [get] again, lock held *)
| InFallback (o : FallbackOutcome) (* 256: [fallback()] called, not settled *)
| WriteBack (data : Json)          (* 259: [set] *)
| Release (r : Result)             (* 264: [release] in [finally] *)
| Done (r : Result).               (* returned or thrown *)

#[global] Instance FallbackOutcome_eq_dec : EqDecision FallbackOutcome.
Proof. solve_decision. Defined.

#[global] Instance Result_eq_dec : EqDecision Result.
Proof. solve_decision. Defined.

#[global] Instance Pc_eq_dec : EqDecision Pc.
Proof. solve_decision. Defined.

(** One step of a call.  The code that runs when a reply arrives (the
    test of [data], the call of [fallback], the sending of the next
    command) is taken together with the command it follows. *)
Definition callStep (rq : Request) (pc : Pc) (w : World) : Pc * World :=
  let cacheKey := cacheKeyOf rq in
  match pc with
  | Start =>
      match generateKey rq with
      | inr e => (Done (Throw e), w)
      | inl _ =>
          let data := get cacheKey (redis w) in
          if truthy data then (Done (Ok data), w) else (TryLock, w)
      end
  | TryLock =>
      let '(locked, r) := acquire cacheKey (redis w) in
      if locked then (DoubleCheck, withRedis w r)
      else (Sleeping, {| redis := r; fallbackCalls := fallbackCalls w;
                         sleeps := sleeps w ++ [100] |})
  | Sleeping => (Start, w)
  | DoubleCheck =>
      let data := get cacheKey (redis w) in
      if truthy data then (Release (Ok data), w)
      else (InFallback (fallback rq (fallbackCalls w)),
            {| redis := redis w; fallbackCalls := S (fallbackCalls w);
               sleeps := sleeps w |})
  | InFallback (Yields data) => (WriteBack data, w)
  | InFallback (Fails e) => (Release (Throw e), w)
  | WriteBack data =>
      (Release (Ok data), withRedis w (set cacheKey data (expireTime rq) (redis w)))
  | Release r => (Done r, withRedis w (release cacheKey (redis w)))
  | Done r => (Done r, w)
  end.

(** A call on its own, from [pc] until it returns; [fuel] bounds the
    number of steps, and [None] means that it ran out (a lock that nobody
    releases makes the call retry for ever). *)
Fixpoint runCall (fuel : nat) (rq : Request) (pc : Pc) (w : World)
    : option (Result * World) :=
  match pc with
  | Done r => Some (r, w)
  | _ =>
      match fuel with
      | O => None
      | S fuel' =>
          let '(pc', w') := callStep rq pc w in runCall fuel' rq pc' w'
      end
  end.

Definition getWithProtection (fuel : nat) (rq : Request) (w : World)
    : option (Result * World) :=
  runCall fuel rq Start w.

(** *** Concurrent calls *)

(** Several calls in flight over one store.  A schedule says which call
    moves next, or which key of the store expires. *)
Record Sys := mkSys {
  world : World;
  calls : list Pc
}.

Inductive Label :=
| Run (i : nat)
| Expire (key : string).

Definition sysStep (rq : Request) (l : Label) (s : Sys) : option Sys :=
  match l with
  | Run i =>
      match calls s !! i with
      | None | Some (Done _) => None
      | Some pc =>
          let '(pc', w') := callStep rq pc (world s) in
          Some {| world := w'; calls := <[i := pc']> (calls s) |}
      end
  | Expire key =>
      match redis (world s) !! key with
      | Some _ => Some {| world := withRedis (world s) (delete key (redis (world s)));
                          calls := calls s |}
      | None => None
      end
  end.

Fixpoint run (rq : Request) (schedule : list Label) (s : Sys) : option Sys :=
  match schedule with
  | [] => Some s
  | l :: rest => sysStep rq l s ≫= run rq rest
  end.

(** [n] calls issued together on the world [w]. *)
Definition issue (n : nat) (w : World) : Sys :=
  {| world := w; calls := replicate n Start |}.

Definition isRun (l : Label) : Prop :=
  match l with Run _ => True | Expire _ => False end.








(** Scenario S4: the request, the value [fetch] returns, and an empty
    store. *)
Definition s4Value : Json := JObject "{id:1,name:test}".

Definition s4Request : Request :=
  mkRequest "user" "profile" "123" (λ _, Yields s4Value) 3600.




(** [n] calls one after the other: call 0 from its first look to its
    return, then each of the others once. *)
Definition oneByOne (n : nat) : list Label :=
  replicate 6 (Run 0) ++ map Run (seq 1 (n - 1)).

(** Two calls one after the other. *)
Definition sequentialSchedule : list Label :=
  [ Run 0; Run 0; Run 0; Run 0; Run 0; Run 0;
    Run 1; Run 1; Run 1; Run 1; Run 1; Run 1 ].

End Cache.

(** ** Cache service: keys and plain commands
       (CacheKeyGenerator.js, cache.js) *)
Module CacheService.

(** [CacheKeyGenerator.generate], lines 17-25.  [prefix] and [version]
    are [None] when the caller leaves them out; a missing [entity],
    [operation] or [identifier] is falsy like the empty string. *)
Definition generate (defaultPrefix : string) (prefix : option string)
    (entity operation identifier : string) (version : option string)
    : string + string :=
  if decide (entity = EmptyString) then inr "entity is required"
  else if decide (operation = EmptyString) then inr "operation is required"
  else if decide (identifier = EmptyString) then inr "identifier is required"
  else inl (default defaultPrefix prefix +:+ ":" +:+ entity +:+ ":" +:+ operation
            +:+ ":" +:+ identifier +:+ ":" +:+ default "v1" version).

(** What the service's methods take to name a key. *)
Record KeyParts := mkKey {
  entity : string;
  operation : string;
  identifier : string
}.

(** [CacheService.generateKey], lines 100-102, over the generator of line
    87, whose default prefix is [rdp]. *)
Definition generateKey (k : KeyParts) (version : option string) : string + string :=
  generate "rdp" None (entity k) (operation k) (identifier k) version.

Inductive Reply (A : Type) :=
| Ok (a : A)
| Throw (message : string).
Arguments Ok {A} a.
Arguments Throw {A} message.

Definition Store : Type := gmap string Cache.Entry.

(** [set], lines 112-120. *)
Definition set (k : KeyParts) (value : Cache.Json) (expireTime : option Z)
    (redis : Store) : Reply unit * Store :=
  match generateKey k None with
  | inr e => (Throw e, redis)
  | inl key => (Ok (), Cache.set key value (default 3600 expireTime) redis)
  end.

(** [get], lines 129-138. *)
Definition get (k : KeyParts) (redis : Store) : Reply Cache.Json :=
  match generateKey k None with
  | inr e => Throw e
  | inl key => Ok (Cache.get key redis)
  end.





(** No colon in a string. *)
Fixpoint colonFree (s : string) : bool :=
  match s with
  | EmptyString => true
  | String c r => negb (bool_decide (c = ":"%char)) && colonFree r
  end.

(** The request of [getWithProtection] for a key. *)
Definition request (k : KeyParts) (fallback : nat → Cache.FallbackOutcome)
    (expireTime : Z) : Cache.Request :=
  Cache.mkRequest (entity k) (operation k) (identifier k) fallback expireTime.

End CacheService.

(** ** Metric registry: label keys and registrations *)
Module MetricLabels.
Import JsMap Metrics.

(** The character [c] does not occur in [s]. *)
Fixpoint charFree (c : ascii) (s : string) : bool :=
  match s with
  | EmptyString => true
  | String c' r => negb (bool_decide (c' = c)) && charFree c r
  end.

(** A label name or value that the label key can carry: it holds neither
    of the two separators of [_getLabelKey]. *)
Definition plain (s : string) : bool := charFree "," s && charFree ":" s.

(** The label object [_parseLabelKey] is expected to give back for
    [labels] under the label names [lbls]: every name, in order, with its
    value, the empty string for a missing one. *)
Definition labelObjectOf (labels : gmap string string) (lbls : list string)
    : LabelObject :=
  map (λ n, (n, Some (default EmptyString (labels !! n)))) lbls.

(** What a snapshot says about the registration of a metric. *)
Definition registration (s : MetricSnapshot) : string * MetricType * string * list string :=
  (s_name s, s_type s, s_help s, s_labelNames s).

End MetricLabels.

(** ** Health registry: registries the API builds *)
Module HealthRegistry.
Import Health.

(** The check resolved in time. *)
Definition resolves (o : CheckOutcome) : bool :=
  match o with Resolves _ => true | _ => false end.


(** What [registerCheck] and [checkAll] keep true of a registry, starting
    from the constructor: checks and components go by the same names, and
    a component is critical exactly when its check is. *)
Definition consistent (hc : HealthChecker) : Prop :=
  ∀ name,
    match checks hc !! name, components hc !! name with
    | Some chk, Some c => critical c = check_critical chk
    | None, None => True
    | _, _ => False
    end.

(** [getComponentStatus], lines 373-375. *)
Definition getComponentStatus (name : string) (hc : HealthChecker) : option Component :=
  components hc !! name.

End HealthRegistry.

(** ** Alert engine: silences lifted, queries, notifier presets
       (AlertManager.js) *)
Module AlertOps.
Import JsMap Alerts.

#[global] Instance AlertSeverity_eq_dec : EqDecision AlertSeverity.
Proof. solve_decision. Defined.

#[global] Instance AlertStatus_eq_dec : EqDecision AlertStatus.
Proof. solve_decision. Defined.

(** The alert after lines 590-592: [delete alert.silencedBy], status back
    to active. *)
Definition unsilenceAlert (a : Alert) (now : Z) : Alert :=
  {| id := id a; name := name a; message := message a;
     severity := severity a; labels := labels a; data := data a;
     status := ACTIVE; timestamp := timestamp a; lastUpdated := now;
     notifications := notifications a; silencedBy := None |}.

(** One turn of the loop of [unsilence], lines 587-597, on the entry
    [(nm, alert)] of the active map. *)
Definition unsilenceStep (now : Z) (silenceId : string) (am : AlertManager)
    (entry : string * Alert) : AlertManager :=
  let '(nm, alert) := entry in
  if decide (silencedBy alert = Some silenceId)
  then let alert' := unsilenceAlert alert now in
       _updateAlertHistory alert' (withAlerts am (mapSet nm alert' (alerts am)))
  else am.

(** [unsilence], lines 577-604.  The loop writes to the alerts it visits
    and does not add or remove entries, so it visits the entries the map
    had at the start. *)
Definition unsilence (now : Z) (silenceId : string) (am : AlertManager)
    : bool * AlertManager :=
  match mapGet silenceId (silencedAlerts am) with
  | None => (false, am)
  | Some _ =>
      let am1 := withSilences am (mapDelete silenceId (silencedAlerts am)) in
      (true, foldl (unsilenceStep now silenceId) am1 (alerts am1))
  end.

(** [getActiveAlerts], lines 610-612. *)
Definition getActiveAlerts (am : AlertManager) : list Alert :=
  mapValues (alerts am).

(** The options of [getAlertHistory]; a field that is [None] is left
    out.  A limit is an integer. *)
Record HistoryOptions := mkHistoryOptions {
  o_limit : option Z;
  o_severity : option AlertSeverity;
  o_status : option AlertStatus;
  o_name : option string;
  o_startTime : option Z;
  o_endTime : option Z
}.

(** [if (options.x)] on an optional number and on an optional string. *)
Definition truthyZ (o : option Z) : option Z :=
  match o with
  | Some z => if decide (z = 0) then None else Some z
  | None => None
  end.

Definition truthyS (o : option string) : option string :=
  match o with
  | Some s => if decide (s = EmptyString) then None else Some s
  | None => None
  end.

(** The four filters of lines 626-648 as one test. *)
Definition selected (options : HistoryOptions) (alert : Alert) : bool :=
  match truthyS (o_name options) with
  | Some n => bool_decide (name alert = n)
  | None => true
  end
  && match o_severity options with
     | Some s => bool_decide (severity alert = s)
     | None => true
     end
  && match o_status options with
     | Some s => bool_decide (status alert = s)
     | None => true
     end
  && match truthyZ (o_startTime options), truthyZ (o_endTime options) with
     | Some startTime, Some endTime =>
         bool_decide (startTime ≤ timestamp alert) && bool_decide (timestamp alert ≤ endTime)
     | Some startTime, None => bool_decide (startTime ≤ timestamp alert)
     | None, Some endTime => bool_decide (timestamp alert ≤ endTime)
     | None, None => true
     end.

(** [history.sort((a, b) => b.timestamp - a.timestamp)], line 651: a
    stable sort, newest first; here by insertion. *)
Fixpoint insertByTimestamp (a : Alert) (l : list Alert) : list Alert :=
  match l with
  | [] => [a]
  | b :: r => if decide (timestamp b ≤ timestamp a) then a :: b :: r
              else b :: insertByTimestamp a r
  end.

Definition sortByTimestamp (l : list Alert) : list Alert :=
  foldr insertByTimestamp [] l.

(** [getAlertHistory], lines 623-659. *)
Definition getAlertHistory (options : HistoryOptions) (am : AlertManager) : list Alert :=
  let history := sortByTimestamp (List.filter (selected options) (alertHistory am)) in
  match truthyZ (o_limit options) with
  | Some limit => if decide (0 < limit) then take (Z.to_nat limit) history else history
  | None => history
  end.

(** The filters of the e-mail and Slack notifiers, lines 260-263 and
    301-308. *)
Definition emailFilter (alert : Alert) : bool :=
  match severity alert with ERROR | CRITICAL => true | _ => false end.

Definition slackFilter (alert : Alert) : bool :=
  match severity alert with WARNING | ERROR | CRITICAL => true | _ => false end.

(** [addEmailNotifier], lines 257-291, and [addSlackNotifier], lines
    298-376: [notify] catches what the transport throws and resolves with
    [true] or [false]; [sent alert] says whether the transport took the
    message. *)
Definition addEmailNotifier (sent : Alert → bool) (am : AlertManager) : AlertManager :=
  addNotifier "email" (λ alert, Resolved (sent alert)) (Some emailFilter) am.

Definition addSlackNotifier (sent : Alert → bool) (am : AlertManager) : AlertManager :=
  addNotifier "slack" (λ alert, Resolved (sent alert)) (Some slackFilter) am.

(** The alert that [alert] creates, lines 421-432. *)
Definition created (now : Z) (nm msg : string) (sev : AlertSeverity)
    (lbls : list string) (dat : option string) : Alert :=
  {| id := nm +:+ "_" +:+ pretty now; name := nm; message := msg;
     severity := sev; labels := lbls; data := dat; status := ACTIVE;
     timestamp := now; lastUpdated := now; notifications := [];
     silencedBy := None |}.

(** The calls of the API that write to the manager, each at its time. *)
Inductive Op :=
| Raise (now : Z) (nm msg : string) (sev : AlertSeverity) (lbls : list string)
        (dat : option string)
| Silence_ (now : Z) (nm : string) (duration : Z) (lbls : list string)
           (by_ : string) (msg : option string)
| Unsilence (now : Z) (silenceId : string).

Definition applyOp (am : AlertManager) (op : Op) : AlertManager :=
  match op with
  | Raise now nm msg sev lbls dat => (alert now nm msg sev lbls dat am).2
  | Silence_ now nm duration lbls by_ msg => (silence now nm duration lbls by_ msg am).2
  | Unsilence now silenceId => (unsilence now silenceId am).2
  end.

Definition runOps (ops : list Op) (am : AlertManager) : AlertManager :=
  foldl applyOp am ops.

(** [a] is at least as new as [b]. *)
Definition newerOrSame (a b : Alert) : Prop := timestamp b ≤ timestamp a.

(** The alert with the entries [log] added to its delivery log. *)
Definition delivered (a : Alert) (log : list Notification) : Alert :=
  foldl withNotification a log.

(** The notifiers whose filter lets the alert pass. *)
Definition accepting (ns : list Notifier) (a : Alert) : list Notifier :=
  List.filter (λ n, filter n a) ns.

(** What [unsilence] makes of an active alert. *)
Definition lifted (now : Z) (silenceId : string) (a : Alert) : Alert :=
  if decide (silencedBy a = Some silenceId) then unsilenceAlert a now else a.

(** The history holds no more than [maxHistorySize] entries. *)
Definition bounded (am : AlertManager) : Prop :=
  (length (alertHistory am) ≤ maxHistorySize am)%nat.

End AlertOps.

(** ** Message processor: budget of a call, eviction of stuck entries
       (MessageProcessor.js) *)
Module MsgProcOps.
Import MsgProc.

(** The most handler calls one [process] can make on a message: one, and
    one more for each attempt count from the message's own up to
    [maxRetries]. *)
Definition attemptBudget (mp : MessageProcessor) (message : Message) : nat :=
  Z.to_nat (Z.max 1 (maxRetries mp - Z.of_nat (default 0%nat (attempts message)))).

(** The message passes the checks of lines 380-393: it has an id and a
    type, its id is not in flight, its type has a handler. *)
Definition admitted (mp : MessageProcessor) (message : Message) : Prop :=
  ∃ i t handler,
    truthy (id message) = Some i ∧ truthy (type message) = Some t ∧
    processingMessages mp !! i = None ∧ handlers mp !! t = Some handler.

(** The test of line 562: the entry has been in flight for longer than
    [timeout]. *)
Definition timedOut (now : Z) (mp : MessageProcessor) (info : ProcessingInfo) : Prop :=
  timeout mp < now - startTime info.

#[global] Instance timedOut_dec now mp info : Decision (timedOut now mp info).
Proof. unfold timedOut. apply _. Defined.

(** [cleanupTimedOutMessages], lines 559-569: the entries evicted (a
    [timeout] event is emitted for each) and the processor without
    them. *)
Definition cleanupTimedOutMessages (now : Z) (mp : MessageProcessor)
    : gmap string ProcessingInfo * MessageProcessor :=
  (filter (λ kv, timedOut now mp kv.2) (processingMessages mp),
   withProcessing mp (filter (λ kv, ¬ timedOut now mp kv.2) (processingMessages mp))).

End MsgProcOps.

(** ** Dead-letter queue: batch retry and expiry (DeadLetterQueue.js) *)
Module DLQBatch.
Import DLQ.

(** The filters of [retryBatch]; a field that is [None] is left out. *)
Record Filters := mkFilters {
  minAge : option Z;
  f_maxRetries : option Z;
  f_queueName : option string
}.

Definition noFilters : Filters := mkFilters None None None.

(** A job of the dead-letter queue as [getJobs] returns it: its id, the
    time it was added and its data. *)
Record Job := mkJob {
  j_id : string;
  j_timestamp : Z;
  j_data : option DeadLetterMessage
}.

(** [if (x)] on an optional number and on an optional string. *)
Definition truthyZ (o : option Z) : option Z :=
  match o with
  | Some z => if decide (z = 0) then None else Some z
  | None => None
  end.

Definition truthyS (o : option string) : option string :=
  match o with
  | Some s => if decide (s = EmptyString) then None else Some s
  | None => None
  end.

(** [_shouldSkipRetry], lines 289-315.  [meta.addedAt] is a date, truthy
    when it is there; [undefined >= n] is false; [!==] tells a missing
    [originalQueue] from every name. *)
Definition _shouldSkipRetry (now : Z) (messageData : option DeadLetterMessage)
    (filters : Filters) : bool :=
  match messageData with
  | None => true
  | Some d =>
      match meta d with
      | None => true
      | Some m =>
          if match truthyZ (minAge filters), addedAt m with
             | Some age, Some added => bool_decide (now - added < age)
             | _, _ => false
             end
          then true
          else if match truthyZ (f_maxRetries filters), retryCount m with
                  | Some cap, Some count => bool_decide (cap ≤ count)
                  | _, _ => false
                  end
          then true
          else if match truthyS (f_queueName filters), context d with
                  | Some name, Some c => bool_decide (originalQueue c ≠ Some name)
                  | _, _ => false
                  end
          then true
          else false
      end
  end.

(** The counts [retryBatch] returns. *)
Record Results := mkResults {
  total : nat;
  succeeded : nat;
  failed : nat;
  skipped : nat
}.

Definition skip (r : Results) : Results :=
  {| total := total r; succeeded := succeeded r; failed := failed r;
     skipped := S (skipped r) |}.

Definition succeed (r : Results) : Results :=
  {| total := total r; succeeded := S (succeeded r); failed := failed r;
     skipped := skipped r |}.

Definition fail (r : Results) : Results :=
  {| total := total r; succeeded := succeeded r; failed := S (failed r);
     skipped := skipped r |}.

(** One turn of the loop of [retryBatch], lines 160-185. *)
Definition retryStep (now : Z) (filters : Filters)
    (acc : Results * DeadLetterQueue) (job : Job) : Results * DeadLetterQueue :=
  let '(results, q) := acc in
  match j_data job ≫= originalMessage with
  | None => (skip results, q)
  | Some original =>
      if decide (m_id original = EmptyString) then (skip results, q)
      else if _shouldSkipRetry now (j_data job) filters then (skip results, q)
      else
        match retryMessage now (m_id original) noOptions q with
        | (Returned true, q') => (succeed results, q')
        | (Returned false, q') => (skip results, q')
        | (Thrown _, q') => (fail results, q')
        end
  end.

(** [retryBatch], lines 149-191, on the jobs [getJobs(['waiting',
    'failed'])] answered, all within the time [now]. *)
Definition retryBatch (now : Z) (jobs : list Job) (filters : Filters)
    (q : DeadLetterQueue) : Results * DeadLetterQueue :=
  foldl (retryStep now filters)
        ({| total := length jobs; succeeded := 0; failed := 0; skipped := 0 |}, q)
        jobs.

(** No stored record has been retried more often than the cap allows. *)
Definition withinCap (q : DeadLetterQueue) : Prop :=
  ∀ jobId d, dlqJobs q !! jobId = Some d → effectiveRetryCount d ≤ maxRetries q.

(** The test of line 243: the job is older than [ttl]. *)
Definition expired (now : Z) (q : DeadLetterQueue) (job : Job) : Prop :=
  ttl q < now - j_timestamp job.

#[global] Instance expired_dec now q job : Decision (expired now q job).
Proof. unfold expired. apply _. Defined.

(** [_cleanupExpiredMessages], lines 235-255, on the jobs [getJobs]
    answered, the store removing each job it is asked to: the number of
    jobs removed and the queue without them. *)
Definition cleanupStep (now : Z) (acc : nat * DeadLetterQueue) (job : Job)
    : nat * DeadLetterQueue :=
  let '(cleaned, q) := acc in
  if decide (expired now q job)
  then (S cleaned, withStore q (delete (j_id job) (dlqJobs q)) (enqueued q))
  else (cleaned, q).

Definition _cleanupExpiredMessages (now : Z) (jobs : list Job) (q : DeadLetterQueue)
    : nat * DeadLetterQueue :=
  foldl (cleanupStep now) (0%nat, q) jobs.

End DLQBatch.

(** ** Request accounting of the monitoring service
       (MonitoringService.js, over the metric registry) *)
Module Monitoring.
Import JsMap Metrics.

(** [metric.value += 1], line 500, written to the metric directly.  On a
    histogram the sum is a string, which the model has no value for. *)
Definition bumpValue (d : MetricData) : option MetricData :=
  match d with
  | CounterData v lv => Some (CounterData (v + 1) lv)
  | GaugeData v lv => Some (GaugeData (v + 1) lv)
  | HistogramData _ _ => None
  end.

(** [x || 0] on what [getMetric] returned, as a number. *)
Definition numberOr0 (v : MetricValue) : option Z :=
  match v with
  | VNum z => Some z
  | VNull => Some 0
  | VHist _ => None
  end.

(** The warning of [getMetric] for an unknown name, line 262. *)
Definition getMetricWarning (nm : string) (mc : MetricsCollector) : MetricsCollector :=
  match mapGet nm (metrics mc) with
  | Some _ => mc
  | None => warn ("Attempted to get unknown metric: " +:+ nm) mc
  end.

(** The middleware of [requestMonitoringMiddleware] when a request
    arrives, lines 491-510; [None] where a value it computes with is not
    a number. *)
Definition onRequest (now : Z) (mc : MetricsCollector) : option MetricsCollector :=
  mc1 ← match mapGet "app_requests_total" (metrics mc) with
        | Some metric =>
            d ← bumpValue (data metric);
            Some (withMetrics mc (mapSet "app_requests_total" (withData metric d)
                                         (metrics mc)))
        | None =>
            Some (incrementCounter "app_requests_total" 1 ∅
                    (registerMetric now "app_requests_total" COUNTER
                       "Total number of requests" [] mc))
        end;
  active ← numberOr0 (getMetric "app_requests_active" ∅ mc1);
  Some (setMetric "app_requests_active" (active + 1) ∅
          (getMetricWarning "app_requests_active" mc1)).

(** The labels of the duration histogram, lines 522-526; the status code
    is a number, which the label key prints in decimal. *)
Definition durationLabels (method route : string) (statusCode : Z)
    : gmap string string :=
  <["method" := method]> (<["route" := route]>
    (<["status_code" := pretty statusCode]> ∅)).

(** [onFinish], lines 513-536, which runs once for a request (it removes
    itself from both events it listens to). *)
Definition onFinish (method route : string) (statusCode duration : Z)
    (mc : MetricsCollector) : option MetricsCollector :=
  active ← numberOr0 (getMetric "app_requests_active" ∅ mc);
  let mc1 := setMetric "app_requests_active" (Z.max 0 (active - 1)) ∅
               (getMetricWarning "app_requests_active" mc) in
  let mc2 := observeHistogram "app_request_duration" duration
               (durationLabels method route statusCode) mc1 in
  Some (if decide (400 ≤ statusCode)
        then incrementCounter "app_requests_errors" 1 ∅ mc2
        else mc2).

(** What happens to the requests the middleware sees. *)
Inductive RequestEvent :=
| Arrives (now : Z)
| Finishes (method route : string) (statusCode duration : Z).

Definition handle (mc : MetricsCollector) (ev : RequestEvent) : option MetricsCollector :=
  match ev with
  | Arrives now => onRequest now mc
  | Finishes method route statusCode duration =>
      onFinish method route statusCode duration mc
  end.

Fixpoint serve (evs : list RequestEvent) (mc : MetricsCollector)
    : option MetricsCollector :=
  match evs with
  | [] => Some mc
  | ev :: rest => handle mc ev ≫= serve rest
  end.

Definition arrivals (evs : list RequestEvent) : Z :=
  Z.of_nat (length (List.filter (λ ev, match ev with Arrives _ => true | _ => false end) evs)).

Definition finishes (evs : list RequestEvent) : Z :=
  Z.of_nat (length (List.filter (λ ev, match ev with Finishes _ _ _ _ => true | _ => false end) evs)).

Definition errorResponses (evs : list RequestEvent) : Z :=
  Z.of_nat (length (List.filter
    (λ ev, match ev with
           | Finishes _ _ statusCode _ => bool_decide (400 ≤ statusCode)
           | _ => false
           end) evs)).

(** The gauge of active requests after the events, from [active]. *)
Definition activeAfter (active : Z) (evs : list RequestEvent) : Z :=
  foldl (λ a ev, match ev with
                 | Arrives _ => a + 1
                 | Finishes _ _ _ _ => Z.max 0 (a - 1)
                 end) active evs.

(** No response finishes before its request has arrived: with [open]
    requests under way, every prefix of the events has at least as many
    arrivals as finishes. *)
Fixpoint balanced (open : nat) (evs : list RequestEvent) : bool :=
  match evs with
  | [] => true
  | Arrives _ :: rest => balanced (S open) rest
  | Finishes _ _ _ _ :: rest =>
      match open with
      | O => false
      | S n => balanced n rest
      end
  end.

(** The three request metrics are registered the way [initialize]
    registers them, and read [total], [active] and [errors]. *)
Definition instrumented (mc : MetricsCollector) (total active errors : Z) : Prop :=
  (∃ m lv, mapGet "app_requests_total" (metrics mc) = Some m ∧
           labelNames m = [] ∧ data m = CounterData total lv) ∧
  (∃ m lv, mapGet "app_requests_active" (metrics mc) = Some m ∧
           labelNames m = [] ∧ data m = GaugeData active lv) ∧
  (∃ m lv, mapGet "app_requests_errors" (metrics mc) = Some m ∧
           labelNames m = [] ∧ data m = CounterData errors lv).

End Monitoring.

(** ** Insertion-ordered [Map]: properties *)
Module JsMapFacts.
Import JsMap.

Section MapLemmas.
Context {V : Type}.
Implicit Types (m : list (string * V)) (k : string) (v : V).

Lemma mapGet_mapSet_eq k v m : mapGet k (mapSet k v m) = Some v.
Proof.
  induction m as [|[k' v'] m IH]; simpl; repeat case_decide; simpl;
    repeat case_decide; try done.
Qed.

Lemma mapGet_mapSet_ne k k' v m : k ≠ k' → mapGet k' (mapSet k v m) = mapGet k' m.
Proof.
  intros Hne. induction m as [|[k'' v''] m IH]; simpl; repeat case_decide; simpl;
    repeat case_decide; try done; congruence.
Qed.

Lemma mapSet_absent k v m : mapGet k m = None → mapSet k v m = m ++ [(k, v)].
Proof.
  induction m as [|[k' v'] m IH]; simpl; [done|].
  case_decide; [done|]. intros Hm. by rewrite IH.
Qed.

Lemma mapGet_app_absent k v m : mapGet k m = None → mapGet k (m ++ [(k, v)]) = Some v.
Proof.
  induction m as [|[k' v'] m IH]; simpl; [by case_decide|].
  case_decide; [done|]. apply IH.
Qed.

Lemma mapSet_app_absent k v v' m :
  mapGet k m = None → mapSet k v' (m ++ [(k, v)]) = m ++ [(k, v')].
Proof.
  induction m as [|[k' v''] m IH]; simpl; [by case_decide|].
  case_decide; [done|]. intros Hm. by rewrite IH.
Qed.

Lemma mapGet_Some_In k v m : mapGet k m = Some v → In (k, v) m.
Proof.
  induction m as [|[k' v'] m IH]; simpl; [done|].
  case_decide as Hk; [intros [= ->]; subst; by left | intros H; right; auto].
Qed.


End MapLemmas.

Lemma mapSet_same {V} (k : string) (v : V) m :
  mapGet k m = Some v → mapSet k v m = m.
Proof.
  induction m as [|[k' v'] m IH]; simpl; [done|].
  case_decide; [intros [= ->]; by subst | intros Hm; by rewrite IH].
Qed.


End JsMapFacts.

(** ** Health registry: properties *)
Module HealthFacts.
Import Health.

Lemma flagStep_true_l b c : fst (flagStep (true, b) c) = true.
Proof. unfold flagStep. repeat case_decide; by destruct (critical c). Qed.

Lemma flags_spec comps :
  (fst (flags comps) = true ↔ anyUnhealthy true comps) ∧
  (snd (flags comps) = true ↔ anyUnhealthy false comps).
Proof.
  unfold flags.
  apply (map_fold_weak_ind (λ r m,
    (fst r = true ↔ anyUnhealthy true m) ∧
    (snd r = true ↔ anyUnhealthy false m))).
  - split; (split; [done | intros (n & c & H & _); by rewrite lookup_empty in H]).
  - intros i x m [b1 b2] Hi [IH1 IH2]. simpl in *.
    assert (Hany : ∀ crit, anyUnhealthy crit (<[i:=x]> m) ↔
              (status x = UNHEALTHY ∧ critical x = crit) ∨ anyUnhealthy crit m).
    { intros crit. split.
      - intros (n & c & Hn & Hs & Hc).
        destruct (decide (i = n)) as [->|Hne].
        + rewrite lookup_insert_eq in Hn. injection Hn as ->. by left.
        + rewrite lookup_insert_ne in Hn by done. right. by exists n, c.
      - intros [[Hs Hc] | (n & c & Hn & Hs & Hc)].
        + exists i, x. by rewrite lookup_insert_eq.
        + exists n, c. rewrite lookup_insert_ne; [done | congruence]. }
    rewrite !Hany. unfold flagStep.
    destruct (decide (status x = UNHEALTHY)) as [Hu|Hu];
      destruct (critical x) eqn:Hc; simpl; rewrite <- ?IH1, <- ?IH2;
      split; split; intuition congruence.
Qed.

(** The pass of [_updateOverallStatus] computes the truth table, whatever
    the labelling of the components. *)
Lemma _updateOverallStatus_truthTable hc :
  truthTable (components hc) (overall (_updateOverallStatus hc)).
Proof.
  unfold _updateOverallStatus, truthTable.
  destruct (flags_spec (components hc)) as [H1 H2].
  destruct (flags (components hc)) as [[] []]; simpl in *.
  - left. split; [by apply H1 | done].
  - left. split; [by apply H1 | done].
  - right; left. split; [|split; [by apply H2 | done]].
    intros H. apply H1 in H. done.
  - right; right. split; [|split; [|done]]; intros H.
    + by apply H1 in H.
    + by apply H2 in H.
Qed.

Lemma _updateOverallStatus_components hc :
  components (_updateOverallStatus hc) = components hc.
Proof.
  unfold _updateOverallStatus. by destruct (flags (components hc)).
Qed.

(** After [runAll] the component of every registered check is the one its
    own [runCheck] leaves, and the others are untouched. *)
Lemma runAll_lookup now run chks comps name :
  runAll now run chks comps !! name =
    match chks !! name with
    | Some _ => runComponent now name (run name) <$> comps !! name
    | None => comps !! name
    end.
Proof.
  unfold runAll. revert name.
  apply (map_fold_weak_ind (λ r m, ∀ name,
    r !! name = match m !! name with
                | Some _ => runComponent now name (run name) <$> comps !! name
                | None => comps !! name
                end)).
  - intros name. by rewrite lookup_empty.
  - intros i x m r Hi IH name. unfold runCheck.
    pose proof (IH i) as IHi. rewrite Hi in IHi.
    destruct (decide (i = name)) as [->|Hne].
    + rewrite lookup_insert_eq. rewrite IHi.
      destruct (comps !! name) as [c|] eqn:Hc; simpl.
      * by rewrite lookup_insert_eq.
      * done.
    + rewrite (lookup_insert_ne m) by done.
      destruct (r !! i); [rewrite lookup_insert_ne by done|]; apply IH.
Qed.

Lemma registerCheck_overall name t c u hc :
  overall (registerCheck name t c u hc) = overall hc.
Proof. done. Qed.

Lemma registered_overall rs : overall (registered rs) = UNKNOWN.
Proof.
  induction rs as [|[[[n t] c] u] rs IH]; [done|].
  simpl. exact IH.
Qed.

(** C1, as the code has it.  After [checkAll()] completes the overall
    status follows the truth table over the component statuses (unhealthy
    if a critical component is unhealthy; else degraded if a non-critical
    one is; else healthy) for every registry and every labelling,
    components in the unknown or degraded state counting as not
    unhealthy; every registered check has been run, its component being
    healthy or unhealthy by its outcome; the status is never unknown at
    that point.  Unknown is the status of a registry on which [checkAll]
    has not completed yet. *)
Theorem checkAll_overall_status :
  (∀ rs, overall (registered rs) = UNKNOWN) ∧
  (∀ now run hc,
     let hc' := checkAll now run hc in
     truthTable (components hc') (overall hc') ∧
     overall hc' ≠ UNKNOWN ∧
     (∀ name chk c,
        checks hc !! name = Some chk → components hc !! name = Some c →
        components hc' !! name = Some (runComponent now name (run name) c) ∧
        status (runComponent now name (run name) c) =
          match run name with Resolves _ => HEALTHY | _ => UNHEALTHY end)).
Proof.
  split; [apply registered_overall|].
  intros now run hc hc'. subst hc'. unfold checkAll.
  set (hc1 := {| checks := checks hc; overall := overall hc;
                 overallLastCheck := Some now;
                 components := runAll now run (checks hc) (components hc) |}).
  pose proof (_updateOverallStatus_truthTable hc1) as Htt.
  rewrite <- (_updateOverallStatus_components hc1) in Htt at 1.
  split; [exact Htt|]. split.
  - destruct Htt as [[_ ->] | [(_ & _ & ->) | (_ & _ & ->)]]; done.
  - intros name chk c Hchk Hc.
    rewrite _updateOverallStatus_components. simpl.
    rewrite runAll_lookup, Hchk, Hc. split; [done|].
    by destruct (run name).
Qed.

(** S2 of the specification, run on the model. *)
Example degraded_vs_unhealthy :
  let run := λ n : string, if decide (n = "C") then Resolves None else Rejects "down" in
  let hc1 := checkAll 1 run
               (registerCheck "N" None (Some false) false
                  (registerCheck "C" None None false new)) in
  let hc2 := checkAll 2 run (registerCheck "K" None None false hc1) in
  overall hc1 = DEGRADED ∧ isAvailable hc1 = true ∧ isHealthy hc1 = false ∧
  overall hc2 = UNHEALTHY ∧ isAvailable hc2 = false.
Proof. vm_compute. done. Qed.

(** C1 as stated fails: on a registry where no check has run the rule of
    the data model gives unknown, and [checkAll] leaves healthy.  Here the
    registry is the one a constructor with default options leaves: its
    [startChecking] has run [checkAll] on no check at all. *)
Lemma checkAll_no_check_run_not_unknown :
  let hc := construct None 0 (λ _, TimesOut) in
  overall hc = HEALTHY ∧ ¬ specStatus (components hc) (overall hc).
Proof.
  split; [by vm_compute|].
  unfold specStatus. case_decide as H.
  - by vm_compute.
  - exfalso. apply H. intros i c Hic. by vm_compute in Hic.
Qed.

End HealthFacts.

(** ** Metric registry: properties *)
Module MetricsFacts.
Import JsMap JsMapFacts Metrics.






Lemma withData_data metric : withData metric (data metric) = metric.
Proof. by destruct metric. Qed.

(** [setMetric] rewrites the entry of the metric it finds, and no other. *)
Lemma setMetric_metrics nm value labels mc :
  metrics (setMetric nm value labels mc) =
    match mapGet nm (metrics mc) with
    | Some metric =>
        mapSet nm (withData metric
                     (updateData (labelNames metric) value labels (data metric)))
               (metrics mc)
    | None => metrics mc
    end.
Proof.
  unfold setMetric, updateData.
  destruct (mapGet nm (metrics mc)) as [metric|] eqn:Hm; [|done].
  destruct (labelNames metric) as [|l ls] eqn:Hl, (data metric) as [v lv|v lv|v lv] eqn:Hd;
    simpl; repeat case_decide; simpl;
    rewrite <- ?Hd, ?withData_data, ?mapSet_same by done;
    try done;
    by destruct (filter _ _).
Qed.

Lemma setMetric_lookup nm nm' value labels mc :
  mapGet nm' (metrics (setMetric nm value labels mc)) =
    if decide (nm = nm')
    then (λ metric, withData metric
            (updateData (labelNames metric) value labels (data metric)))
         <$> mapGet nm (metrics mc)
    else mapGet nm' (metrics mc).
Proof.
  rewrite setMetric_metrics.
  destruct (mapGet nm (metrics mc)) as [metric|] eqn:Hm; case_decide; subst; simpl.
  - by rewrite mapGet_mapSet_eq.
  - by rewrite mapGet_mapSet_ne.
  - done.
  - done.
Qed.

Lemma incrementCounter_metrics nm value labels mc :
  metrics (incrementCounter nm value labels mc) = metrics mc ∨
  incrementCounter nm value labels mc = setMetric nm value labels mc.
Proof.
  unfold incrementCounter. destruct (mapGet nm (metrics mc)) as [metric|]; [|by left].
  destruct (type metric); auto.
Qed.

Lemma observeHistogram_metrics nm value labels mc :
  metrics (observeHistogram nm value labels mc) = metrics mc ∨
  observeHistogram nm value labels mc = setMetric nm value labels mc.
Proof.
  unfold observeHistogram. destruct (mapGet nm (metrics mc)) as [metric|]; [|by left].
  destruct (type metric); auto.
Qed.

Lemma registerMetric_metrics now nm ty hlp lbls mc :
  metrics (registerMetric now nm ty hlp lbls mc) = metrics mc ∨
  (mapGet nm (metrics mc) = None ∧
   ∃ metric, metrics (registerMetric now nm ty hlp lbls mc) = metrics mc ++ [(nm, metric)] ∧
     counterOK metric ∧ name metric = prefix mc +:+ nm ∧ labelNames metric = lbls ∧
     type metric = ty ∧ help metric = hlp ∧
     data metric = match ty with
                   | COUNTER => CounterData 0 []
                   | GAUGE => GaugeData 0 []
                   | HISTOGRAM => HistogramData emptyHist []
                   end).
Proof.
  unfold registerMetric. destruct (mapGet nm (metrics mc)) eqn:Hm; [by left|].
  right. split; [done|]. eexists. simpl. rewrite mapSet_absent by done.
  split; [done|]. unfold counterOK, type. by destruct ty.
Qed.

(** C7.  Scenario S1 on any registry that does not know [http_requests]
    yet: after the registration with label names [method, status], two
    [set]s of 1 under GET/200 and one under POST/201, the snapshot is the
    old one followed by one entry for the metric, which holds exactly two
    label tuples, GET/200 at 2 and POST/201 at 1, and [getMetric] reads 2
    under GET/200.  In general [set] on a labelled counter with a
    non-negative value stores the tuple's current value (0 when there is
    none) plus the value. *)
Theorem labelled_counter_accumulates :
  (∀ now hlp mc,
     mapGet "http_requests" (metrics mc) = None →
     let mc' := setMetric "http_requests" 1 post201
                  (setMetric "http_requests" 1 get200
                     (setMetric "http_requests" 1 get200
                        (registerMetric now "http_requests" COUNTER hlp
                           ["method"; "status"] mc))) in
     getMetrics mc' =
       getMetrics mc ++
       [ {| s_name := prefix mc +:+ "http_requests";
            s_type := COUNTER; s_help := hlp;
            s_labelNames := ["method"; "status"];
            s_values :=
              Values [ ([("method", Some "GET"); ("status", Some "200")], VNum 2);
                       ([("method", Some "POST"); ("status", Some "201")], VNum 1) ] |} ]
     ∧ getMetric "http_requests" get200 mc' = VNum 2)
  ∧ (∀ mc nm value labels metric v lv,
       mapGet nm (metrics mc) = Some metric →
       data metric = CounterData v lv → labelNames metric ≠ [] → 0 ≤ value →
       let key := _getLabelKey labels (labelNames metric) in
       ∃ metric',
         mapGet nm (metrics (setMetric nm value labels mc)) = Some metric' ∧
         labelNames metric' = labelNames metric ∧
         data metric' =
           CounterData v (mapSet key (default 0 (mapGet key lv) + value) lv)).
Proof.
  split.
  - intros now hlp mc Hnew mc'. subst mc'.
    destruct (registerMetric_metrics now "http_requests" COUNTER hlp
                ["method"; "status"] mc) as [Heq | (_ & m0 & Hms & _ & Hn & Hl & _ & Hh & Hd)].
    { exfalso. unfold registerMetric in Heq. rewrite Hnew in Heq. simpl in Heq.
      rewrite mapSet_absent in Heq by done.
      apply (f_equal length) in Heq. rewrite length_app in Heq. simpl in Heq. lia. }
    set (mc0 := registerMetric _ _ _ _ _ mc) in *.
    assert (H1 : metrics (setMetric "http_requests" 1 get200 mc0) =
                 metrics mc ++ [("http_requests",
                   withData m0 (CounterData 0 [("method:GET,status:200", 1)]))]).
    { rewrite setMetric_metrics, Hms, mapGet_app_absent by done.
      rewrite mapSet_app_absent by done. by rewrite Hl, Hd. }
    set (mc1 := setMetric _ 1 get200 mc0) in *.
    assert (H2 : metrics (setMetric "http_requests" 1 get200 mc1) =
                 metrics mc ++ [("http_requests",
                   withData m0 (CounterData 0 [("method:GET,status:200", 2)]))]).
    { rewrite setMetric_metrics, H1, mapGet_app_absent by done.
      rewrite mapSet_app_absent by done. simpl. by rewrite Hl. }
    set (mc2 := setMetric _ 1 get200 mc1) in *.
    assert (H3 : metrics (setMetric "http_requests" 1 post201 mc2) =
                 metrics mc ++ [("http_requests",
                   withData m0 (CounterData 0 [("method:GET,status:200", 2);
                                               ("method:POST,status:201", 1)]))]).
    { rewrite setMetric_metrics, H2, mapGet_app_absent by done.
      rewrite mapSet_app_absent by done. simpl. by rewrite Hl. }
    split.
    + unfold getMetrics. rewrite H3, map_app. f_equal. simpl.
      unfold snapshot, type. simpl. rewrite Hl, Hn, Hh. done.
    + unfold getMetric. rewrite H3, mapGet_app_absent by done. simpl.
      by rewrite Hl.
  - intros mc nm value labels metric v lv Hm Hd Hl Hv key.
    rewrite setMetric_lookup, decide_True, Hm by done. simpl.
    eexists. split; [done|]. split; [done|]. simpl. unfold updateData.
    destruct (labelNames metric) as [|l ls]; [done|]. rewrite Hd.
    by rewrite decide_False by lia.
Qed.

(** The scenario on the registry of a test instance (prefix [test_],
    collection disabled). *)
Lemma labelled_counter_accumulates_witness :
  let mc' := setMetric "http_requests" 1 post201
               (setMetric "http_requests" 1 get200
                  (setMetric "http_requests" 1 get200
                     (registerMetric 0 "http_requests" COUNTER "HTTP requests"
                        ["method"; "status"] (new 0 (Some "test_") false)))) in
  getMetrics mc' =
    getMetrics (new 0 (Some "test_") false) ++
    [ {| s_name := prefix (new 0 (Some "test_") false) +:+ "http_requests";
         s_type := COUNTER; s_help := "HTTP requests";
         s_labelNames := ["method"; "status"];
         s_values :=
           Values [ ([("method", Some "GET"); ("status", Some "200")], VNum 2);
                    ([("method", Some "POST"); ("status", Some "201")], VNum 1) ] |} ]
  ∧ getMetric "http_requests" get200 mc' = VNum 2.
Proof.
  apply (proj1 labelled_counter_accumulates 0 "HTTP requests"
           (new 0 (Some "test_") false)).
  reflexivity.
Defined.

Lemma type_withData metric d :
  type (withData metric d) =
    match d with
    | CounterData _ _ => COUNTER | GaugeData _ _ => GAUGE
    | HistogramData _ _ => HISTOGRAM
    end.
Proof. done. Qed.




















Example counter_test_values :
  let mc1 := runOps 0 [Register "requests" COUNTER "Total requests" [];
                       Set_ "requests" 5 ∅; Set_ "requests" 3 ∅]
                    (new 0 (Some "test_") false) in
  getMetric "requests" ∅ mc1 = VNum 8 ∧
  getMetric "requests" ∅ (setMetric "requests" (-1) ∅ mc1) = VNum 8.
Proof. by vm_compute. Qed.








Example histogram_export :
  exportLines (observeAll "h" ∅ [7; 3; 20000]
                 (registerMetric 0 "h" HISTOGRAM "hh" [] (new 0 None false))) =
  [ "# HELP app_h hh"; "# TYPE app_h histogram"; "app_h_sum 20010";
    "app_h_count 3" ] ++
  map (λ bn : Z * Z, "app_h_bucket{le=" +:+ dq +:+ pretty bn.1 +:+ dq +:+ "} "
                     +:+ pretty bn.2)
      [(5, 1); (10, 2); (25, 2); (50, 2); (100, 2); (250, 2); (500, 2);
       (1000, 2); (2500, 2); (5000, 2); (10000, 2)] ++
  [ "app_h_bucket{le=" +:+ dq +:+ "+Inf" +:+ dq +:+ "} 3" ].
Proof. by vm_compute. Qed.

End MetricsFacts.

(** ** Alert engine: properties *)
Module AlertsFacts.
Import JsMap JsMapFacts Alerts.

Lemma _labelMatch_true alertLabels matchLabels :
  (∀ l, l ∈ matchLabels → l ∈ alertLabels) → _labelMatch alertLabels matchLabels = true.
Proof.
  intros H. unfold _labelMatch. destruct matchLabels as [|x r]; [done|].
  apply forallb_forall. intros l Hl. apply bool_decide_eq_true.
  by apply H, list_elem_of_In.
Qed.

(** The loop answers [true] as soon as one of the silences it is given
    matches and is unexpired. *)
Lemma isSilencedLoop_true now nm lbls todo m s :
  In s todo → matches s nm lbls → unexpired now s →
  (isSilencedLoop now nm lbls todo m).1 = true.
Proof.
  intros Hin [Hname Hlabels] Hexp. revert m.
  induction todo as [|x todo IH]; intros m; [done|]. simpl.
  destruct Hin as [->|Hin].
  - assert (bool_decide (s_name s ≠ nm) && bool_decide (s_name s ≠ "*") = false) as ->.
    { destruct Hname as [Hn|Hn].
      - rewrite (bool_decide_eq_false_2 (s_name s ≠ nm)) by (intros ?; done). done.
      - rewrite (bool_decide_eq_false_2 (s_name s ≠ "*")) by (intros ?; done).
        apply andb_false_r. }
    rewrite (_labelMatch_true lbls (s_labels s) Hlabels). simpl.
    rewrite andb_false_r.
    assert (bool_decide (0 < expireAt s) && bool_decide (expireAt s < now) = false) as ->.
    { apply andb_false_iff.
      destruct (decide (0 < expireAt s)); [right|left]; apply bool_decide_eq_false;
        [|done]. intros ?. by apply Hexp. }
    done.
  - destruct (_ && _); [by apply IH|].
    destruct (_ && _); [by apply IH|].
    destruct (_ && _); [by apply IH|done].
Qed.

(** The loop only ever touches the silences. *)
Lemma _isSilenced_frame now nm lbls am :
  alerts (_isSilenced now nm lbls am).2 = alerts am ∧
  alertHistory (_isSilenced now nm lbls am).2 = alertHistory am ∧
  notifiers (_isSilenced now nm lbls am).2 = notifiers am ∧
  notified (_isSilenced now nm lbls am).2 = notified am.
Proof. unfold _isSilenced. by destruct (isSilencedLoop _ _ _ _ _). Qed.

(** C4.  While the silence map holds an unexpired silence whose name is the
    alert's name or the wildcard and whose labels are all among the
    alert's labels, [alert(name, message, severity, labels, data)] returns
    [null], calls no notifier, and leaves the active-alert map (so also
    its entry under [name]) and the history as they were. *)
Theorem silenced_alert_not_raised :
  ∀ now am nm msg sev lbls dat k s,
    In (k, s) (silencedAlerts am) → matches s nm lbls → unexpired now s →
    (alert now nm msg sev lbls dat am).1 = None ∧
    notified (alert now nm msg sev lbls dat am).2 = notified am ∧
    alerts (alert now nm msg sev lbls dat am).2 = alerts am ∧
    mapGet nm (alerts (alert now nm msg sev lbls dat am).2) = mapGet nm (alerts am) ∧
    alertHistory (alert now nm msg sev lbls dat am).2 = alertHistory am.
Proof.
  intros now am nm msg sev lbls dat k s Hin Hm Hexp.
  assert (Hs : In s (mapValues (silencedAlerts am))).
  { unfold mapValues. apply in_map_iff. by exists (k, s). }
  pose proof (isSilencedLoop_true now nm lbls _ (silencedAlerts am) s Hs Hm Hexp) as Ht.
  pose proof (_isSilenced_frame now nm lbls am) as (Ha & Hh & _ & Hn).
  unfold alert. unfold _isSilenced in *.
  destruct (isSilencedLoop now nm lbls _ _) as [b m]. simpl in *. subst b.
  simpl. done.
Qed.

(** S3 of the specification: [disk_full] silenced without labels for
    3600 s, then raised with label [node1]. *)
Lemma silenced_alert_not_raised_witness :
  let am := (silence 1000 "disk_full" 3600000 [] "ops" None (new None None)).2 in
  let r := alert 2000 "disk_full" "full" ERROR ["node1"] None am in
  r.1 = None ∧ notified r.2 = notified am ∧ alerts r.2 = alerts am ∧
  mapGet "disk_full" (alerts r.2) = mapGet "disk_full" (alerts am) ∧
  alertHistory r.2 = alertHistory am.
Proof.
  apply (silenced_alert_not_raised 2000
           (silence 1000 "disk_full" 3600000 [] "ops" None (new None None)).2
           "disk_full" "full" ERROR ["node1"] None "disk_full_1000"
           (mkSilence "disk_full_1000" "disk_full" [] 1000 3601000 "ops" None)).
  - vm_compute. by left.
  - split; [by left|]. intros l Hl. by apply elem_of_nil in Hl.
  - unfold unexpired. simpl. lia.
Defined.

(** Without the silence the same call raises the alert and reaches the
    logger notifier. *)
Example unsilenced_alert_raised :
  let r := alert 2000 "disk_full" "full" ERROR ["node1"] None (new None None) in
  is_Some r.1 ∧ map fst (notified r.2) = ["logger"] ∧
  is_Some (mapGet "disk_full" (alerts r.2)) ∧ length (alertHistory r.2) = 1%nat.
Proof. vm_compute. repeat split; eauto. Qed.

(** Once the silence has expired the alert is raised again, and the
    expired silence is pruned on the way. *)
Example expired_silence_pruned :
  let am := (silence 1000 "disk_full" 3600000 [] "ops" None (new None None)).2 in
  let r := alert 3700000 "disk_full" "full" ERROR ["node1"] None am in
  is_Some r.1 ∧ silencedAlerts r.2 = [] ∧ map fst (notified r.2) = ["logger"].
Proof. vm_compute. repeat split; eauto. Qed.

End AlertsFacts.

(** ** Message processor: properties *)
Module MsgProcFacts.
Import MsgProc.

Lemma record_record evs1 evs2 mp :
  record evs2 (record evs1 mp) = record (evs1 ++ evs2) mp.
Proof. unfold record. simpl. by rewrite app_assoc. Qed.

Lemma withProcessing_id mp : withProcessing mp (processingMessages mp) = mp.
Proof. by destruct mp. Qed.

(** One failed attempt, unfolded: what [processFuel] does when the message
    is well-formed, not in flight, has a handler, and the handler fails. *)
Lemma processFuel_failed fuel now mp message i t handler error :
  truthy (id message) = Some i → truthy (type message) = Some t →
  processingMessages mp !! i = None → handlers mp !! t = Some handler →
  failure i (handler (invocations t (trace mp)) (data message)) = Some error →
  let a := S (default 0%nat (attempts message)) in
  let delay := calculateRetryDelay mp a in
  processFuel (S fuel) now message mp =
    if bool_decide (Z.of_nat a < maxRetries mp)
    then processFuel fuel (now + delay) (withAttempts message a)
           (record [Invoked t (data message); Retry i error a delay; Slept delay] mp)
    else Some (Thrown error,
               record [Invoked t (data message); Failed i error a] mp).
Proof.
  intros Hi Ht Hfree Hh Hf a delay. subst a delay. simpl.
  rewrite Hi, Ht, Hh. rewrite decide_False by (rewrite Hfree; by intros [? ?]).
  rewrite lookup_insert_eq. simpl. rewrite delete_insert_id by done.
  rewrite Nat.add_1_r.
  assert (Hst : ∀ evs, record evs
            (withProcessing (record [Invoked t (data message)]
               (withProcessing mp
                  (<[i:=mkInfo now (S (default 0%nat (attempts message)))]>
                     (processingMessages mp))))
               (processingMessages mp))
          = record (Invoked t (data message) :: evs) mp).
  { intros evs. unfold record, withProcessing. simpl. by rewrite <- app_assoc. }
  destruct (handler _ _) as [res|msg|] eqn:Ho; simpl in Hf; [done| |];
    injection Hf as <-; case_bool_decide; by rewrite Hst.
Qed.

Lemma fuelFor_retry mp message (a : nat) evs :
  a = S (default 0%nat (attempts message)) → Z.of_nat a < maxRetries mp →
  fuelFor mp message = S (fuelFor (record evs mp) (withAttempts message a)).
Proof.
  intros -> Hlt. unfold fuelFor. simpl. f_equal.
  rewrite <- Z2Nat.inj_succ by lia. f_equal. lia.
Qed.

(** With the fuel of [fuelFor] (or more) [processFuel] always returns. *)
Lemma processFuel_total fuel now message mp :
  (Z.to_nat (maxRetries mp - Z.of_nat (default 0%nat (attempts message))) < fuel)%nat →
  is_Some (processFuel fuel now message mp).
Proof.
  revert now message mp. induction fuel as [|fuel IH]; intros now message mp Hf; [lia|].
  destruct (truthy (id message)) as [i|] eqn:Hi;
    [|simpl; rewrite Hi; by eexists].
  destruct (truthy (type message)) as [t|] eqn:Ht;
    [|simpl; rewrite Hi, Ht; by eexists].
  destruct (processingMessages mp !! i) as [info|] eqn:Hp.
  { simpl. rewrite Hi, Ht, decide_True by (rewrite Hp; by eexists). by eexists. }
  destruct (handlers mp !! t) as [handler|] eqn:Hh.
  2:{ simpl. rewrite Hi, Ht, Hh, decide_False by (rewrite Hp; by intros [? ?]).
      by eexists. }
  destruct (failure i (handler (invocations t (trace mp)) (data message)))
    as [error|] eqn:Hfail.
  - rewrite (processFuel_failed _ _ _ _ _ _ _ _ Hi Ht Hp Hh Hfail).
    case_bool_decide; [|by eexists]. apply IH. simpl. lia.
  - simpl. rewrite Hi, Ht, Hh, decide_False by (rewrite Hp; by intros [? ?]).
    simpl. destruct (handler _ _); done.
Qed.

(** A message whose id is not in flight is never rejected as a duplicate,
    and its id is not in flight when [process] is over. *)
Lemma processFuel_not_duplicate fuel now message mp i r mp' :
  truthy (id message) = Some i → processingMessages mp !! i = None →
  processFuel fuel now message mp = Some (r, mp') →
  r ≠ Thrown (AlreadyProcessing i) ∧ processingMessages mp' !! i = None.
Proof.
  revert now message mp. induction fuel as [|fuel IH]; intros now message mp Hi Hp; [done|].
  destruct (truthy (type message)) as [t|] eqn:Ht.
  2:{ simpl. rewrite Hi, Ht. by intros [= <- <-]. }
  destruct (handlers mp !! t) as [handler|] eqn:Hh.
  2:{ simpl. rewrite Hi, Ht, Hh, decide_False by (rewrite Hp; by intros [? ?]).
      by intros [= <- <-]. }
  destruct (failure i (handler (invocations t (trace mp)) (data message)))
    as [error|] eqn:Hfail.
  - rewrite (processFuel_failed _ _ _ _ _ _ _ _ Hi Ht Hp Hh Hfail).
    case_bool_decide.
    + apply IH; done.
    + intros [= <- <-]. split; [|done].
      destruct (handler _ _); simpl in Hfail; try done; by injection Hfail as <-.
  - simpl. rewrite Hi, Ht, Hh, decide_False by (rewrite Hp; by intros [? ?]).
    simpl. destruct (handler _ _); try done.
    intros [= <- <-]. split; [done|]. simpl. apply lookup_delete_eq.
Qed.

(** C3.  (1) When the handler of a well-formed message that is not in
    flight fails (rejects, throws, or is beaten by the timer), let [a] be
    the attempt count the processor recorded, the message's [attempts]
    plus one.  If [a < maxRetries] the processor emits [retry], sleeps
    [min(retryDelay * 2^(a-1), 30000)] ms and calls [process] again on the
    message with [attempts] set to [a]; else it emits [failed] and throws
    the error.  (2) [process] always returns.  (3) With [maxRetries = 3]
    and [retryDelay = 100], a handler that rejects twice and then resolves
    with ["ok"] makes [process] resolve to ["ok"] after exactly three
    calls of the handler and sleeps of 100 and 200 ms. *)
Theorem bounded_retry_with_backoff :
  (∀ now mp message i t handler error,
     truthy (id message) = Some i → truthy (type message) = Some t →
     processingMessages mp !! i = None → handlers mp !! t = Some handler →
     failure i (handler (invocations t (trace mp)) (data message)) = Some error →
     let a := S (default 0%nat (attempts message)) in
     let delay := Z.min (retryDelay mp * 2 ^ (Z.of_nat a - 1)) 30000 in
     process now message mp =
       if bool_decide (Z.of_nat a < maxRetries mp)
       then process (now + delay) (withAttempts message a)
              (record [Invoked t (data message); Retry i error a delay; Slept delay] mp)
       else Some (Thrown error,
                  record [Invoked t (data message); Failed i error a] mp))
  ∧ (∀ now mp message, is_Some (process now message mp))
  ∧ (let mp := registerHandler "t" flaky (new (Some 3) (Some 100) None) in
     ∃ mp', process 0 (mkMessage (Some "j1") (Some "t") "{}" None) mp
              = Some (Returned "ok", mp') ∧
            invocations "t" (trace mp') = 3%nat ∧
            sleeps (trace mp') = [100; 200] ∧
            processingMessages mp' = ∅).
Proof.
  split; [|split].
  - intros now mp message i t handler error Hi Ht Hp Hh Hf a delay.
    unfold process at 1.
    destruct (decide (Z.of_nat a < maxRetries mp)) as [Hlt|Hge].
    + rewrite (fuelFor_retry mp message a
                 [Invoked t (data message); Retry i error a delay; Slept delay])
        by done.
      rewrite (processFuel_failed _ _ _ _ _ _ _ _ Hi Ht Hp Hh Hf).
      by rewrite !bool_decide_true by done.
    + unfold fuelFor.
      rewrite (processFuel_failed _ _ _ _ _ _ _ _ Hi Ht Hp Hh Hf).
      by rewrite !bool_decide_false by done.
  - intros now mp message. apply processFuel_total. unfold fuelFor. lia.
  - eexists. split; [by vm_compute|]. by vm_compute.
Qed.

(** The first part of [bounded_retry_with_backoff] on the first attempt
    of scenario S6. *)
Lemma bounded_retry_with_backoff_witness :
  let mp := registerHandler "t" flaky (new (Some 3) (Some 100) None) in
  let message := mkMessage (Some "j1") (Some "t") "{}" None in
  process 0 message mp =
    if bool_decide (Z.of_nat 1 < maxRetries mp)
    then process (0 + Z.min (retryDelay mp * 2 ^ (Z.of_nat 1 - 1)) 30000)
           (withAttempts message 1)
           (record [Invoked "t" "{}"; Retry "j1" (HandlerError "boom") 1
                      (Z.min (retryDelay mp * 2 ^ (Z.of_nat 1 - 1)) 30000);
                    Slept (Z.min (retryDelay mp * 2 ^ (Z.of_nat 1 - 1)) 30000)] mp)
    else Some (Thrown (HandlerError "boom"),
               record [Invoked "t" "{}"; Failed "j1" (HandlerError "boom") 1] mp).
Proof.
  apply (proj1 bounded_retry_with_backoff 0
           (registerHandler "t" flaky (new (Some 3) (Some 100) None))
           (mkMessage (Some "j1") (Some "t") "{}" None) "j1" "t" flaky
           (HandlerError "boom")); reflexivity.
Defined.

(** A handler that always fails is called [maxRetries] times, with the
    delays doubling, and the error is rethrown after a [failed] event. *)
Example always_failing :
  let mp := registerHandler "t" (λ _ _, Rejects "boom") (new (Some 3) (Some 100) None) in
  ∃ mp', process 0 (mkMessage (Some "j1") (Some "t") "{}" None) mp
           = Some (Thrown (HandlerError "boom"), mp') ∧
         invocations "t" (trace mp') = 3%nat ∧
         sleeps (trace mp') = [100; 200] ∧
         last (trace mp') = Some (Failed "j1" (HandlerError "boom") 3).
Proof. eexists. split; [by vm_compute|]. by vm_compute. Qed.

(** C10.  A message without a (non-empty) id or type, and a message whose
    type has no registered handler, makes [process] throw at once and
    leaves the processor exactly as it was: no handler call, no [retry] or
    [failed] event and no sleep is added to its trace, and the in-flight
    map is unchanged.  The error is the format error, the missing-handler
    error, or - for a message without handler whose id is in flight
    already - the duplicate error.  So if the id was not in flight, a
    later [process] of a message with this id is not rejected as a
    duplicate. *)
Theorem precondition_failure_atomic :
  ∀ now mp message,
    (truthy (id message) = None ∨ truthy (type message) = None ∨
     ∃ t, truthy (type message) = Some t ∧ handlers mp !! t = None) →
    (∃ error,
       process now message mp = Some (Thrown error, mp) ∧
       (error = InvalidFormat ∨
        (∃ t, error = NoHandler t) ∨
        (∃ i, error = AlreadyProcessing i ∧ truthy (id message) = Some i ∧
              is_Some (processingMessages mp !! i)))) ∧
    (∀ i now' message' r mp',
       truthy (id message) = Some i → processingMessages mp !! i = None →
       truthy (id message') = Some i →
       process now' message' mp = Some (r, mp') →
       r ≠ Thrown (AlreadyProcessing i)).
Proof.
  intros now mp message H. split.
  - unfold process, fuelFor. simpl.
    destruct (truthy (id message)) as [i|] eqn:Hi; [|eauto].
    destruct (truthy (type message)) as [t|] eqn:Ht; [|eauto].
    destruct H as [H|[H|(t' & [= <-] & Hh)]]; [done|done|].
    case_decide.
    + eexists. split; [done|]. right; right. eauto.
    + rewrite Hh. eexists. split; [done|]. right; left. eauto.
  - intros i now' message' r mp' _ Hp Hi' Hr.
    by apply (processFuel_not_duplicate _ _ _ _ _ _ _ Hi' Hp Hr).
Qed.

(** [precondition_failure_atomic] on a message of a type nobody handles. *)
Lemma precondition_failure_atomic_witness :
  let mp := registerHandler "t" flaky (new (Some 3) (Some 100) None) in
  let message := mkMessage (Some "j2") (Some "unknown") "{}" None in
  (∃ error,
     process 0 message mp = Some (Thrown error, mp) ∧
     (error = InvalidFormat ∨
      (∃ t, error = NoHandler t) ∨
      (∃ i, error = AlreadyProcessing i ∧ truthy (id message) = Some i ∧
            is_Some (processingMessages mp !! i)))) ∧
  (∀ i now' message' r mp',
     truthy (id message) = Some i → processingMessages mp !! i = None →
     truthy (id message') = Some i →
     process now' message' mp = Some (r, mp') →
     r ≠ Thrown (AlreadyProcessing i)).
Proof.
  apply (precondition_failure_atomic 0
           (registerHandler "t" flaky (new (Some 3) (Some 100) None))
           (mkMessage (Some "j2") (Some "unknown") "{}" None)).
  right; right. exists "unknown". split; reflexivity.
Defined.

Example missing_id_or_type :
  let mp := registerHandler "t" flaky (new None None None) in
  process 0 (mkMessage None (Some "t") "{}" None) mp = Some (Thrown InvalidFormat, mp) ∧
  process 0 (mkMessage (Some "j1") (Some EmptyString) "{}" None) mp
    = Some (Thrown InvalidFormat, mp) ∧
  process 0 (mkMessage (Some "j1") (Some "u") "{}" None) mp
    = Some (Thrown (NoHandler "u"), mp).
Proof. by vm_compute. Qed.

End MsgProcFacts.

(** ** Dead-letter queue: properties *)
Module DLQFacts.
Import DLQ.


Lemma targetQueueName_nonempty d : targetQueueName d ≠ EmptyString.
Proof.
  unfold targetQueueName. destruct (context d) as [c|]; [|done].
  destruct (originalQueue c) as [n|]; [|done]. by case_decide.
Qed.

Lemma targetQueueName_retried d o e m :
  targetQueueName {| originalMessage := o; error := e;
                     context := Some (retriedContext d); meta := m |}
  = targetQueueName d.
Proof.
  pose proof (targetQueueName_nonempty d) as Hne.
  unfold targetQueueName at 1. simpl. unfold retriedContext.
  destruct (context d) as [c|] eqn:Hc; simpl.
  - by rewrite decide_False.
  - unfold targetQueueName. by rewrite Hc.
Qed.

Lemma retryMessage_below now messageId options q d original :
  dlqJobs q !! dlqJobId messageId = Some d → originalMessage d = Some original →
  effectiveRetryCount d < maxRetries q → storeAccepts q →
  ∃ q' d',
    retryMessage now messageId options q = (Returned true, q') ∧
    enqueued q' =
      enqueued q ++ [ {| e_queue := targetQueueName d; e_data := original;
                         e_options := retryJobOptions options |} ] ∧
    dlqJobs q' = <[dlqJobId messageId := d']> (dlqJobs q) ∧
    originalMessage d' = Some original ∧
    meta d' = Some (retriedMeta now q d) ∧
    effectiveRetryCount d' = effectiveRetryCount d + 1 ∧
    targetQueueName d' = targetQueueName d ∧
    maxRetries q' = maxRetries q ∧ storeAccepts q'.
Proof.
  intros Hd Ho Hlt [Hadd Hupd]. unfold retryMessage. rewrite Hd, Ho.
  rewrite decide_False by lia. rewrite Hadd, Hupd.
  eexists _, _. split; [done|]. simpl.
  repeat split; try done. apply targetQueueName_retried.
Qed.




(** S5 run on the model: three retries go through, the fourth is refused
    and adds no job. *)
Example s5_fourth_retry_refused :
  let '(rs, q3) := retryTimes 3 5 "m1" noOptions s5Queue in
  let '(r4, q4) := retryMessage 6 "m1" noOptions q3 in
  rs = [Returned true; Returned true; Returned true] ∧
  r4 = Returned false ∧
  map e_queue (enqueued q3) = ["orders"; "orders"; "orders"] ∧
  enqueued q4 = enqueued q3 ∧
  (meta <$> dlqJobs q4 !! dlqJobId "m1") ≫= fmap retryCount = Some (Some 3).
Proof. by vm_compute. Qed.

(** When the target queue rejects the job, [retryMessage] rethrows and the
    stored record keeps its count. *)
Example rejected_retry_rethrows :
  let q := {| queueName := queueName s5Queue; retryInterval := retryInterval s5Queue;
              maxRetries := maxRetries s5Queue; ttl := ttl s5Queue;
              dlqJobs := dlqJobs s5Queue; enqueued := [];
              addRejects := λ _, Some "target down"; updateRejects := None |} in
  (retryMessage 5 "m1" noOptions q).1 = Thrown "target down" ∧
  dlqJobs (retryMessage 5 "m1" noOptions q).2 = dlqJobs q ∧
  enqueued (retryMessage 5 "m1" noOptions q).2 = [].
Proof. by vm_compute. Qed.

End DLQFacts.

(** ** Cache lock and stampede-protected cache: properties *)
Module CacheFacts.
Import Cache.

Lemma generateKey_inl rq k : generateKey rq = inl k → k = cacheKeyOf rq.
Proof.
  unfold generateKey, cacheKeyOf. repeat case_decide; try done. by intros [= <-].
Qed.

Lemma getLockKey_ne key : getLockKey key ≠ key.
Proof.
  unfold getLockKey. intros H. apply (f_equal String.length) in H.
  cbv [String.append String.length] in H. fold String.length in H. lia.
Qed.

Lemma get_insert_lock key e r : get key (<[getLockKey key := e]> r) = get key r.
Proof. unfold get. by rewrite lookup_insert_ne by apply getLockKey_ne. Qed.

Lemma get_delete_lock key r : get key (delete (getLockKey key) r) = get key r.
Proof. unfold get. by rewrite lookup_delete_ne by apply getLockKey_ne. Qed.

(** *** One call on its own *)




(** The lock held by somebody else: a sleep of 100 ms, then the whole
    operation again. *)
Lemma getWithProtection_lock_busy fuel rq k w e :
  generateKey rq = inl k → truthy (get k (redis w)) = false →
  redis w !! getLockKey k = Some e →
  getWithProtection (3 + fuel) rq w =
    getWithProtection fuel rq
      {| redis := redis w; fallbackCalls := fallbackCalls w;
         sleeps := sleeps w ++ [100] |}.
Proof.
  intros Hk Ht Hl. pose proof (generateKey_inl _ _ Hk) as ->.
  unfold getWithProtection. simpl. rewrite Hk, Ht. simpl.
  unfold acquire. rewrite Hl. done.
Qed.

(** The second look: a value that has appeared since the first look is
    returned without calling [fallback], through the release of the
    lock. *)
Lemma double_check_hit rq w :
  truthy (get (cacheKeyOf rq) (redis w)) = true →
  callStep rq DoubleCheck w = (Release (Ok (get (cacheKeyOf rq) (redis w))), w) ∧
  callStep rq (Release (Ok (get (cacheKeyOf rq) (redis w)))) w =
    (Done (Ok (get (cacheKeyOf rq) (redis w))),
     withRedis w (release (cacheKeyOf rq) (redis w))).
Proof. intros Ht. simpl. by rewrite Ht. Qed.

(** C5 at the input on which the code departs from it: the key is present
    and holds the JSON value 0 (written by [set("user", "flag", "1", 0)]).
    [getWithProtection] does not return the cached value: it takes the
    lock, calls [fallback], overwrites the key and returns the fallback's
    value. *)
Theorem falsy_cached_value_recomputed :
  let rq := mkRequest "user" "flag" "1" (λ _, Yields (JObject "fresh")) 3600 in
  let w := mkWorld (set (cacheKeyOf rq) (JNum 0) 3600 ∅) 0 [] in
  redis w !! cacheKeyOf rq = Some (mkEntry (JNum 0) 3600) ∧
  getWithProtection 6 rq w =
    Some (Ok (JObject "fresh"),
          mkWorld (set (cacheKeyOf rq) (JObject "fresh") 3600 ∅) 1 []).
Proof. split; [by vm_compute|]. vm_compute. done. Qed.

(** *** Concurrent calls *)









Section SingleFlight.
Variables (rq : Request) (v : Json).
Hypothesis Hkey : generateKey rq = inl (cacheKeyOf rq).
Hypothesis Hfb : fallback rq 0 = Yields v.
Hypothesis Hv : truthy v = true.






End SingleFlight.



(** Some schedule lets all the calls return: with the lock free at the
    start, the first call computes the value and each of the others finds
    it at its first look. *)
Lemma all_calls_can_return rq k v n r :
  generateKey rq = inl k → fallback rq 0 = Yields v → truthy v = true →
  truthy (get k r) = false → r !! getLockKey k = None → (0 < n)%nat →
  Forall isRun (oneByOne n) ∧
  run rq (oneByOne n) (issue n (mkWorld r 0 [])) =
    Some {| world := mkWorld (<[k := mkEntry v (expireTime rq)]> r) 1 [];
            calls := replicate n (Done (Ok v)) |}.
Proof.
  intros Hk Hfb Hv Hmiss Hlock Hn. pose proof (generateKey_inl _ _ Hk) as ->.
  split.
  { unfold oneByOne. apply Forall_app. split; [by repeat constructor|].
    apply Forall_fmap, Forall_true. done. }
  destruct n as [|m]; [lia|]. clear Hn. unfold oneByOne, issue.
  replace (S m - 1)%nat with m by lia.
  set (w1 := mkWorld (<[cacheKeyOf rq := mkEntry v (expireTime rq)]> r) 1 []).
  assert (Hfirst : run rq (replicate 6 (Run 0))
                     {| world := mkWorld r 0 []; calls := replicate (S m) Start |}
                   = Some {| world := w1; calls := Done (Ok v) :: replicate m Start |}).
  { simpl. rewrite Hk, Hmiss. simpl. unfold acquire. rewrite Hlock. simpl.
    rewrite get_insert_lock, Hmiss, Hfb. simpl.
    do 2 f_equal. unfold w1, withRedis, release, set. simpl. f_equal.
    rewrite delete_insert_ne by apply getLockKey_ne.
    by rewrite delete_insert_id. }
  assert (Hrest : ∀ m' j,
            run rq (map Run (seq (S j) m'))
              {| world := w1;
                 calls := replicate (S j) (Done (Ok v)) ++ replicate m' Start |}
            = Some {| world := w1;
                      calls := replicate (S j + m') (Done (Ok v)) |}).
  { induction m' as [|m' IH]; intros j.
    - simpl. by rewrite app_nil_r, Nat.add_0_r.
    - cbn [seq map run sysStep calls world].
      assert (Hlen : length (replicate (S j) (Done (Ok v))) = S j)
        by apply length_replicate.
      rewrite lookup_app_r by (rewrite Hlen; lia).
      rewrite Hlen, Nat.sub_diag.
      cbn [replicate lookup list_lookup callStep world].
      rewrite Hk.
      assert (Hget : get (cacheKeyOf rq) (redis w1) = v).
      { unfold get, w1. simpl. by rewrite lookup_insert_eq. }
      rewrite Hget, Hv. cbn [mbind option_bind].
      change (Done (Ok v) :: replicate j (Done (Ok v)))
        with (replicate (S j) (Done (Ok v))).
      rewrite insert_app_r_alt by (rewrite Hlen; lia).
      rewrite Hlen, Nat.sub_diag.
      cbn [insert list_insert].
      rewrite (cons_middle (Done (Ok v))), app_assoc.
      change (replicate (S j) (Done (Ok v)) ++ [Done (Ok v)])
        with (replicate (S j) (Done (Ok v)) ++ replicate 1 (Done (Ok v))).
      rewrite <- replicate_add.
      replace (S j + 1)%nat with (S (S j)) by lia.
      rewrite (IH (S j)). do 3 f_equal. lia. }
  assert (Happ : ∀ l1 l2 s0,
            run rq (l1 ++ l2) s0 = run rq l1 s0 ≫= run rq l2).
  { induction l1 as [|l l1 IH]; intros l2 s0; [done|]. simpl.
    destruct (sysStep rq l s0); [apply IH|done]. }
  rewrite Happ, Hfirst. simpl. apply (Hrest m 0%nat).
Qed.




(** A [fallback] that rejects is called again by the next holder of the
    lock, and the two calls do not end alike. *)
Example rejecting_fallback_called_again :
  let rq := mkRequest "user" "profile" "123"
              (λ n, if decide (n = 0)%nat then Fails "db down" else Yields s4Value)
              3600 in
  ∃ s, run rq (replicate 5 (Run 0) ++ replicate 6 (Run 1))
             (issue 2 (mkWorld ∅ 0 [])) = Some s ∧
       calls s = [Done (Throw "db down"); Done (Ok s4Value)] ∧
       fallbackCalls (world s) = 2%nat.
Proof. eexists. split; [by vm_compute|]. done. Qed.

(** A falsy value is computed again by every call, although it is in the
    cache after the first. *)
Example falsy_value_computed_by_every_call :
  let rq := mkRequest "user" "count" "123" (λ _, Yields (JNum 0)) 3600 in
  ∃ s, run rq sequentialSchedule (issue 2 (mkWorld ∅ 0 [])) = Some s ∧
       calls s = [Done (Ok (JNum 0)); Done (Ok (JNum 0))] ∧
       fallbackCalls (world s) = 2%nat.
Proof. eexists. split; [by vm_compute|]. done. Qed.

End CacheFacts.

(** ** String concatenation, one character at a time *)
Module StringFacts.

Lemma append_nil (s : string) : EmptyString +:+ s = s.
Proof. reflexivity. Qed.

Lemma append_cons c (a s : string) : String c a +:+ s = String c (a +:+ s).
Proof. reflexivity. Qed.

End StringFacts.

(** ** Cache service: properties *)
Module CacheServiceFacts.
Import StringFacts CacheService.

Lemma colon_sep_inj a a' r r' :
  colonFree a = true → colonFree a' = true →
  a +:+ ":" +:+ r = a' +:+ ":" +:+ r' → a = a' ∧ r = r'.
Proof.
  revert a'.
  induction a as [|c a IH]; intros [|c' a']; rewrite ?append_cons, ?append_nil;
    simpl.
  - by intros _ _ [= ->].
  - intros _ Hc [= <- _]. by rewrite bool_decide_eq_true_2 in Hc.
  - intros Hc _ [= -> _]. by rewrite bool_decide_eq_true_2 in Hc.
  - intros [_ Ha]%andb_prop [_ Ha']%andb_prop [= -> Heq].
    destruct (IH a' Ha Ha' Heq) as [-> ->]. done.
Qed.

Lemma generate_inl dp p e o i v k :
  generate dp p e o i v = inl k →
  e ≠ EmptyString ∧ o ≠ EmptyString ∧ i ≠ EmptyString ∧
  k = default dp p +:+ ":" +:+ e +:+ ":" +:+ o +:+ ":" +:+ i +:+ ":" +:+ default "v1" v.
Proof. unfold generate. repeat case_decide; try done. by intros [= <-]. Qed.

(** X1.  Distinct key parts give distinct keys, as long as no part but the
    version holds a colon. *)
Theorem generate_injective dp p e o i v dp' p' e' o' i' v' k :
  colonFree (default dp p) = true → colonFree e = true →
  colonFree o = true → colonFree i = true →
  colonFree (default dp' p') = true → colonFree e' = true →
  colonFree o' = true → colonFree i' = true →
  generate dp p e o i v = inl k → generate dp' p' e' o' i' v' = inl k →
  default dp p = default dp' p' ∧ e = e' ∧ o = o' ∧ i = i' ∧
  default "v1" v = default "v1" v'.
Proof.
  intros Hp He Ho Hi Hp' He' Ho' Hi' (_ & _ & _ & ->)%generate_inl
    (_ & _ & _ & Heq)%generate_inl.
  apply colon_sep_inj in Heq as [Hpp Heq]; [|done..].
  apply colon_sep_inj in Heq as [Hee Heq]; [|done..].
  apply colon_sep_inj in Heq as [Hoo Heq]; [|done..].
  apply colon_sep_inj in Heq as [Hii Heq]; [|done..].
  done.
Qed.

Lemma generate_injective_witness :
  generate "rdp" None "user" "profile" "123" None = inl "rdp:user:profile:123:v1" ∧
  ("rdp" = "rdp" ∧ "user" = "user" ∧ "profile" = "profile" ∧ "123" = "123"
   ∧ "v1" = "v1").
Proof.
  split; [reflexivity|].
  apply (generate_injective "rdp" None "user" "profile" "123" None
           "rdp" (Some "rdp") "user" "profile" "123" (Some "v1")
           "rdp:user:profile:123:v1"); reflexivity.
Defined.

(** Without the condition two different requests can share a key. *)
Example generate_collision :
  generate "rdp" None "a:b" "c" "1" None = generate "rdp" None "a" "b:c" "1" None.
Proof. reflexivity. Qed.





Lemma getLockKey_inj key key' : Cache.getLockKey key = Cache.getLockKey key' → key = key'.
Proof. unfold Cache.getLockKey. rewrite !append_cons, !append_nil. by intros [=]. Qed.

(** X4.  The lock of a key ([CacheLock.acquire], [CacheLock.release]).  An
    attempt succeeds exactly when the lock key is absent; a failed attempt
    changes nothing; after any attempt a further one fails; after a
    release the next one succeeds; and neither command touches another
    key of the store, the locks of other keys included. *)
Theorem lock_protocol (key : string) (redis : gmap string Cache.Entry) :
  let '(locked, r1) := Cache.acquire key redis in
  (locked = true ↔ redis !! Cache.getLockKey key = None) ∧
  (locked = false → r1 = redis) ∧
  Cache.acquire key r1 = (false, r1) ∧
  (Cache.acquire key (Cache.release key r1)).1 = true ∧
  (∀ k', k' ≠ Cache.getLockKey key →
     r1 !! k' = redis !! k' ∧ Cache.release key r1 !! k' = redis !! k') ∧
  (∀ key', key' ≠ key →
     (Cache.acquire key' r1).1 = (Cache.acquire key' redis).1 ∧
     (Cache.acquire key' (Cache.release key r1)).1 = (Cache.acquire key' redis).1).
Proof.
  unfold Cache.acquire, Cache.release.
  destruct (redis !! Cache.getLockKey key) as [e|] eqn:Hl.
  - rewrite Hl, lookup_delete_eq. split_and!; try done.
    + intros k' Hne. by rewrite lookup_delete_ne.
    + intros key' Hne.
      rewrite lookup_delete_ne by (intros ?%getLockKey_inj; congruence).
      by destruct (redis !! Cache.getLockKey key').
  - rewrite lookup_insert_eq, lookup_delete_eq. split_and!; try done.
    + intros k' Hne. by rewrite lookup_delete_ne, lookup_insert_ne.
    + intros key' Hne.
      rewrite lookup_delete_ne, lookup_insert_ne
        by (intros ?%getLockKey_inj; congruence).
      by destruct (redis !! Cache.getLockKey key').
Qed.

Lemma generateKey_prefix k v key :
  generateKey k v = inl key → ∃ rest, key = "rdp:" +:+ rest.
Proof.
  intros (_ & _ & _ & ->)%generate_inl. simpl. by eexists.
Qed.

(** X5.  Lock keys and cache keys never meet: whatever key is locked or
    released, a value read under a generated cache key is the same, and
    writing or deleting a cache key changes the outcome of no attempt to
    lock. *)
Theorem lock_keys_apart (k : KeyParts) (v : option string) (key other : string)
    (value : Cache.Json) (expire : Z) (redis : gmap string Cache.Entry) :
  generateKey k v = inl key →
  Cache.getLockKey other ≠ key ∧
  Cache.get key (Cache.acquire other redis).2 = Cache.get key redis ∧
  Cache.get key (Cache.release other redis) = Cache.get key redis ∧
  (Cache.acquire other (Cache.set key value expire redis)).1
    = (Cache.acquire other redis).1 ∧
  (Cache.acquire other (delete key redis)).1 = (Cache.acquire other redis).1.
Proof.
  intros [rest ->]%generateKey_prefix.
  assert (Hne : Cache.getLockKey other ≠ "rdp:" +:+ rest).
  { unfold Cache.getLockKey. rewrite !append_cons. by intros [=]. }
  unfold Cache.acquire, Cache.release, Cache.get, Cache.set.
  split_and!; [done|..].
  - destruct (redis !! Cache.getLockKey other); simpl; [done|].
    by rewrite lookup_insert_ne.
  - by rewrite lookup_delete_ne.
  - rewrite lookup_insert_ne by done.
    by destruct (redis !! Cache.getLockKey other).
  - rewrite lookup_delete_ne by done.
    by destruct (redis !! Cache.getLockKey other).
Qed.

Lemma lock_keys_apart_witness :
  Cache.getLockKey "rdp:user:profile:123:v1" ≠ "rdp:user:profile:123:v1" ∧
  Cache.get "rdp:user:profile:123:v1"
    (Cache.acquire "rdp:user:profile:123:v1" ∅).2 = Cache.JNull.
Proof.
  destruct (lock_keys_apart (mkKey "user" "profile" "123") None
              "rdp:user:profile:123:v1" "rdp:user:profile:123:v1"
              Cache.JNull 0 ∅ eq_refl) as (H1 & H2 & _).
  split; [exact H1|]. rewrite H2. reflexivity.
Defined.

Lemma request_generateKey k fb t key :
  Cache.generateKey (request k fb t) = inl key ↔ generateKey k None = inl key.
Proof. unfold Cache.generateKey, generateKey, generate, request. simpl. done. Qed.



Lemma runCall_waits fuel rq key pc w e :
  Cache.generateKey rq = inl key →
  Cache.truthy (Cache.get key (Cache.redis w)) = false →
  Cache.redis w !! Cache.getLockKey key = Some e →
  pc = Cache.Start ∨ pc = Cache.TryLock ∨ pc = Cache.Sleeping →
  Cache.runCall fuel rq pc w = None.
Proof.
  intros Hk. pose proof (CacheFacts.generateKey_inl _ _ Hk) as ->.
  revert pc w. induction fuel as [|fuel IH]; intros pc w Ht Hl Hpc.
  - destruct Hpc as [->|[->| ->]]; done.
  - destruct Hpc as [->|[->| ->]]; simpl.
    + rewrite Hk, Ht. apply IH; auto.
    + unfold Cache.acquire. rewrite Hl. apply IH; auto.
    + apply IH; auto.
Qed.

(** X7.  [getWithProtection] has no bound on its retries: as long as the lock
    key is in the store and the key holds nothing truthy, the call goes
    on sleeping and retrying and does not return, whatever the number of
    steps it is given. *)
Theorem busy_lock_never_returns (fuel : nat) (rq : Cache.Request)
    (key : string) (w : Cache.World) (e : Cache.Entry) :
  Cache.generateKey rq = inl key →
  Cache.truthy (Cache.get key (Cache.redis w)) = false →
  Cache.redis w !! Cache.getLockKey key = Some e →
  Cache.getWithProtection fuel rq w = None.
Proof.
  intros Hk Ht Hl. unfold Cache.getWithProtection.
  eapply runCall_waits; [done..|]. by left.
Qed.

Lemma busy_lock_never_returns_witness :
  Cache.getWithProtection 1000 Cache.s4Request
    (Cache.mkWorld (Cache.acquire "rdp:user:profile:123:v1" ∅).2 0 []) = None.
Proof.
  apply (busy_lock_never_returns 1000 Cache.s4Request "rdp:user:profile:123:v1"
           _ (Cache.mkEntry (Cache.JNum 1) Cache.defaultLockTime));
    reflexivity.
Defined.

End CacheServiceFacts.

(** ** Metric registry: further properties *)
Module MetricLabelsFacts.
Import StringFacts JsMap JsMapFacts Metrics MetricsFacts MetricLabels.

Lemma charFree_app c a b : charFree c (a +:+ b) = charFree c a && charFree c b.
Proof.
  induction a as [|c' a IH]; rewrite ?append_nil, ?append_cons; simpl; [done|].
  rewrite IH. by rewrite andb_assoc.
Qed.

Lemma split_nonempty sep s : split sep s ≠ [].
Proof.
  destruct s as [|c r]; simpl; [done|].
  case_decide; [done|]. by destruct (split sep r).
Qed.

Lemma split_free sep s : charFree sep s = true → split sep s = [s].
Proof.
  induction s as [|c r IH]; simpl; [done|].
  intros [Hc Hr]%andb_prop. apply negb_true_iff, bool_decide_eq_false in Hc.
  rewrite decide_False by done. by rewrite IH.
Qed.

Lemma split_app sep a r :
  charFree sep a = true →
  split sep (a +:+ String sep r) = a :: split sep r.
Proof.
  induction a as [|c a IH]; rewrite ?append_nil, ?append_cons; simpl.
  - intros _. by rewrite decide_True.
  - intros [Hc Ha]%andb_prop. apply negb_true_iff, bool_decide_eq_false in Hc.
    rewrite decide_False by done. by rewrite IH.
Qed.

Lemma join_cons sep x y r : join sep (x :: y :: r) = x +:+ sep +:+ join sep (y :: r).
Proof. done. Qed.

Lemma split_join x parts :
  Forall (λ p, charFree "," p = true) (x :: parts) →
  split "," (join "," (x :: parts)) = x :: parts.
Proof.
  revert x. induction parts as [|y parts IH]; intros x Hfree.
  - simpl. apply split_free. by inversion Hfree.
  - rewrite join_cons. inversion Hfree as [|?? Hx Hrest]; subst.
    change ("," +:+ join "," (y :: parts)) with (String "," (join "," (y :: parts))).
    rewrite split_app by done. by rewrite IH.
Qed.

Lemma parsePart_pair result n v :
  n ≠ EmptyString → charFree ":" n = true → charFree ":" v = true →
  parsePart result (n +:+ ":" +:+ v) = mapSet n (Some v) result.
Proof.
  intros Hn Hfn Hfv. unfold parsePart.
  change (":" +:+ v) with (String ":" v).
  rewrite split_app, split_free by done. simpl. by rewrite decide_False.
Qed.

Lemma mapGet_labelObjectOf labels lbls n :
  n ∉ lbls → mapGet n (labelObjectOf labels lbls) = None.
Proof.
  induction lbls as [|l lbls IH]; simpl; [done|].
  intros [Hne Hnot]%not_elem_of_cons. rewrite decide_False by done. by apply IH.
Qed.

Lemma foldl_parsePart labels done_ lbls :
  NoDup (done_ ++ lbls) →
  Forall (λ n, n ≠ EmptyString ∧ plain n = true) lbls →
  Forall (λ n, plain (default EmptyString (labels !! n)) = true) lbls →
  foldl parsePart (labelObjectOf labels done_)
        (map (λ n, n +:+ ":" +:+ default EmptyString (labels !! n)) lbls)
  = labelObjectOf labels (done_ ++ lbls).
Proof.
  revert done_. induction lbls as [|n lbls IH]; intros done_ Hnd Hn Hv.
  - simpl. by rewrite app_nil_r.
  - inversion Hn as [|?? [Hne [_ Hcn]%andb_prop] Hn']; subst.
    inversion Hv as [|?? [_ Hcv]%andb_prop Hv']; subst.
    simpl. rewrite parsePart_pair by done.
    rewrite mapSet_absent.
    2:{ apply mapGet_labelObjectOf. apply NoDup_app in Hnd as (_ & Hd & _).
        intros Hin. apply (Hd n Hin). by left. }
    replace (labelObjectOf labels done_ ++ [(n, Some (default EmptyString (labels !! n)))])
      with (labelObjectOf labels (done_ ++ [n]))
      by (unfold labelObjectOf; by rewrite map_app).
    rewrite IH; [|by rewrite <- app_assoc|done..].
    by rewrite <- app_assoc.
Qed.

Lemma parts_comma_free (labels : gmap string string) lbls :
  Forall (λ n, n ≠ EmptyString ∧ plain n = true) lbls →
  Forall (λ n, plain (default EmptyString (labels !! n)) = true) lbls →
  Forall (λ p, charFree "," p = true)
         (map (λ n, n +:+ ":" +:+ default EmptyString (labels !! n)) lbls).
Proof.
  induction lbls as [|x l IH]; intros Hn Hv; simpl; [constructor|].
  inversion Hn as [|?? [_ [Hc _]%andb_prop] Hn']; subst.
  inversion Hv as [|?? [Hc' _]%andb_prop Hv']; subst.
  constructor; [|by apply IH].
  by rewrite !charFree_app, Hc, Hc'.
Qed.

(** X8.  The label key is read back as it was built: for distinct, non-empty
    label names, names and values free of [,] and [:], [_parseLabelKey]
    returns from the key of [_getLabelKey] every label name, in order,
    with the value it was given (the empty string for a label left
    out). *)
Theorem label_key_round_trip (labels : gmap string string) (lbls : list string) :
  NoDup lbls →
  Forall (λ n, n ≠ EmptyString ∧ plain n = true) lbls →
  Forall (λ n, plain (default EmptyString (labels !! n)) = true) lbls →
  _parseLabelKey (_getLabelKey labels lbls) = labelObjectOf labels lbls.
Proof.
  intros Hnd Hn Hv. unfold _parseLabelKey, _getLabelKey.
  destruct lbls as [|n lbls]; [done|].
  change (map ?f (n :: lbls)) with (f n :: map f lbls).
  rewrite split_join.
  - exact (foldl_parsePart labels [] (n :: lbls) Hnd Hn Hv).
  - exact (parts_comma_free labels (n :: lbls) Hn Hv).
Qed.

Lemma label_key_round_trip_witness :
  _parseLabelKey (_getLabelKey get200 ["method"; "status"; "route"])
  = [("method", Some "GET"); ("status", Some "200"); ("route", Some "")].
Proof.
  apply (label_key_round_trip get200 ["method"; "status"; "route"]).
  - apply (bool_decide_unpack _). by vm_compute.
  - repeat constructor; done.
  - repeat constructor; done.
Defined.

(** A value that holds a separator does not come back. *)
Example label_value_with_colon_is_cut :
  _parseLabelKey (_getLabelKey (<["route" := "/v1/users:42"]> ∅) ["route"])
  = [("route", Some "/v1/users")].
Proof. by vm_compute. Qed.

Lemma updateData_type lbls value labels metric :
  type (withData metric (updateData lbls value labels (data metric))) = type metric.
Proof.
  unfold type, updateData. simpl.
  destruct lbls, (data metric); simpl; repeat case_decide; done.
Qed.

(** X9.  A gauge is read back as it was last set, with two exceptions on a
    gauge that has label names: a value of 0 is read back as [null], and a
    [set] without labels writes the cell of the empty label values, which
    a read without labels does not look at (it returns [value], which
    [set] leaves alone).  Other label tuples and other metrics read as
    before. *)
Theorem gauge_read_back (nm : string) (value : Z) (labels : gmap string string)
    (mc : MetricsCollector) (metric : Metric) (v : Z) (lv : list (string * Z)) :
  mapGet nm (metrics mc) = Some metric → data metric = GaugeData v lv →
  let mc' := setMetric nm value labels mc in
  getMetric nm labels mc' =
    match labelNames metric with
    | [] => VNum value
    | _ :: _ => if decide (labels = ∅) then VNum v
                else if decide (value = 0) then VNull else VNum value
    end ∧
  (∀ labels', labels' ≠ ∅ →
     _getLabelKey labels' (labelNames metric) ≠ _getLabelKey labels (labelNames metric) →
     getMetric nm labels' mc' = getMetric nm labels' mc) ∧
  (∀ nm' labels', nm' ≠ nm → getMetric nm' labels' mc' = getMetric nm' labels' mc).
Proof.
  intros Hm Hd mc'. split_and!.
  - unfold getMetric, mc'. rewrite setMetric_lookup, decide_True, Hm by done.
    simpl. rewrite Hd. unfold updateData.
    destruct (labelNames metric) as [|l ls] eqn:Hl; simpl; [done|].
    rewrite mapGet_mapSet_eq.
    destruct (decide (labels = ∅)) as [->|Hne].
    + by rewrite bool_decide_eq_false_2 by (by intros ?).
    + by rewrite bool_decide_eq_true_2 by done.
  - intros labels' Hne Hkey. unfold getMetric, mc'.
    rewrite setMetric_lookup, decide_True, Hm by done.
    simpl. rewrite Hd. unfold updateData.
    destruct (labelNames metric) as [|l ls] eqn:Hl; simpl; [done|].
    by rewrite mapGet_mapSet_ne by done.
  - intros nm' labels' Hne. unfold getMetric, mc'.
    by rewrite setMetric_lookup, decide_False by done.
Qed.

Lemma gauge_read_back_witness :
  let mc := registerMetric 0 "queue_size" GAUGE "Queue size" ["queue_name"]
              (new 0 None false) in
  getMetric "queue_size" (<["queue_name" := "orders"]> ∅)
    (setMetric "queue_size" 0 (<["queue_name" := "orders"]> ∅) mc) = VNull ∧
  getMetric "queue_size" (<["queue_name" := "orders"]> ∅)
    (setMetric "queue_size" 7 (<["queue_name" := "orders"]> ∅) mc) = VNum 7.
Proof.
  intros mc.
  pose proof (gauge_read_back "queue_size" 0 (<["queue_name" := "orders"]> ∅) mc
                _ 0 [] eq_refl eq_refl) as [H0 _].
  pose proof (gauge_read_back "queue_size" 7 (<["queue_name" := "orders"]> ∅) mc
                _ 0 [] eq_refl eq_refl) as [H7 _].
  split; [exact H0|exact H7].
Defined.

Lemma registration_snapshot metric :
  registration (snapshot metric) = (name metric, type metric, help metric, labelNames metric).
Proof. done. Qed.

Lemma mapSet_registration nm (x y : Metric) (m : list (string * Metric)) :
  mapGet nm m = Some x →
  registration (snapshot y) = registration (snapshot x) →
  map (λ kv, registration (snapshot kv.2)) (mapSet nm y m)
  = map (λ kv, registration (snapshot kv.2)) m.
Proof.
  intros Hx Hreg. induction m as [|[k z] m IH]; simpl in *; [done|].
  case_decide; simpl.
  - injection Hx as ->. by rewrite Hreg.
  - by rewrite IH.
Qed.

Lemma setMetric_registrations nm value labels mc :
  map registration (getMetrics (setMetric nm value labels mc))
  = map registration (getMetrics mc).
Proof.
  unfold getMetrics. rewrite !map_map, setMetric_metrics.
  destruct (mapGet nm (metrics mc)) as [metric|] eqn:Hm; [|done].
  apply (mapSet_registration nm metric); [done|].
  rewrite !registration_snapshot. simpl. by rewrite updateData_type.
Qed.

Lemma applyOp_registrations now op mc :
  map registration (getMetrics mc)
    `prefix_of` map registration (getMetrics (applyOp now mc op)).
Proof.
  destruct op as [nm ty hlp lbls|nm v ls|nm v ls|nm v ls]; simpl.
  - destruct (registerMetric_metrics now nm ty hlp lbls mc)
      as [Heq|(_ & metric & Heq & _)]; unfold getMetrics; rewrite Heq; [done|].
    rewrite !map_app. by apply prefix_app_r.
  - by rewrite setMetric_registrations.
  - destruct (incrementCounter_metrics nm v ls mc) as [Heq| ->].
    + unfold getMetrics. by rewrite Heq.
    + by rewrite setMetric_registrations.
  - destruct (observeHistogram_metrics nm v ls mc) as [Heq| ->].
    + unfold getMetrics. by rewrite Heq.
    + by rewrite setMetric_registrations.
Qed.

(** X10.  Registration is permanent.  Whatever operations follow (updates,
    registrations of new names, a second registration of a known name
    under another type, help text or label names), the snapshot keeps
    every metric it listed, in the same place, with the full name, type,
    help text and label names it was first registered with; new metrics
    come after. *)
Theorem registration_is_permanent (now : Z) (ops : list Op) (mc : MetricsCollector) :
  map registration (getMetrics mc)
    `prefix_of` map registration (getMetrics (runOps now ops mc)).
Proof.
  unfold runOps. revert mc. induction ops as [|op ops IH]; intros mc; simpl; [done|].
  etrans; [apply (applyOp_registrations now op mc)|apply IH].
Qed.

(** A second registration of a name changes neither the type nor the
    values. *)
Example reregistration_ignored :
  let mc := setMetric "jobs" 5 ∅
              (registerMetric 0 "jobs" COUNTER "Jobs done" [] (new 0 None false)) in
  getMetrics (registerMetric 9 "jobs" GAUGE "Jobs" ["queue"] mc) = getMetrics mc.
Proof. by vm_compute. Qed.

End MetricLabelsFacts.

(** ** Health registry: further properties *)
Module HealthRegistryFacts.
Import Health HealthFacts HealthRegistry.

Lemma new_consistent : consistent new.
Proof. intros name. simpl. by rewrite !lookup_empty. Qed.

Lemma registerCheck_consistent name t c u hc :
  consistent hc → consistent (registerCheck name t c u hc).
Proof.
  intros H name'. unfold registerCheck. simpl.
  destruct (decide (name = name')) as [->|Hne].
  - by rewrite !lookup_insert_eq.
  - rewrite !lookup_insert_ne by done. apply H.
Qed.

Lemma checkAll_checks now run hc : checks (checkAll now run hc) = checks hc.
Proof. unfold checkAll, _updateOverallStatus. simpl. by destruct (flags _). Qed.

Lemma checkAll_components now run hc :
  components (checkAll now run hc) = runAll now run (checks hc) (components hc).
Proof. unfold checkAll. by rewrite _updateOverallStatus_components. Qed.

Lemma runComponent_critical now name o c :
  critical (runComponent now name o c) = critical c.
Proof. by destruct o. Qed.

Lemma checkAll_consistent now run hc :
  consistent hc → consistent (checkAll now run hc).
Proof.
  intros H name. rewrite checkAll_checks, checkAll_components, runAll_lookup.
  specialize (H name).
  destruct (checks hc !! name) as [chk|], (components hc !! name) as [c|]; simpl;
    try done.
  by rewrite runComponent_critical.
Qed.

Lemma registered_consistent rs : consistent (registered rs).
Proof.
  induction rs as [|[[[n t] c] u] rs IH]; [apply new_consistent|].
  simpl. by apply registerCheck_consistent.
Qed.

Lemma runComponent_status now name o c :
  status (runComponent now name o c) = if resolves o then HEALTHY else UNHEALTHY.
Proof. by destruct o. Qed.

Lemma checkAll_component now run hc name c' :
  consistent hc →
  components (checkAll now run hc) !! name = Some c' →
  ∃ chk c, checks hc !! name = Some chk ∧ components hc !! name = Some c ∧
    c' = runComponent now name (run name) c ∧ critical c' = check_critical chk.
Proof.
  intros H. rewrite checkAll_components, runAll_lookup. specialize (H name).
  destruct (checks hc !! name) as [chk|], (components hc !! name) as [c|]; simpl;
    try done.
  intros [= <-]. exists chk, c. by rewrite runComponent_critical.
Qed.

Lemma anyUnhealthy_checkAll now run hc crit :
  consistent hc →
  anyUnhealthy crit (components (checkAll now run hc)) ↔
  ∃ name chk, checks hc !! name = Some chk ∧ check_critical chk = crit ∧
    resolves (run name) = false.
Proof.
  intros H. split.
  - intros (name & c' & Hc' & Hs & Hcrit).
    destruct (checkAll_component _ _ _ _ _ H Hc') as (chk & c & Hchk & Hc & -> & Hcr).
    exists name, chk. split_and!; [done|congruence|].
    rewrite runComponent_status in Hs. by destruct (resolves (run name)).
  - intros (name & chk & Hchk & Hcrit & Hr).
    pose proof (H name) as Hn. rewrite Hchk in Hn.
    destruct (components hc !! name) as [c|] eqn:Hc; [|done].
    exists name, (runComponent now name (run name) c). split_and!.
    + by rewrite checkAll_components, runAll_lookup, Hchk, Hc.
    + by rewrite runComponent_status, Hr.
    + rewrite runComponent_critical. congruence.
Qed.

Lemma checkAll_truthTable now run hc :
  truthTable (components (checkAll now run hc)) (overall (checkAll now run hc)).
Proof.
  unfold checkAll.
  set (hc1 := {| checks := checks hc; overall := overall hc;
                 overallLastCheck := Some now;
                 components := runAll now run (checks hc) (components hc) |}).
  pose proof (_updateOverallStatus_truthTable hc1) as Htt.
  by rewrite <- (_updateOverallStatus_components hc1) in Htt at 1.
Qed.

(** X11.  What the status says after [checkAll] in terms of what the checks
    did, on a registry built through the API.  The registry is healthy
    exactly when every registered check resolved in time; it is available
    (healthy or degraded) exactly when every critical one did.  No
    component is left unknown: each one is healthy or unhealthy by the
    outcome of its own check. *)
Theorem status_follows_outcomes (now : Z) (run : string → CheckOutcome)
    (hc : HealthChecker) :
  consistent hc →
  let hc' := checkAll now run hc in
  (isHealthy hc' = true ↔
     ∀ name chk, checks hc !! name = Some chk → resolves (run name) = true) ∧
  (isAvailable hc' = true ↔
     ∀ name chk, checks hc !! name = Some chk → check_critical chk = true →
       resolves (run name) = true) ∧
  (∀ name c, getComponentStatus name hc' = Some c →
     status c = if resolves (run name) then HEALTHY else UNHEALTHY) ∧
  consistent hc'.
Proof.
  intros H hc'.
  pose proof (checkAll_truthTable now run hc) as Htt. fold hc' in Htt.
  pose proof (anyUnhealthy_checkAll now run hc true H) as Hcrit.
  pose proof (anyUnhealthy_checkAll now run hc false H) as Hnon.
  fold hc' in Hcrit, Hnon.
  assert (Hall : ∀ crit,
    ¬ anyUnhealthy crit (components hc') ↔
    ∀ name chk, checks hc !! name = Some chk → check_critical chk = crit →
      resolves (run name) = true).
  { intros crit.
    pose proof (anyUnhealthy_checkAll now run hc crit H) as Hany. fold hc' in Hany.
    rewrite Hany. split.
    - intros Hno name chk Hchk Hc.
      destruct (resolves (run name)) eqn:Hr; [done|].
      exfalso. apply Hno. by exists name, chk.
    - intros Hyes (name & chk & Hchk & Hc & Hr).
      by rewrite (Hyes name chk Hchk Hc) in Hr. }
  split_and!.
  - unfold isHealthy. rewrite bool_decide_eq_true. split.
    + intros Ho name chk Hchk.
      destruct Htt as [[_ ?]|[(_ & _ & ?)|(H1 & H2 & _)]]; [congruence..|].
      destruct (check_critical chk) eqn:Hc.
      * by apply (proj1 (Hall true) H1 name chk).
      * by apply (proj1 (Hall false) H2 name chk).
    + intros Hyes.
      destruct Htt as [[H1 _]|[(_ & H2 & _)|(_ & _ & ?)]]; [| |done].
      * exfalso. revert H1. apply Hall. eauto.
      * exfalso. revert H2. apply Hall. eauto.
  - unfold isAvailable. rewrite orb_true_iff, !bool_decide_eq_true. split.
    + intros Ho.
      destruct Htt as [[_ ?]|[(H1 & _ & _)|(H1 & _ & _)]].
      * destruct Ho; congruence.
      * by apply Hall.
      * by apply Hall.
    + intros Hyes.
      destruct Htt as [[H1 _]|[(_ & _ & ->)|(_ & _ & ->)]]; [|by right|by left].
      exfalso. revert H1. by apply Hall.
  - intros name c Hc.
    destruct (checkAll_component _ _ _ _ _ H Hc) as (chk & c0 & _ & _ & -> & _).
    apply runComponent_status.
  - by apply checkAll_consistent.
Qed.

(** Scenario S2 of the specification on the model: a critical check that
    resolves and a non-critical one that rejects. *)
Lemma status_follows_outcomes_witness :
  let run := λ n : string, if decide (n = "C") then Resolves None else Rejects "down" in
  let hc := registered [("N", None, Some false, false); ("C", None, None, false)] in
  isAvailable (checkAll 1 run hc) = true ∧ isHealthy (checkAll 1 run hc) = false.
Proof.
  intros run hc.
  destruct (status_follows_outcomes 1 run hc (registered_consistent _))
    as (Hh & Ha & _).
  split.
  - apply Ha. intros name chk Hchk Hcrit.
    destruct (decide (name = "C")) as [->|Hne]; [done|].
    destruct (decide (name = "N")) as [->|Hne']; [by vm_compute in Hchk; simplify_eq|].
    unfold hc in Hchk. simpl in Hchk.
    by rewrite !lookup_insert_ne, lookup_empty in Hchk by done.
  - destruct (isHealthy (checkAll 1 run hc)) eqn:Hx; [|done].
    pose proof (proj1 Hh eq_refl "N" (mkCheck 5000 false false) eq_refl) as Hn.
    done.
Defined.



End HealthRegistryFacts.

(** ** Alert engine: further properties *)
Module AlertOpsFacts.
Import JsMap JsMapFacts Alerts AlertsFacts AlertOps.

Lemma _labelMatch_elem alertLabels matchLabels :
  _labelMatch alertLabels matchLabels = true → ∀ l, l ∈ matchLabels → l ∈ alertLabels.
Proof.
  unfold _labelMatch. destruct matchLabels as [|x r].
  - intros _ l Hl. by apply elem_of_nil in Hl.
  - intros H l Hl. rewrite forallb_forall in H.
    apply list_elem_of_In in Hl. specialize (H l Hl).
    by apply bool_decide_eq_true in H.
Qed.

(** The loop answers [true] only when one of the silences it is given
    matches and is unexpired. *)
Lemma isSilencedLoop_true_inv now nm lbls todo m :
  (isSilencedLoop now nm lbls todo m).1 = true →
  ∃ s, In s todo ∧ matches s nm lbls ∧ unexpired now s.
Proof.
  revert m. induction todo as [|x todo IH]; intros m; [done|]. simpl.
  destruct (bool_decide (s_name x ≠ nm) && bool_decide (s_name x ≠ "*")) eqn:Hn.
  { intros (s & ? & ?)%IH. exists s. auto. }
  destruct (bool_decide (0 < length (s_labels x))%nat
            && negb (_labelMatch lbls (s_labels x))) eqn:Hl.
  { intros (s & ? & ?)%IH. exists s. auto. }
  destruct (bool_decide (0 < expireAt x) && bool_decide (expireAt x < now)) eqn:He.
  { intros (s & ? & ?)%IH. exists s. auto. }
  intros _. exists x. split; [by left|]. split; [split|].
  - apply andb_false_iff in Hn as [Hn|Hn]; apply bool_decide_eq_false in Hn.
    + left. by destruct (decide (s_name x = nm)).
    + right. by destruct (decide (s_name x = "*")).
  - apply andb_false_iff in Hl as [Hl|Hl].
    + apply bool_decide_eq_false in Hl.
      destruct (s_labels x); [|simpl in Hl; lia].
      intros l Hin. by apply elem_of_nil in Hin.
    + apply negb_false_iff in Hl. by apply _labelMatch_elem.
  - intros [H1 H2]. apply andb_false_iff in He as [He|He];
      apply bool_decide_eq_false in He; done.
Qed.

(** X13.  An alert is suppressed exactly when the silence map holds a silence
    that matches it (same name or the wildcard [*], every label of the
    silence among the alert's) and has not expired: [alert] returns
    [null] in that case and in no other. *)
Theorem suppressed_iff_silenced (now : Z) (am : AlertManager) (nm msg : string)
    (sev : AlertSeverity) (lbls : list string) (dat : option string) :
  (alert now nm msg sev lbls dat am).1 = None ↔
  ∃ k s, In (k, s) (silencedAlerts am) ∧ matches s nm lbls ∧ unexpired now s.
Proof.
  split.
  - unfold alert, _isSilenced.
    destruct (isSilencedLoop now nm lbls _ _) as [b m] eqn:Hloop.
    destruct b; [|done]. intros _.
    destruct (isSilencedLoop_true_inv now nm lbls (mapValues (silencedAlerts am))
                (silencedAlerts am)) as (s & Hin & Hm & He).
    { by rewrite Hloop. }
    unfold mapValues in Hin. apply in_map_iff in Hin as ([k s'] & <- & Hin).
    by exists k, s'.
  - intros (k & s & Hin & Hm & He).
    assert (Hs : In s (mapValues (silencedAlerts am))).
    { unfold mapValues. apply in_map_iff. by exists (k, s). }
    pose proof (isSilencedLoop_true now nm lbls _ (silencedAlerts am) s Hs Hm He) as Ht.
    unfold alert, _isSilenced.
    destruct (isSilencedLoop now nm lbls _ _) as [b m]. simpl in Ht. by subst b.
Qed.

(** *** The history stays within its bound *)

Lemma _addToHistory_length a am :
  (length (alertHistory (_addToHistory a am)) ≤ maxHistorySize am)%nat.
Proof.
  unfold _addToHistory. simpl. case_bool_decide as H; simpl in *.
  - rewrite length_take. simpl. lia.
  - lia.
Qed.

Lemma replaceFirst_length a h h' :
  replaceFirst a h = Some h' → length h' = length h.
Proof.
  revert h'. induction h as [|b h IH]; intros h'; simpl; [done|].
  case_decide.
  - by intros [= <-].
  - destruct (replaceFirst a h) as [h''|]; simpl; [|done].
    intros [= <-]. simpl. by rewrite (IH h'').
Qed.

Lemma _updateAlertHistory_length a am :
  (length (alertHistory am) ≤ maxHistorySize am)%nat →
  (length (alertHistory (_updateAlertHistory a am)) ≤ maxHistorySize am)%nat.
Proof.
  intros H. unfold _updateAlertHistory.
  destruct (replaceFirst a (alertHistory am)) as [h|] eqn:Hr.
  - simpl. by rewrite (replaceFirst_length _ _ _ Hr).
  - apply _addToHistory_length.
Qed.

Lemma _updateAlertHistory_frame a am :
  maxHistorySize (_updateAlertHistory a am) = maxHistorySize am ∧
  alerts (_updateAlertHistory a am) = alerts am ∧
  silencedAlerts (_updateAlertHistory a am) = silencedAlerts am ∧
  notified (_updateAlertHistory a am) = notified am ∧
  notifiers (_updateAlertHistory a am) = notifiers am.
Proof.
  unfold _updateAlertHistory. by destruct (replaceFirst a (alertHistory am)).
Qed.

Lemma _sendNotifications_history now a am :
  bounded am →
  bounded (_sendNotifications now a am) ∧
  maxHistorySize (_sendNotifications now a am) = maxHistorySize am.
Proof.
  intros H. unfold _sendNotifications, bounded.
  destruct (sendLoop now (notifiers am) a (notified am)) as [a' calls].
  set (am2 := match mapGet (name a) (alerts (withNotified am calls)) with
              | Some a0 => if decide (id a0 = id a)
                           then withAlerts (withNotified am calls)
                                  (mapSet (name a) a' (alerts (withNotified am calls)))
                           else withNotified am calls
              | None => withNotified am calls
              end).
  assert (Hsame : alertHistory am2 = alertHistory am ∧
                  maxHistorySize am2 = maxHistorySize am).
  { unfold am2. destruct (mapGet _ _); [case_decide|]; done. }
  destruct Hsame as [Hh Hm].
  destruct (_updateAlertHistory_frame a' am2) as (Hm' & _).
  rewrite Hm', Hm. split; [|done]. rewrite <- Hm.
  apply _updateAlertHistory_length. by rewrite Hh, Hm.
Qed.

Lemma alert_history now nm msg sev lbls dat am :
  bounded am →
  bounded (alert now nm msg sev lbls dat am).2 ∧
  maxHistorySize (alert now nm msg sev lbls dat am).2 = maxHistorySize am.
Proof.
  intros H. unfold alert, _isSilenced.
  destruct (isSilencedLoop now nm lbls _ _) as [[] m]; simpl; [done|].
  set (a := {| id := nm +:+ "_" +:+ pretty now; name := nm |}).
  set (am1 := withAlerts (withSilences am m) _).
  destruct (_sendNotifications_history now a (_addToHistory a am1)) as [Hb Hm].
  { unfold bounded. apply (_addToHistory_length a am1). }
  split; [|by rewrite Hm]. done.
Qed.

Lemma silence_history now nm duration lbls by_ msg am :
  bounded am →
  bounded (silence now nm duration lbls by_ msg am).2 ∧
  maxHistorySize (silence now nm duration lbls by_ msg am).2 = maxHistorySize am.
Proof.
  intros H. unfold silence.
  set (am1 := withSilences am _).
  destruct (mapGet nm (alerts am1)) as [a|]; [|done].
  destruct (_labelMatch (labels a) lbls); [|done]. simpl.
  set (am2 := withAlerts am1 _). set (a' := silenceAlert a _ now).
  destruct (_updateAlertHistory_frame a' am2) as (Hm & _).
  split; [|by rewrite Hm]. unfold bounded. rewrite Hm.
  by apply (_updateAlertHistory_length a' am2).
Qed.

Lemma unsilenceStep_history now silenceId am entry :
  bounded am →
  bounded (unsilenceStep now silenceId am entry) ∧
  maxHistorySize (unsilenceStep now silenceId am entry) = maxHistorySize am.
Proof.
  intros H. destruct entry as [nm a]. unfold unsilenceStep.
  case_decide; [|done].
  set (am2 := withAlerts am _). set (a' := unsilenceAlert a now).
  destruct (_updateAlertHistory_frame a' am2) as (Hm & _).
  split; [|by rewrite Hm]. unfold bounded. rewrite Hm.
  by apply (_updateAlertHistory_length a' am2).
Qed.

Lemma unsilence_fold_history now silenceId entries am :
  bounded am →
  bounded (foldl (unsilenceStep now silenceId) am entries) ∧
  maxHistorySize (foldl (unsilenceStep now silenceId) am entries) = maxHistorySize am.
Proof.
  revert am. induction entries as [|e entries IH]; intros am H; [done|]. simpl.
  destruct (unsilenceStep_history now silenceId am e H) as [Hb Hm].
  destruct (IH _ Hb) as [Hb' Hm']. split; [done|congruence].
Qed.

Lemma unsilence_history now silenceId am :
  bounded am →
  bounded (unsilence now silenceId am).2 ∧
  maxHistorySize (unsilence now silenceId am).2 = maxHistorySize am.
Proof.
  intros H. unfold unsilence.
  destruct (mapGet silenceId (silencedAlerts am)); [|done]. simpl.
  by apply (unsilence_fold_history now silenceId _ (withSilences am _)).
Qed.

Lemma applyOp_history am op :
  bounded am →
  bounded (applyOp am op) ∧ maxHistorySize (applyOp am op) = maxHistorySize am.
Proof.
  intros H. destruct op; simpl.
  - by apply alert_history.
  - by apply silence_history.
  - by apply unsilence_history.
Qed.

(** X14.  The history is bounded on every manager the API can build: after the
    constructor and any sequence of [alert], [silence] and [unsilence]
    calls it holds at most [maxHistorySize] entries, and
    [maxHistorySize] is what the constructor made of the option (1000
    when it is left out or 0). *)
Theorem history_stays_bounded (maxHistory : option nat) (enabledOpt : option bool)
    (ops : list Op) :
  let am := runOps ops (new maxHistory enabledOpt) in
  (length (alertHistory am) ≤ maxHistorySize am)%nat ∧
  maxHistorySize am = match maxHistory with
                      | Some (S n) => S n
                      | _ => 1000%nat
                      end.
Proof.
  assert (Hgen : ∀ am0, bounded am0 →
            bounded (runOps ops am0) ∧
            maxHistorySize (runOps ops am0) = maxHistorySize am0).
  { unfold runOps. induction ops as [|op ops IH]; intros am0 H; [done|]. simpl.
    destruct (applyOp_history am0 op H) as [Hb Hm].
    destruct (IH _ Hb) as [Hb' Hm']. split; [done|congruence]. }
  destruct (Hgen (new maxHistory enabledOpt)) as [Hb Hm].
  { unfold bounded, new. simpl. lia. }
  simpl. split; [exact Hb|]. by rewrite Hm.
Qed.

(** *** Notifiers *)

Lemma delivered_snoc a log note :
  delivered a (log ++ [note]) = withNotification (delivered a log) note.
Proof. unfold delivered. by rewrite foldl_app. Qed.

Lemma delivered_fields a log :
  id (delivered a log) = id a ∧ name (delivered a log) = name a ∧
  notifications (delivered a log) = notifications a ++ log.
Proof.
  induction log as [|note log IH] using rev_ind.
  - simpl. by rewrite app_nil_r.
  - rewrite delivered_snoc. destruct IH as (Hi & Hn & Hl). simpl.
    rewrite Hl. by rewrite app_assoc.
Qed.

Lemma filter_delivered (n : Notifier) a log :
  (∀ x note, filter n (withNotification x note) = filter n x) →
  filter n (delivered a log) = filter n a.
Proof.
  intros H. induction log as [|note log IH] using rev_ind; [done|].
  by rewrite delivered_snoc, H.
Qed.

Lemma sendLoop_accepting now ns a0 log0 calls :
  (∀ n x note, n ∈ ns → filter n (withNotification x note) = filter n x) →
  ∃ log,
    sendLoop now ns (delivered a0 log0) calls
      = (delivered a0 (log0 ++ log),
         calls ++ zip (map nf_name (accepting ns a0))
                      (map (λ k, delivered a0 (log0 ++ take k log))
                           (seq 0 (length log)))) ∧
    map n_notifier log = map nf_name (accepting ns a0) ∧
    Forall (λ note, n_time note = now) log.
Proof.
  revert log0 calls. induction ns as [|n ns IH]; intros log0 calls Hf.
  - exists []. simpl. by rewrite !app_nil_r.
  - assert (Hf' : ∀ n' x note, n' ∈ ns →
                    filter n' (withNotification x note) = filter n' x).
    { intros n' x note Hin. apply Hf. by right. }
    assert (Hn : filter n (delivered a0 log0) = filter n a0).
    { apply filter_delivered. intros x note. apply Hf. by left. }
    destruct (filter n a0) eqn:Hfa.
    + set (note := match notify n (delivered a0 log0) with
                   | Resolved result => mkNotification (nf_name n) now result None
                   | Rejected msg => mkNotification (nf_name n) now false (Some msg)
                   end).
      destruct (IH (log0 ++ [note]) (calls ++ [(nf_name n, delivered a0 log0)]) Hf')
        as (log & Heq & Hnames & Htimes).
      exists (note :: log).
      assert (Hstep : sendLoop now (n :: ns) (delivered a0 log0) calls
                = sendLoop now ns (delivered a0 (log0 ++ [note]))
                    (calls ++ [(nf_name n, delivered a0 log0)])).
      { cbn [sendLoop]. rewrite Hn. cbn [negb]. rewrite delivered_snoc.
        unfold note. by destruct (notify n (delivered a0 log0)). }
      assert (Hacc : accepting (n :: ns) a0 = n :: accepting ns a0).
      { unfold accepting. simpl. by rewrite Hfa. }
      rewrite Hstep, Hacc, Heq. split_and!.
      * f_equal; [by rewrite <- app_assoc|].
        rewrite <- app_assoc. f_equal. simpl. rewrite app_nil_r. f_equal.
        rewrite <- seq_shift, map_map. f_equal. apply map_ext. intros k.
        by rewrite <- app_assoc.
      * simpl. f_equal; [|done]. unfold note. by destruct (notify n _).
      * constructor; [|done]. unfold note. by destruct (notify n _).
    + destruct (IH log0 calls Hf') as (log & Heq & Hnames & Htimes).
      exists log.
      assert (Hstep : sendLoop now (n :: ns) (delivered a0 log0) calls
                = sendLoop now ns (delivered a0 log0) calls).
      { cbn [sendLoop]. by rewrite Hn. }
      assert (Hacc : accepting (n :: ns) a0 = accepting ns a0).
      { unfold accepting. simpl. by rewrite Hfa. }
      by rewrite Hstep, Hacc, Heq.
Qed.

(** X15.  An alert that is not suppressed reaches every notifier whose filter
    accepts it, once each and in the order the notifiers were added,
    whether or not an earlier notifier failed; each call leaves one entry
    in the alert's delivery log.  The alert is then the active alert of
    its name and the newest entry of the history, with that log; the
    active alerts of other names are untouched.  (The filters are taken
    not to look at the delivery log.) *)
Theorem raised_alert_reaches_notifiers (now : Z) (am : AlertManager)
    (nm msg : string) (sev : AlertSeverity) (lbls : list string)
    (dat : option string) :
  (∀ n x note, n ∈ notifiers am → filter n (withNotification x note) = filter n x) →
  (_isSilenced now nm lbls am).1 = false →
  (0 < maxHistorySize am)%nat →
  let a0 := created now nm msg sev lbls dat in
  let called := accepting (notifiers am) a0 in
  let r := alert now nm msg sev lbls dat am in
  ∃ log,
    r.1 = Some a0 ∧
    map fst (notified r.2) = map fst (notified am) ++ map nf_name called ∧
    map n_notifier log = map nf_name called ∧
    mapGet nm (alerts r.2) = Some (delivered a0 log) ∧
    head (alertHistory r.2) = Some (delivered a0 log) ∧
    (∀ nm', nm' ≠ nm → mapGet nm' (alerts r.2) = mapGet nm' (alerts am)).
Proof.
  intros Hf Hs Hmax a0 called r. subst r. unfold alert.
  unfold _isSilenced in *.
  destruct (isSilencedLoop now nm lbls _ _) as [b m]. simpl in Hs. subst b.
  fold (created now nm msg sev lbls dat). fold a0. cbn [fst snd].
  set (am1 := withAlerts (withSilences am m) (mapSet nm a0 (alerts (withSilences am m)))).
  unfold _sendNotifications.
  destruct (sendLoop_accepting now (notifiers am) a0 [] (notified am) Hf)
    as (log & Heq & Hnames & _).
  change (delivered a0 []) with a0 in Heq.
  change (notifiers (_addToHistory a0 am1)) with (notifiers am).
  change (notified (_addToHistory a0 am1)) with (notified am).
  rewrite Heq. cbn [app].
  set (calls := notified am ++ _).
  change (alerts (withNotified (_addToHistory a0 am1) calls))
    with (mapSet nm a0 (alerts am)).
  change (name a0) with nm. rewrite mapGet_mapSet_eq, decide_True by done.
  exists log.
  destruct (delivered_fields a0 log) as (Hid & _ & _).
  assert (Hhist : ∃ rest, alertHistory (_addToHistory a0 am1) = a0 :: rest).
  { unfold _addToHistory. simpl. case_bool_decide; simpl; [|by eexists].
    destruct (maxHistorySize am) as [|k]; [lia|]. simpl. by eexists. }
  destruct Hhist as [rest Hrest].
  set (am2 := withAlerts _ _).
  assert (Hupd : _updateAlertHistory (delivered a0 log) am2
                 = withHistory am2 (delivered a0 log :: rest)).
  { unfold _updateAlertHistory.
    change (alertHistory am2) with (alertHistory (_addToHistory a0 am1)).
    rewrite Hrest. simpl. by rewrite decide_True. }
  rewrite Hupd. simpl. split_and!; try done.
  - unfold calls. rewrite map_app. f_equal. apply fst_zip.
    rewrite !length_map, length_seq.
    apply (f_equal length) in Hnames. rewrite !length_map in Hnames.
    unfold called. lia.
  - by rewrite mapGet_mapSet_eq.
  - intros nm' Hne. by rewrite !mapGet_mapSet_ne.
Qed.

(** Who hears of what: with the e-mail and the Slack notifier added to
    the built-in logger, an INFO alert reaches the logger only, a WARNING
    the logger and Slack, an ERROR or a CRITICAL all three. *)
Lemma raised_alert_reaches_notifiers_witness :
  let am := addSlackNotifier (λ _, false) (addEmailNotifier (λ _, true) (new None None)) in
  map fst (notified (alert 5 "disk" "full" WARNING [] None am).2) = ["logger"; "slack"] ∧
  map fst (notified (alert 5 "disk" "full" CRITICAL [] None am).2)
    = ["logger"; "email"; "slack"].
Proof.
  intros am.
  assert (Hf : ∀ n x note, n ∈ notifiers am →
                 filter n (withNotification x note) = filter n x).
  { intros n x note Hn. unfold am in Hn. simpl in Hn.
    repeat (apply elem_of_cons in Hn as [->|Hn]; [done|]).
    by apply elem_of_nil in Hn. }
  destruct (raised_alert_reaches_notifiers 5 am "disk" "full" WARNING [] None
              Hf eq_refl ltac:(simpl; lia)) as (log1 & _ & H1 & _).
  destruct (raised_alert_reaches_notifiers 5 am "disk" "full" CRITICAL [] None
              Hf eq_refl ltac:(simpl; lia)) as (log2 & _ & H2 & _).
  split; [exact H1|exact H2].
Defined.

(** *** Lifting a silence *)

Lemma mapGet_mapDelete_eq {V} (k : string) (m : list (string * V)) :
  mapGet k (mapDelete k m) = None.
Proof.
  induction m as [|[k' v] m IH]; simpl; [done|].
  case_decide; [done|]. simpl. by rewrite decide_False.
Qed.

Lemma mapGet_mapDelete_ne {V} (k k' : string) (m : list (string * V)) :
  k ≠ k' → mapGet k' (mapDelete k m) = mapGet k' m.
Proof.
  intros Hne. induction m as [|[k'' v] m IH]; simpl; [done|].
  destruct (decide (k = k'')) as [<-|Hk].
  - by rewrite decide_False by congruence.
  - simpl. by rewrite IH.
Qed.

Lemma mapDelete_absent {V} (k : string) (m : list (string * V)) :
  mapGet k m = None → mapDelete k m = m.
Proof.
  induction m as [|[k' v] m IH]; simpl; [done|].
  case_decide; [done|]. intros Hm. by rewrite IH.
Qed.

Lemma mapDelete_mapSet_absent {V} (k : string) (v : V) (m : list (string * V)) :
  mapGet k m = None → mapDelete k (mapSet k v m) = m.
Proof.
  induction m as [|[k' v'] m IH]; simpl.
  - intros _. by rewrite decide_True.
  - case_decide; [done|]. intros Hm. simpl. rewrite decide_False by done.
    by rewrite IH.
Qed.

Lemma mapSet_keys {V} (k : string) (v v0 : V) (m : list (string * V)) :
  mapGet k m = Some v0 → map fst (mapSet k v m) = map fst m.
Proof.
  induction m as [|[k' v'] m IH]; simpl; [done|].
  case_decide; simpl; [by subst|]. intros Hm. by rewrite IH.
Qed.

Lemma mapGet_absent {V} (k : string) (m : list (string * V)) :
  k ∉ map fst m → mapGet k m = None.
Proof.
  induction m as [|[k' v] m IH]; simpl; [done|].
  intros [Hne Hnot]%not_elem_of_cons. by rewrite decide_False, IH.
Qed.

Lemma unsilenceStep_frame now silenceId am k a :
  silencedAlerts (unsilenceStep now silenceId am (k, a)) = silencedAlerts am ∧
  notified (unsilenceStep now silenceId am (k, a)) = notified am ∧
  alerts (unsilenceStep now silenceId am (k, a))
    = if decide (silencedBy a = Some silenceId)
      then mapSet k (unsilenceAlert a now) (alerts am) else alerts am.
Proof.
  unfold unsilenceStep. case_decide; [|done].
  set (am2 := withAlerts am _).
  destruct (_updateAlertHistory_frame (unsilenceAlert a now) am2) as (_ & Ha & Hs & Hn & _).
  by rewrite Ha, Hs, Hn.
Qed.

Lemma unsilence_fold now silenceId entries am :
  NoDup (map fst entries) →
  let r := foldl (unsilenceStep now silenceId) am entries in
  silencedAlerts r = silencedAlerts am ∧ notified r = notified am ∧
  ∀ nm, mapGet nm (alerts r) =
          match mapGet nm entries with
          | Some a => if decide (silencedBy a = Some silenceId)
                      then Some (unsilenceAlert a now)
                      else mapGet nm (alerts am)
          | None => mapGet nm (alerts am)
          end.
Proof.
  revert am. induction entries as [|[k a] entries IH]; intros am Hnd; [done|].
  simpl in Hnd. apply NoDup_cons in Hnd as [Hk Hnd]. cbn [foldl].
  destruct (unsilenceStep_frame now silenceId am k a) as (Hs & Hn & Ha).
  destruct (IH (unsilenceStep now silenceId am (k, a)) Hnd) as (Hs' & Hn' & Ha').
  split_and!; [congruence|congruence|].
  intros nm. rewrite Ha'. cbn [mapGet]. destruct (decide (nm = k)) as [->|Hne].
  - rewrite (mapGet_absent k entries Hk), Ha.
    case_decide; [by rewrite mapGet_mapSet_eq|done].
  - assert (Hget : mapGet nm (alerts (unsilenceStep now silenceId am (k, a)))
                   = mapGet nm (alerts am)).
    { rewrite Ha. case_decide; [by rewrite mapGet_mapSet_ne|done]. }
    by rewrite Hget.
Qed.

(** X16.  [unsilence] on a manager whose active map has one entry per name, as
    a [Map] does.  An unknown id is refused and nothing changes.  A known
    one is removed from the silence map, the other silences stay, every
    active alert that this silence had silenced is active again and no
    longer refers to it, the other alerts are as before, and no notifier
    is called. *)
Theorem unsilence_lifts_silence (now : Z) (silenceId : string) (am : AlertManager) :
  NoDup (map fst (alerts am)) →
  let r := unsilence now silenceId am in
  match mapGet silenceId (silencedAlerts am) with
  | None => r = (false, am)
  | Some _ =>
      r.1 = true ∧
      mapGet silenceId (silencedAlerts r.2) = None ∧
      (∀ id', id' ≠ silenceId →
         mapGet id' (silencedAlerts r.2) = mapGet id' (silencedAlerts am)) ∧
      (∀ nm, mapGet nm (alerts r.2) = lifted now silenceId <$> mapGet nm (alerts am)) ∧
      notified r.2 = notified am
  end.
Proof.
  intros Hnd r. subst r. unfold unsilence.
  destruct (mapGet silenceId (silencedAlerts am)) as [s|] eqn:Hs; [|done].
  cbn [fst snd].
  set (am1 := withSilences am (mapDelete silenceId (silencedAlerts am))).
  destruct (unsilence_fold now silenceId (alerts am1) am1 Hnd) as (Hsil & Hnot & Hal).
  split_and!; [done| | | |done].
  - rewrite Hsil. apply mapGet_mapDelete_eq.
  - intros id' Hne. rewrite Hsil. by apply mapGet_mapDelete_ne.
  - intros nm. rewrite Hal. change (alerts am1) with (alerts am).
    unfold lifted. destruct (mapGet nm (alerts am)) as [a|]; simpl; [|done].
    by case_decide.
Qed.

Lemma unsilence_lifts_silence_witness :
  let am := (silence 20 "disk" 0 [] "ops" None
               (alert 10 "disk" "full" ERROR ["node1"] None (new None None)).2).2 in
  let r := unsilence 30 "disk_20" am in
  r.1 = true ∧ silencedAlerts r.2 = [] ∧
  (status <$> mapGet "disk" (alerts am)) = Some SILENCED ∧
  (status <$> mapGet "disk" (alerts r.2)) = Some ACTIVE.
Proof.
  intros am r.
  pose proof (unsilence_lifts_silence 30 "disk_20" am) as H.
  assert (Hnd : NoDup (map fst (alerts am))).
  { apply (bool_decide_unpack _). by vm_compute. }
  specialize (H Hnd). cbv zeta in H.
  change (mapGet "disk_20" (silencedAlerts am))
    with (Some (mkSilence "disk_20" "disk" [] 20 0 "ops" None)) in H.
  destruct H as (H1 & _ & _ & H4 & _).
  split_and!; [exact H1|by vm_compute|by vm_compute|].
  unfold r. rewrite H4. by vm_compute.
Defined.

(** X17.  A silence set and lifted again leaves the silence map as it was.  The
    active alert of the silenced name, if its labels matched, ends up
    active ([lastUpdated] at the time of the lifting), whatever its status
    was before; the other alerts are untouched. *)
Theorem silence_unsilence_round_trip (now now' : Z) (nm : string) (duration : Z)
    (lbls : list string) (by_ : string) (msg : option string) (am : AlertManager) :
  NoDup (map fst (alerts am)) →
  mapGet (nm +:+ "_" +:+ pretty now) (silencedAlerts am) = None →
  (∀ nm' a, mapGet nm' (alerts am) = Some a →
     silencedBy a ≠ Some (nm +:+ "_" +:+ pretty now)) →
  let '(silenceId, am1) := silence now nm duration lbls by_ msg am in
  let '(ok, am2) := unsilence now' silenceId am1 in
  silenceId = nm +:+ "_" +:+ pretty now ∧ ok = true ∧
  silencedAlerts am2 = silencedAlerts am ∧
  notified am2 = notified am ∧
  ∀ nm', mapGet nm' (alerts am2) =
           (λ a, if decide (nm' = nm ∧ _labelMatch (labels a) lbls = true)
                 then unsilenceAlert a now' else a) <$> mapGet nm' (alerts am).
Proof.
  intros Hnd Hfresh Hrefs.
  set (sid := nm +:+ "_" +:+ pretty now).
  set (s := {| s_id := sid; s_name := nm; s_labels := lbls; createdAt := now;
               expireAt := if decide (0 < duration) then now + duration else 0;
               s_silencedBy := by_; s_message := msg |}).
  assert (Hsil : ∃ al, silence now nm duration lbls by_ msg am
                   = (sid, al) ∧
                 silencedAlerts al = mapSet sid s (silencedAlerts am) ∧
                 notified al = notified am ∧
                 map fst (alerts al) = map fst (alerts am) ∧
                 ∀ nm', mapGet nm' (alerts al) =
                   (λ a, if decide (nm' = nm ∧ _labelMatch (labels a) lbls = true)
                         then silenceAlert a sid now else a) <$> mapGet nm' (alerts am)).
  { unfold silence. fold sid. fold s.
    set (am1 := withSilences am (mapSet sid s (silencedAlerts am))).
    change (alerts am1) with (alerts am).
    destruct (mapGet nm (alerts am)) as [a|] eqn:Ha.
    - destruct (_labelMatch (labels a) lbls) eqn:Hl.
      + eexists. split; [done|].
        set (am2 := withAlerts am1 _).
        destruct (_updateAlertHistory_frame (silenceAlert a sid now) am2)
          as (_ & Hal & Hsi & Hno & _).
        rewrite Hal, Hsi, Hno. split_and!; try done.
        * simpl. by apply (mapSet_keys nm _ a).
        * intros nm'. simpl. destruct (decide (nm' = nm)) as [->|Hne].
          -- rewrite mapGet_mapSet_eq, Ha. simpl.
             by rewrite decide_True by done.
          -- rewrite mapGet_mapSet_ne by done.
             destruct (mapGet nm' (alerts am)); simpl; [|done].
             by rewrite decide_False by (by intros [? _]).
      + eexists. split; [done|]. split_and!; try done.
        intros nm'. destruct (mapGet nm' (alerts am)) as [a'|] eqn:Ha'; simpl; [|done].
        case_decide as Hc; [|done]. destruct Hc as [-> Hc]. congruence.
    - eexists. split; [done|]. split_and!; try done.
      intros nm'. destruct (mapGet nm' (alerts am)) as [a'|] eqn:Ha'; simpl; [|done].
      case_decide as Hc; [|done]. destruct Hc as [-> Hc]. congruence. }
  destruct Hsil as (al & -> & Hs1 & Hn1 & Hk1 & Ha1).
  unfold unsilence. rewrite Hs1, mapGet_mapSet_eq.
  set (am1 := withSilences al _).
  destruct (unsilence_fold now' sid (alerts am1) am1) as (Hsil & Hnot & Hal).
  { change (alerts am1) with (alerts al). by rewrite Hk1. }
  split_and!; try done.
  - rewrite Hsil. simpl. by apply mapDelete_mapSet_absent.
  - by rewrite Hnot.
  - intros nm'. rewrite Hal. change (alerts am1) with (alerts al). rewrite Ha1.
    destruct (mapGet nm' (alerts am)) as [a|] eqn:Ha; simpl; [|done].
    destruct (decide (nm' = nm ∧ _labelMatch (labels a) lbls = true)) as [Hc|Hc].
    + by rewrite decide_True by done.
    + rewrite decide_False; [done|]. by apply (Hrefs nm').
Qed.

Lemma silence_unsilence_round_trip_witness :
  let am := (alert 10 "disk" "full" ERROR ["node1"] None (new None None)).2 in
  let am2 := (unsilence 30 "disk_20" (silence 20 "disk" 0 [] "ops" None am).2).2 in
  silencedAlerts am2 = silencedAlerts am ∧ notified am2 = notified am.
Proof.
  intros am am2. subst am2.
  pose proof (silence_unsilence_round_trip 20 30 "disk" 0 [] "ops" None am) as H.
  assert (Hnd : NoDup (map fst (alerts am))).
  { apply (bool_decide_unpack _). by vm_compute. }
  assert (Hrefs : ∀ nm' a, mapGet nm' (alerts am) = Some a →
                    silencedBy a ≠ Some ("disk" +:+ "_" +:+ pretty 20)).
  { intros nm' a Ha%mapGet_Some_In. unfold am in Ha. vm_compute in Ha.
    destruct Ha as [[= <- <-]|[]]. done. }
  specialize (H Hnd eq_refl Hrefs).
  destruct (silence 20 "disk" 0 [] "ops" None am) as [sid al].
  destruct (unsilence 30 sid al) as [ok am2'] eqn:Hu.
  destruct H as (-> & _ & H3 & H4 & _).
  change ("disk" +:+ "_" +:+ pretty 20) with "disk_20" in Hu.
  cbn [snd]. rewrite Hu. by split.
Defined.

(** *** Querying the history *)

Lemma insertByTimestamp_perm a l : insertByTimestamp a l ≡ₚ a :: l.
Proof.
  induction l as [|b l IH]; simpl; [done|].
  case_decide; [done|]. rewrite IH. apply Permutation_swap.
Qed.

Lemma sortByTimestamp_perm l : sortByTimestamp l ≡ₚ l.
Proof.
  induction l as [|a l IH]; simpl; [done|].
  by rewrite insertByTimestamp_perm, IH.
Qed.

Lemma insertByTimestamp_sorted a l :
  StronglySorted newerOrSame l → StronglySorted newerOrSame (insertByTimestamp a l).
Proof.
  induction 1 as [|b l Hs IH Hb]; simpl.
  - repeat constructor.
  - case_decide as Hc.
    + constructor; [by constructor|]. constructor; [done|].
      eapply Forall_impl; [exact Hb|]. unfold newerOrSame. intros c Hcb. lia.
    + constructor; [done|]. rewrite insertByTimestamp_perm.
      constructor; [unfold newerOrSame; lia|done].
Qed.

Lemma sortByTimestamp_sorted l : StronglySorted newerOrSame (sortByTimestamp l).
Proof.
  induction l as [|a l IH]; simpl; [constructor|].
  by apply insertByTimestamp_sorted.
Qed.

Lemma take_sorted n (l : list Alert) :
  StronglySorted newerOrSame l →
  StronglySorted newerOrSame (take n l) ∧
  ∀ a b, a ∈ take n l → b ∈ drop n l → newerOrSame a b.
Proof.
  intros Hs. rewrite <- (take_drop n l) in Hs. split.
  - by apply StronglySorted_app_1_l in Hs.
  - intros a b Ha Hb. by apply (StronglySorted_app_1_elem_of _ _ _ _ _ Hs).
Qed.

(** X18.  [getAlertHistory] returns entries of the history that pass every
    filter given, newest first; without a (positive) limit all of them,
    with one the [limit] newest. *)
Theorem history_query (options : HistoryOptions) (am : AlertManager) :
  let all := List.filter (selected options) (alertHistory am) in
  let r := getAlertHistory options am in
  StronglySorted newerOrSame r ∧
  (∀ a, a ∈ r → a ∈ alertHistory am ∧ selected options a = true) ∧
  (∃ rest, r ++ rest ≡ₚ all ∧ ∀ a b, a ∈ r → b ∈ rest → newerOrSame a b) ∧
  length r = match truthyZ (o_limit options) with
             | Some limit => if decide (0 < limit)
                             then Nat.min (Z.to_nat limit) (length all)
                             else length all
             | None => length all
             end.
Proof.
  intros all r. subst r. unfold getAlertHistory. fold all.
  pose proof (sortByTimestamp_sorted all) as Hs.
  pose proof (sortByTimestamp_perm all) as Hp.
  assert (Hin : ∀ l : list Alert, (∀ a, a ∈ l → a ∈ sortByTimestamp all) →
            ∀ a, a ∈ l → a ∈ alertHistory am ∧ selected options a = true).
  { intros l Hl a Ha%Hl. rewrite Hp in Ha. unfold all in Ha.
    apply list_elem_of_In, filter_In in Ha as [Ha Hsel].
    by apply list_elem_of_In in Ha. }
  assert (Hall : StronglySorted newerOrSame (sortByTimestamp all) ∧
            (∀ a, a ∈ sortByTimestamp all →
               a ∈ alertHistory am ∧ selected options a = true) ∧
            (∃ rest, sortByTimestamp all ++ rest ≡ₚ all ∧
               ∀ a b, a ∈ sortByTimestamp all → b ∈ rest → newerOrSame a b) ∧
            length (sortByTimestamp all) = length all).
  { split_and!; [done|by apply Hin| |by rewrite Hp].
    exists []. rewrite app_nil_r. split; [done|].
    intros a b _ Hb. by apply elem_of_nil in Hb. }
  destruct (truthyZ (o_limit options)) as [limit|]; [|exact Hall].
  case_decide; [|exact Hall].
  destruct (take_sorted (Z.to_nat limit) _ Hs) as [Hts Hcross].
  split_and!; [done| | |].
  - apply Hin. intros a Ha.
    rewrite <- (take_drop (Z.to_nat limit) (sortByTimestamp all)).
    apply elem_of_app. by left.
  - exists (drop (Z.to_nat limit) (sortByTimestamp all)).
    by rewrite take_drop.
  - by rewrite length_take, Hp.
Qed.

(** A start time of 0 is no filter at all, and a limit keeps the newest. *)
Example history_query_newest :
  let am := runOps [Raise 1 "a" "m" INFO [] None; Raise 2 "b" "m" ERROR [] None;
                    Raise 3 "c" "m" INFO [] None] (new None None) in
  map name (getAlertHistory (mkHistoryOptions (Some 2) None None None (Some 0) None) am)
    = ["c"; "b"] ∧
  map name (getAlertHistory (mkHistoryOptions None (Some INFO) None None None (Some 2)) am)
    = ["a"].
Proof. by vm_compute. Qed.

(** With a bound of 2, the third alert pushes the first one out. *)
Example history_drops_oldest :
  let am := runOps [Raise 1 "a" "m" INFO [] None; Raise 2 "b" "m" INFO [] None;
                    Raise 3 "c" "m" INFO [] None] (new (Some 2%nat) None) in
  map name (alertHistory am) = ["c"; "b"].
Proof. by vm_compute. Qed.

End AlertOpsFacts.

(** ** Message processor: further properties *)
Module MsgProcOpsFacts.
Import MsgProc MsgProcFacts MsgProcOps.

Lemma invocations_app ty tr1 tr2 :
  invocations ty (tr1 ++ tr2) = (invocations ty tr1 + invocations ty tr2)%nat.
Proof. unfold invocations. by rewrite List.filter_app, length_app. Qed.

Lemma sleeps_app tr1 tr2 : sleeps (tr1 ++ tr2) = sleeps tr1 ++ sleeps tr2.
Proof. unfold sleeps. apply omap_app. Qed.

Lemma calculateRetryDelay_le mp a : calculateRetryDelay mp a ≤ 30000.
Proof. unfold calculateRetryDelay. lia. Qed.

(** What every completed [processFuel] leaves behind. *)
Lemma processFuel_effects fuel now message mp r mp' :
  processFuel fuel now message mp = Some (r, mp') →
  processingMessages mp' = processingMessages mp ∧
  handlers mp' = handlers mp ∧
  maxRetries mp' = maxRetries mp ∧ retryDelay mp' = retryDelay mp ∧
  timeout mp' = timeout mp ∧
  ∃ evs, trace mp' = trace mp ++ evs ∧
    (∀ ty, (invocations ty evs ≤ attemptBudget mp message)%nat) ∧
    (length (sleeps evs) < attemptBudget mp message)%nat ∧
    Forall (λ ms, ms ≤ 30000) (sleeps evs) ∧
    match r with
    | Returned result =>
        ∃ i, truthy (id message) = Some i ∧ last evs = Some (Processed i result)
    | Thrown error =>
        (evs = [] ∧ ¬ admitted mp message) ∨
        ∃ i a, truthy (id message) = Some i ∧ last evs = Some (Failed i error a)
    end.
Proof.
  revert now message mp r mp'.
  induction fuel as [|fuel IH]; intros now message mp r mp'; [done|].
  assert (Hpos : (0 < attemptBudget mp message)%nat) by (unfold attemptBudget; lia).
  assert (Hnone : ¬ admitted mp message → ∀ e, Some (Thrown e, mp) = Some (r, mp') →
            processingMessages mp' = processingMessages mp ∧
            handlers mp' = handlers mp ∧
            maxRetries mp' = maxRetries mp ∧ retryDelay mp' = retryDelay mp ∧
            timeout mp' = timeout mp ∧
            ∃ evs, trace mp' = trace mp ++ evs ∧
              (∀ ty, (invocations ty evs ≤ attemptBudget mp message)%nat) ∧
              (length (sleeps evs) < attemptBudget mp message)%nat ∧
              Forall (λ ms, ms ≤ 30000) (sleeps evs) ∧
              match r with
              | Returned result =>
                  ∃ i, truthy (id message) = Some i ∧
                       last evs = Some (Processed i result)
              | Thrown error =>
                  (evs = [] ∧ ¬ admitted mp message) ∨
                  ∃ i a, truthy (id message) = Some i ∧
                         last evs = Some (Failed i error a)
              end).
  { intros Hna e [= <- <-]. split_and!; try done. exists [].
    rewrite app_nil_r. split_and!; [done| | |by constructor|by left].
    - intros ty. unfold invocations. simpl. lia.
    - simpl. lia. }
  destruct (truthy (id message)) as [i|] eqn:Hi.
  2:{ simpl. rewrite Hi. apply Hnone. intros (? & ? & ? & ? & _). congruence. }
  destruct (truthy (type message)) as [t|] eqn:Ht.
  2:{ simpl. rewrite Hi, Ht. apply Hnone. intros (? & ? & ? & _ & ? & _). congruence. }
  destruct (processingMessages mp !! i) as [info|] eqn:Hp.
  { simpl. rewrite Hi, Ht, decide_True by (rewrite Hp; by eexists). apply Hnone.
    intros (? & ? & ? & ? & _ & ? & _). congruence. }
  destruct (handlers mp !! t) as [handler|] eqn:Hh.
  2:{ simpl. rewrite Hi, Ht, Hh, decide_False by (rewrite Hp; by intros [? ?]).
      apply Hnone. intros (? & ? & ? & _ & ? & _ & ?). congruence. }
  clear Hnone.
  destruct (failure i (handler (invocations t (trace mp)) (data message)))
    as [error|] eqn:Hfail.
  - rewrite (processFuel_failed _ _ _ _ _ _ _ _ Hi Ht Hp Hh Hfail).
    set (a := S (default 0%nat (attempts message))).
    set (delay := calculateRetryDelay mp a).
    case_bool_decide as Hlt.
    + intros Hrec. apply IH in Hrec.
      destruct Hrec as (Hpm & Hha & Hmr & Hrd & Hto & evs & Htr & Hinv & Hsl & Hle & Hres).
      simpl in Hpm, Hha, Hmr, Hrd, Hto, Htr.
      assert (Hbud : (S (attemptBudget
                  (record [Invoked t (data message); Retry i error a delay; Slept delay] mp)
                  (withAttempts message a)) ≤ attemptBudget mp message)%nat).
      { unfold attemptBudget. simpl. fold a. unfold a in *. lia. }
      split_and!; try done.
      exists ([Invoked t (data message); Retry i error a delay; Slept delay] ++ evs).
      split_and!.
      * by rewrite Htr, <- app_assoc.
      * intros ty. rewrite invocations_app. specialize (Hinv ty).
        assert (invocations ty [Invoked t (data message); Retry i error a delay;
                                Slept delay] ≤ 1)%nat.
        { unfold invocations. simpl. case_bool_decide; simpl; lia. }
        lia.
      * rewrite sleeps_app. simpl. lia.
      * rewrite sleeps_app. simpl. constructor; [apply calculateRetryDelay_le|done].
      * destruct r as [result|err].
        -- destruct Hres as (i' & Hi' & Hlast). simpl in Hi'. exists i'.
           split; [congruence|]. rewrite last_app, Hlast. done.
        -- destruct Hres as [[_ Hna]|(i' & a' & Hi' & Hlast)].
           ++ exfalso. apply Hna. by exists i, t, handler.
           ++ right. exists i', a'. simpl in Hi'. split; [congruence|].
              by rewrite last_app, Hlast.
    + intros [= <- <-]. simpl. split_and!; try done.
      exists [Invoked t (data message); Failed i error a].
      split_and!; try done.
      * intros ty. unfold invocations. simpl. case_bool_decide; simpl; lia.
      * right. by exists i, a.
  - simpl. rewrite Hi, Ht, Hh, decide_False by (rewrite Hp; by intros [? ?]).
    simpl. destruct (handler _ _) as [result| |] eqn:Ho; try done.
    intros [= <- <-]. simpl.
    rewrite delete_insert_id by done. split_and!; try done.
    exists [Invoked t (data message); Processed i result].
    split_and!; try done.
    + by rewrite <- app_assoc.
    + intros ty. unfold invocations. simpl. case_bool_decide; simpl; lia.
    + by exists i.
Qed.

(** X19.  [process] always gives the processor back as it found it: when it
    returns or throws, the in-flight map, the handlers and the options
    are what they were, whether the message was rejected, handled at
    once, retried, or given up on; only the trace of what was done has
    grown. *)
Theorem process_restores_processor (now : Z) (message : Message)
    (mp : MessageProcessor) :
  ∃ r mp',
    process now message mp = Some (r, mp') ∧
    processingMessages mp' = processingMessages mp ∧
    handlers mp' = handlers mp ∧
    maxRetries mp' = maxRetries mp ∧ retryDelay mp' = retryDelay mp ∧
    timeout mp' = timeout mp ∧
    trace mp `prefix_of` trace mp'.
Proof.
  destruct (processFuel_total (fuelFor mp message) now message mp) as [[r mp'] Hr].
  { unfold fuelFor. lia. }
  exists r, mp'. split; [exact Hr|].
  destruct (processFuel_effects _ _ _ _ _ _ Hr)
    as (Hpm & Hha & Hmr & Hrd & Hto & evs & Htr & _).
  split_and!; try done. rewrite Htr. by apply prefix_app_r.
Qed.

(** X20.  One [process] does a bounded amount of work.  It calls handlers at
    most [max(1, maxRetries - attempts)] times, sleeps fewer times than
    that, never for more than 30 s at a time, and ends on exactly one
    outcome event: [processed] with the result it returns, or [failed]
    with the error it throws; it throws without any event only when the
    message was rejected before the handler was called. *)
Theorem process_work_is_bounded (now : Z) (message : Message)
    (mp : MessageProcessor) :
  ∃ r mp' evs,
    process now message mp = Some (r, mp') ∧
    trace mp' = trace mp ++ evs ∧
    (∀ ty, (invocations ty evs ≤ attemptBudget mp message)%nat) ∧
    (length (sleeps evs) < attemptBudget mp message)%nat ∧
    Forall (λ ms, ms ≤ 30000) (sleeps evs) ∧
    match r with
    | Returned result =>
        ∃ i, truthy (id message) = Some i ∧ last evs = Some (Processed i result)
    | Thrown error =>
        (evs = [] ∧ ¬ admitted mp message) ∨
        ∃ i a, truthy (id message) = Some i ∧ last evs = Some (Failed i error a)
    end.
Proof.
  destruct (processFuel_total (fuelFor mp message) now message mp) as [[r mp'] Hr].
  { unfold fuelFor. lia. }
  destruct (processFuel_effects _ _ _ _ _ _ Hr)
    as (_ & _ & _ & _ & _ & evs & Htr & Hinv & Hsl & Hle & Hres).
  by exists r, mp', evs.
Qed.

(** With the default options a handler that always times out is called
    three times, with sleeps of 1 s and 2 s in between. *)
Example always_timing_out :
  let mp := registerHandler "t" (λ _ _, Pending) (new None None None) in
  ∃ mp', process 0 (mkMessage (Some "j1") (Some "t") "{}" None) mp
           = Some (Thrown (ProcessingTimeout "j1"), mp') ∧
         invocations "t" (trace mp') = 3%nat ∧ sleeps (trace mp') = [1000; 2000].
Proof. eexists. split; by vm_compute. Qed.

(** X21.  [cleanupTimedOutMessages] evicts exactly the entries that have been in
    flight for longer than [timeout].  A message whose entry was evicted
    is no longer rejected as a duplicate; one whose entry is still within
    its time goes on being rejected. *)
Theorem eviction_unblocks (now : Z) (mp : MessageProcessor) (i : string)
    (info : ProcessingInfo) :
  processingMessages mp !! i = Some info →
  let '(evicted, mp') := cleanupTimedOutMessages now mp in
  handlers mp' = handlers mp ∧ trace mp' = trace mp ∧
  if decide (timedOut now mp info)
  then evicted !! i = Some info ∧ processingMessages mp' !! i = None ∧
       ∀ now' message r mp'',
         truthy (id message) = Some i →
         process now' message mp' = Some (r, mp'') →
         r ≠ Thrown (AlreadyProcessing i)
  else evicted !! i = None ∧ processingMessages mp' !! i = Some info ∧
       ∀ now' message t,
         truthy (id message) = Some i → truthy (type message) = Some t →
         process now' message mp' = Some (Thrown (AlreadyProcessing i), mp').
Proof.
  intros Hi. unfold cleanupTimedOutMessages. split_and!; [done..|].
  case_decide as Hto.
  - split_and!.
    + apply map_lookup_filter_Some. by split.
    + simpl. apply map_lookup_filter_None. right. intros info' Hi' Hn.
      simpl in Hn. apply Hn. congruence.
    + intros now' message r mp'' Hid Hr.
      eapply (processFuel_not_duplicate _ _ _ _ _ _ _ Hid); [|exact Hr].
      simpl. apply map_lookup_filter_None. right. intros info' Hi' Hn.
      simpl in Hn. apply Hn. congruence.
  - assert (Hkeep : filter (λ kv, ¬ timedOut now mp kv.2) (processingMessages mp) !! i
                    = Some info).
    { apply map_lookup_filter_Some. by split. }
    split_and!.
    + apply map_lookup_filter_None. right. intros info' Hi' Hn.
      simpl in Hn. apply Hto. congruence.
    + done.
    + intros now' message t Hid Hty. unfold process, fuelFor. simpl.
      rewrite Hid, Hty. rewrite decide_True; [done|]. by rewrite Hkeep.
Qed.

Lemma eviction_unblocks_witness :
  let mp := {| maxRetries := 3; retryDelay := 1000; timeout := 30000;
               processingMessages := <["j1" := mkInfo 0 1]> ∅;
               handlers := <["t" := flaky]> ∅; trace := [] |} in
  processingMessages (cleanupTimedOutMessages 30001 mp).2 !! "j1" = None ∧
  processingMessages (cleanupTimedOutMessages 30000 mp).2 !! "j1" = Some (mkInfo 0 1).
Proof.
  intros mp.
  pose proof (eviction_unblocks 30001 mp "j1" (mkInfo 0 1) eq_refl) as H1.
  pose proof (eviction_unblocks 30000 mp "j1" (mkInfo 0 1) eq_refl) as H2.
  destruct (cleanupTimedOutMessages 30001 mp) as [e1 mp1].
  destruct (cleanupTimedOutMessages 30000 mp) as [e2 mp2].
  destruct H1 as (_ & _ & H1). destruct H2 as (_ & _ & H2).
  rewrite decide_True in H1 by (unfold timedOut; simpl; lia).
  rewrite decide_False in H2 by (unfold timedOut; simpl; lia).
  split; [apply H1|apply H2].
Defined.

End MsgProcOpsFacts.

(** ** Dead-letter queue: further properties *)
Module DLQBatchFacts.
Import DLQ DLQFacts DLQBatch.

(** What one [retryMessage] does to the queue, whatever it returns. *)
Lemma retryMessage_effects now messageId options q :
  let r := (retryMessage now messageId options q).1 in
  let q' := (retryMessage now messageId options q).2 in
  maxRetries q' = maxRetries q ∧ ttl q' = ttl q ∧
  addRejects q' = addRejects q ∧ updateRejects q' = updateRejects q ∧
  (∃ added, enqueued q' = enqueued q ++ added ∧
     (r = Returned true → length added = 1%nat) ∧
     (r = Returned false → added = []) ∧
     (updateRejects q = None → r ≠ Returned true → added = []) ∧
     (length added ≤ 1)%nat) ∧
  (dlqJobs q' = dlqJobs q ∨
   ∃ d d', dlqJobs q !! dlqJobId messageId = Some d ∧
     effectiveRetryCount d < maxRetries q ∧
     effectiveRetryCount d' = effectiveRetryCount d + 1 ∧
     dlqJobs q' = <[dlqJobId messageId := d']> (dlqJobs q)).
Proof.
  assert (Hnil : ∀ r : Result, r ≠ Returned true →
    ∃ added, enqueued q = enqueued q ++ added ∧
      (r = Returned true → length added = 1%nat) ∧
      (r = Returned false → added = []) ∧
      (updateRejects q = None → r ≠ Returned true → added = []) ∧
      (length added ≤ 1)%nat).
  { intros r Hr. exists []. rewrite app_nil_r. split_and!; try done. simpl. lia. }
  unfold retryMessage.
  destruct (dlqJobs q !! dlqJobId messageId) as [d|] eqn:Hd; cbn [fst snd].
  2:{ split_and!; try done; [by apply Hnil|by left]. }
  destruct (originalMessage d) as [original|]; cbn [fst snd].
  2:{ split_and!; try done; [by apply Hnil|by left]. }
  case_decide as Hcap; cbn [fst snd].
  { split_and!; try done; [by apply Hnil|by left]. }
  destruct (addRejects q (targetQueueName d)) as [e|]; cbn [fst snd].
  { split_and!; try done; [by apply Hnil|by left]. }
  destruct (updateRejects q) as [e|] eqn:Hu; cbn [fst snd].
  - simpl. rewrite Hu. split_and!; try done; [|by left]. eexists. split; [done|].
    split_and!; try done.
  - simpl. rewrite Hu. split_and!; try done.
    + eexists. split; [done|]. split_and!; try done.
    + right. eexists d, _. split_and!; [done|lia| |done]. done.
Qed.

Lemma retryStep_effects now filters r q job :
  let r' := (retryStep now filters (r, q) job).1 in
  let q' := (retryStep now filters (r, q) job).2 in
  total r' = total r ∧
  (succeeded r' + failed r' + skipped r' = S (succeeded r + failed r + skipped r))%nat ∧
  maxRetries q' = maxRetries q ∧ ttl q' = ttl q ∧
  addRejects q' = addRejects q ∧ updateRejects q' = updateRejects q ∧
  (∃ added, enqueued q' = enqueued q ++ added ∧
     (succeeded r' - succeeded r ≤ length added)%nat ∧
     (length added ≤ (succeeded r' - succeeded r) + (failed r' - failed r))%nat ∧
     (updateRejects q = None → length added = (succeeded r' - succeeded r)%nat)) ∧
  (succeeded r ≤ succeeded r')%nat ∧ (failed r ≤ failed r')%nat ∧
  (dlqJobs q' = dlqJobs q ∨
   ∃ jobId d d', dlqJobs q !! jobId = Some d ∧
     effectiveRetryCount d < maxRetries q ∧
     effectiveRetryCount d' = effectiveRetryCount d + 1 ∧
     dlqJobs q' = <[jobId := d']> (dlqJobs q)).
Proof.
  assert (Hskip : ∃ added, enqueued q = enqueued q ++ added ∧
     (succeeded (skip r) - succeeded r ≤ length added)%nat ∧
     (length added ≤ (succeeded (skip r) - succeeded r)
                     + (failed (skip r) - failed r))%nat ∧
     (updateRejects q = None → length added = (succeeded (skip r) - succeeded r)%nat)).
  { exists []. rewrite app_nil_r. simpl. split_and!; try done; lia. }
  unfold retryStep.
  destruct (j_data job ≫= originalMessage) as [original|]; cbn [fst snd].
  2:{ split_and!; try done; try (simpl; lia); try (by left); try exact Hskip. }
  case_decide; cbn [fst snd].
  { split_and!; try done; try (simpl; lia); try (by left); try exact Hskip. }
  destruct (_shouldSkipRetry now (j_data job) filters); cbn [fst snd].
  { split_and!; try done; try (simpl; lia); try (by left); try exact Hskip. }
  pose proof (retryMessage_effects now (m_id original) noOptions q) as Heff.
  cbv zeta in Heff.
  destruct (retryMessage now (m_id original) noOptions q) as [res q1].
  cbn [fst snd] in Heff.
  destruct Heff as (Hm & Ht & Ha & Hu & (added & He & H1 & H0 & Hn & Hle) & Hjobs).
  assert (Hj : dlqJobs q1 = dlqJobs q ∨
               ∃ jobId d d', dlqJobs q !! jobId = Some d ∧
                 effectiveRetryCount d < maxRetries q ∧
                 effectiveRetryCount d' = effectiveRetryCount d + 1 ∧
                 dlqJobs q1 = <[jobId := d']> (dlqJobs q)).
  { destruct Hjobs as [|(d & d' & ?)]; [by left|right]. by eexists _, d, d'. }
  destruct res as [[]|e]; cbn [fst snd]; simpl.
  - specialize (H1 eq_refl). split_and!; try done; try lia.
    exists added. split_and!; try done; lia.
  - specialize (H0 eq_refl). subst added. split_and!; try done; try lia.
    exists []. simpl. split_and!; try done; lia.
  - split_and!; try done; try lia.
    exists added. split_and!; try done; try lia.
    intros Hnone. rewrite (Hn Hnone) by done. simpl. lia.
Qed.

Lemma retryBatch_effects now filters jobs r q :
  let r' := (foldl (retryStep now filters) (r, q) jobs).1 in
  let q' := (foldl (retryStep now filters) (r, q) jobs).2 in
  total r' = total r ∧
  (succeeded r' + failed r' + skipped r'
   = succeeded r + failed r + skipped r + length jobs)%nat ∧
  maxRetries q' = maxRetries q ∧ ttl q' = ttl q ∧
  addRejects q' = addRejects q ∧ updateRejects q' = updateRejects q ∧
  (∃ added, enqueued q' = enqueued q ++ added ∧
     (succeeded r' - succeeded r ≤ length added)%nat ∧
     (length added ≤ (succeeded r' - succeeded r) + (failed r' - failed r))%nat ∧
     (updateRejects q = None → length added = (succeeded r' - succeeded r)%nat)) ∧
  (succeeded r ≤ succeeded r')%nat ∧ (failed r ≤ failed r')%nat ∧
  (withinCap q → withinCap q') ∧
  (∀ jobId d, dlqJobs q !! jobId = Some d →
     ∃ d', dlqJobs q' !! jobId = Some d' ∧
           effectiveRetryCount d ≤ effectiveRetryCount d').
Proof.
  revert r q. induction jobs as [|job jobs IH]; intros r q; cbn [foldl].
  - cbn [fst snd]. split_and!; try done; try (simpl; lia).
    + exists []. rewrite app_nil_r. simpl. split_and!; try done; lia.
    + intros jobId d Hd. exists d. split; [done|lia].
  - pose proof (retryStep_effects now filters r q job) as Hstep. cbv zeta in Hstep.
    destruct (retryStep now filters (r, q) job) as [r1 q1]. cbn [fst snd] in Hstep.
    destruct Hstep as (Ht1 & Hs1 & Hm1 & Htt1 & Ha1 & Hu1 & (add1 & He1 & Hlo1 & Hhi1 & Hex1)
                       & Hsm1 & Hfm1 & Hj1).
    specialize (IH r1 q1). cbv zeta in IH.
    destruct (foldl (retryStep now filters) (r1, q1) jobs) as [r2 q2].
    cbn [fst snd] in *.
    destruct IH as (Ht2 & Hs2 & Hm2 & Htt2 & Ha2 & Hu2 & (add2 & He2 & Hlo2 & Hhi2 & Hex2)
                    & Hsm2 & Hfm2 & Hcap2 & Hkeep2).
    split_and!; try congruence; try lia.
    + simpl. lia.
    + exists (add1 ++ add2). rewrite He2, He1, <- app_assoc, length_app.
      split_and!; try done; try lia.
      intros Hnone. rewrite Hex1 by done. rewrite Hex2 by congruence. lia.
    + intros Hcap. apply Hcap2. intros jobId' d0 Hd0. rewrite Hm1.
      destruct Hj1 as [Heq|(jobId & d & d' & Hd & Hlt & Hc & Heq)];
        rewrite Heq in Hd0.
      * by apply (Hcap jobId').
      * destruct (decide (jobId = jobId')) as [<-|Hne].
        -- rewrite lookup_insert_eq in Hd0. injection Hd0 as <-. lia.
        -- rewrite lookup_insert_ne in Hd0 by done. by apply (Hcap jobId').
    + intros jobId d Hd.
      assert (Hmid : ∃ d1, dlqJobs q1 !! jobId = Some d1 ∧
                           effectiveRetryCount d ≤ effectiveRetryCount d1).
      { destruct Hj1 as [Heq|(jobId0 & d0 & d' & Hd0 & Hlt & Hc & Heq)]; rewrite Heq.
        - exists d. split; [done|lia].
        - destruct (decide (jobId0 = jobId)) as [->|Hne].
          + rewrite lookup_insert_eq. exists d'. split; [done|].
            assert (d0 = d) as -> by congruence. lia.
          + rewrite lookup_insert_ne by done. exists d. split; [done|lia]. }
      destruct Hmid as (d1 & Hd1 & Hle1).
      destruct (Hkeep2 jobId d1 Hd1) as (d2 & Hd2 & Hle2).
      exists d2. split; [done|lia].
Qed.

(** X22.  [retryBatch] accounts for every job it was given, once: the counts of
    retried, failed and skipped jobs add up to [total], the number of
    jobs.  Every job counted as retried has put one job on another queue,
    and only jobs counted as retried or failed have; when the store
    accepts every update, exactly the retried ones. *)
Theorem retryBatch_accounts_for_every_job (now : Z) (jobs : list Job)
    (filters : Filters) (q : DeadLetterQueue) :
  let '(r, q') := retryBatch now jobs filters q in
  total r = length jobs ∧
  (succeeded r + failed r + skipped r = total r)%nat ∧
  ∃ added, enqueued q' = enqueued q ++ added ∧
    (succeeded r ≤ length added ≤ succeeded r + failed r)%nat ∧
    (updateRejects q = None → length added = succeeded r).
Proof.
  unfold retryBatch.
  pose proof (retryBatch_effects now filters jobs
                {| total := length jobs; succeeded := 0; failed := 0; skipped := 0 |} q)
    as H.
  cbv zeta in H. destruct (foldl _ _ jobs) as [r q']. cbn [fst snd] in H.
  destruct H as (Ht & Hs & _ & _ & _ & _ & (added & He & Hlo & Hhi & Hex) & _).
  simpl in *. split_and!; [done|lia|].
  exists added. split_and!; try done; try lia.
  intros Hnone. rewrite Hex by done. lia.
Qed.

(** X23.  [retryBatch] keeps the cap: if no stored record has been retried more
    often than [maxRetries] before the batch, none has after it, whatever
    the jobs listed (a message listed twice is retried twice, while the
    cap allows).  No record is lost, and no retry count goes down. *)
Theorem retryBatch_keeps_cap (now : Z) (jobs : list Job) (filters : Filters)
    (q : DeadLetterQueue) :
  withinCap q →
  let q' := (retryBatch now jobs filters q).2 in
  withinCap q' ∧ maxRetries q' = maxRetries q ∧
  ∀ jobId d, dlqJobs q !! jobId = Some d →
    ∃ d', dlqJobs q' !! jobId = Some d' ∧
          effectiveRetryCount d ≤ effectiveRetryCount d'.
Proof.
  intros Hcap. unfold retryBatch.
  pose proof (retryBatch_effects now filters jobs
                {| total := length jobs; succeeded := 0; failed := 0; skipped := 0 |} q)
    as H.
  cbv zeta in H.
  destruct H as (_ & _ & Hm & _ & _ & _ & _ & _ & _ & Hc & Hk).
  split_and!; [by apply Hc|done|done].
Qed.

Lemma retryBatch_keeps_cap_witness :
  let job := mkJob "dlq:m1" 0 (Some (s5Record 0 None (Some 1800000))) in
  let q' := (retryBatch 5 [job; job; job; job; job] noFilters s5Queue).2 in
  withinCap q' ∧
  (effectiveRetryCount <$> dlqJobs q' !! "dlq:m1") = Some 3 ∧
  length (enqueued q') = 3%nat.
Proof.
  intros job q'.
  assert (Hcap : withinCap s5Queue).
  { intros jobId d Hd.
    change (dlqJobs s5Queue)
      with (<["dlq:m1" := s5Record 0 None (Some 1800000)]>
              (∅ : gmap string DeadLetterMessage)) in Hd.
    apply lookup_insert_Some in Hd as [[_ <-]|[_ Hd]]; [by vm_compute|].
    by rewrite lookup_empty in Hd. }
  destruct (retryBatch_keeps_cap 5 [job; job; job; job; job] noFilters s5Queue Hcap)
    as (H1 & _ & _).
  split; [exact H1|]. by vm_compute.
Defined.

(** X24.  [retryBatch] and [retryMessage] disagree on a record without [meta]:
    the batch skips it (its filter test answers "skip" for it whatever
    the filters), while [retryMessage] called for the same message makes
    up the missing [meta] and retries. *)
Theorem batch_skips_record_without_meta (now : Z) (job : Job)
    (d : DeadLetterMessage) (original : Message) (filters : Filters)
    (q : DeadLetterQueue) :
  j_data job = Some d → meta d = None → originalMessage d = Some original →
  dlqJobs q !! dlqJobId (m_id original) = Some d →
  0 < maxRetries q → storeAccepts q →
  retryBatch now [job] filters q
    = ({| total := 1; succeeded := 0; failed := 0; skipped := 1 |}, q) ∧
  (retryMessage now (m_id original) noOptions q).1 = Returned true.
Proof.
  intros Hdata Hmeta Horig Hstored Hmax Hacc. split.
  - unfold retryBatch. simpl. rewrite Hdata. simpl. rewrite Horig.
    case_decide; [done|]. by rewrite Hmeta.
  - destruct (retryMessage_below now (m_id original) noOptions q d original
                Hstored Horig) as (q' & d' & -> & _); [|done..].
    unfold effectiveRetryCount. by rewrite Hmeta.
Qed.

Lemma batch_skips_record_without_meta_witness :
  let d := {| originalMessage := Some (mkMessage "m1" "payload"); error := "boom";
              context := None; meta := None |} in
  let q := withStore (new None None None None) (<["dlq:m1" := d]> ∅) [] in
  (retryBatch 5 [mkJob "dlq:m1" 0 (Some d)] noFilters q).1
    = {| total := 1; succeeded := 0; failed := 0; skipped := 1 |} ∧
  (retryMessage 5 "m1" noOptions q).1 = Returned true.
Proof.
  intros d q.
  destruct (batch_skips_record_without_meta 5 (mkJob "dlq:m1" 0 (Some d)) d
              (mkMessage "m1" "payload") noFilters q
              eq_refl eq_refl eq_refl eq_refl ltac:(simpl; lia)
              (conj (λ _, eq_refl) eq_refl)) as [H1 H2].
  split; [by rewrite H1|exact H2].
Defined.

Lemma cleanup_fold now jobs cleaned q :
  let cleaned' := (foldl (cleanupStep now) (cleaned, q) jobs).1 in
  let q' := (foldl (cleanupStep now) (cleaned, q) jobs).2 in
  ttl q' = ttl q ∧ maxRetries q' = maxRetries q ∧ enqueued q' = enqueued q ∧
  cleaned' = (cleaned + length (filter (expired now q) jobs))%nat ∧
  ∀ jobId, dlqJobs q' !! jobId =
    if decide (Exists (λ job, j_id job = jobId ∧ expired now q job) jobs)
    then None else dlqJobs q !! jobId.
Proof.
  revert cleaned q. induction jobs as [|job jobs IH]; intros cleaned q; cbn [foldl].
  - cbn [fst snd]. split_and!; try done; try (simpl; lia).
  - assert (Hstep : cleanupStep now (cleaned, q) job
                    = if decide (expired now q job)
                      then (S cleaned,
                            withStore q (delete (j_id job) (dlqJobs q)) (enqueued q))
                      else (cleaned, q)) by done.
    rewrite Hstep. clear Hstep.
    destruct (decide (expired now q job)) as [He|He].
    + specialize (IH (S cleaned) (withStore q (delete (j_id job) (dlqJobs q)) (enqueued q))).
      cbv zeta in IH. destruct IH as (Ht & Hm & Hen & Hc & Hl).
      split_and!; try done.
      * rewrite Hc. rewrite filter_cons_True by done. simpl.
        assert (Hsame : filter (expired now
                  (withStore q (delete (j_id job) (dlqJobs q)) (enqueued q))) jobs
                = filter (expired now q) jobs) by done.
        rewrite Hsame. lia.
      * intros jobId. rewrite Hl. simpl.
        destruct (decide (j_id job = jobId)) as [Hid|Hid].
        -- rewrite (decide_True (P := Exists _ (job :: jobs))) by (by left).
           case_decide; [done|]. subst. apply lookup_delete_eq.
        -- rewrite lookup_delete_ne by done.
           repeat case_decide; try done.
           ++ exfalso. apply H0. by right.
           ++ exfalso. apply Exists_cons in H0 as [[? _]|?]; done.
    + specialize (IH cleaned q). cbv zeta in IH.
      destruct IH as (Ht & Hm & Hen & Hc & Hl).
      split_and!; try done.
      * rewrite Hc. by rewrite filter_cons_False by done.
      * intros jobId. rewrite Hl.
        repeat case_decide; try done.
        -- exfalso. apply H0. by right.
        -- exfalso. apply Exists_cons in H0 as [[_ ?]|?]; done.
Qed.

(** X25.  The daily clean-up removes exactly the jobs it was shown that are
    older than [ttl]: each of them is gone from the store afterwards, and
    every other job of the store is still there with its data; the count
    it logs is the number of expired jobs it was shown. *)
Theorem cleanup_removes_the_expired (now : Z) (jobs : list Job) (q : DeadLetterQueue) :
  let '(cleaned, q') := _cleanupExpiredMessages now jobs q in
  cleaned = length (filter (expired now q) jobs) ∧
  ttl q' = ttl q ∧ enqueued q' = enqueued q ∧
  (∀ job, job ∈ jobs → expired now q job → dlqJobs q' !! j_id job = None) ∧
  (∀ jobId, (∀ job, job ∈ jobs → j_id job = jobId → ¬ expired now q job) →
     dlqJobs q' !! jobId = dlqJobs q !! jobId).
Proof.
  unfold _cleanupExpiredMessages.
  pose proof (cleanup_fold now jobs 0%nat q) as H. cbv zeta in H.
  destruct (foldl (cleanupStep now) (0%nat, q) jobs) as [cleaned q'].
  cbn [fst snd] in H. destruct H as (Ht & _ & He & Hc & Hl).
  split_and!; try done.
  - intros job Hin Hexp. rewrite Hl. rewrite decide_True; [done|].
    apply Exists_exists. by exists job.
  - intros jobId Hkeep. rewrite Hl. rewrite decide_False; [done|].
    intros (job & Hin & Hid & Hexp)%Exists_exists. by apply (Hkeep job).
Qed.

(** With the default [ttl] of seven days, a job added eight days ago goes
    and one added six days ago stays. *)
Example cleanup_after_a_week :
  let day := 24 * 60 * 60 * 1000 in
  let old := {| originalMessage := Some (mkMessage "m0" "p"); error := "e";
                context := None; meta := None |} in
  let q := withStore s5Queue (<["dlq:m0" := old]> (dlqJobs s5Queue)) [] in
  let r := _cleanupExpiredMessages (8 * day)
             [mkJob "dlq:m0" 0 (Some old); mkJob "dlq:m1" (2 * day) None] q in
  r.1 = 1%nat ∧ dlqJobs r.2 !! "dlq:m0" = None ∧ is_Some (dlqJobs r.2 !! "dlq:m1").
Proof. vm_compute. split_and!; eauto. Qed.

End DLQBatchFacts.

(** ** Request accounting: properties *)
Module MonitoringFacts.
Import JsMap JsMapFacts Metrics MetricsFacts Monitoring.

Lemma setMetric_other nm nm' value labels mc :
  nm ≠ nm' →
  mapGet nm' (metrics (setMetric nm value labels mc)) = mapGet nm' (metrics mc).
Proof. intros Hne. by rewrite setMetric_lookup, decide_False. Qed.

Lemma incrementCounter_other nm nm' value labels mc :
  nm ≠ nm' →
  mapGet nm' (metrics (incrementCounter nm value labels mc)) = mapGet nm' (metrics mc).
Proof.
  intros Hne. destruct (incrementCounter_metrics nm value labels mc) as [->| ->];
    [done|by apply setMetric_other].
Qed.

Lemma observeHistogram_other nm nm' value labels mc :
  nm ≠ nm' →
  mapGet nm' (metrics (observeHistogram nm value labels mc)) = mapGet nm' (metrics mc).
Proof.
  intros Hne. destruct (observeHistogram_metrics nm value labels mc) as [->| ->];
    [done|by apply setMetric_other].
Qed.

Lemma getMetricWarning_metrics nm mc : metrics (getMetricWarning nm mc) = metrics mc.
Proof. unfold getMetricWarning. by destruct (mapGet nm (metrics mc)). Qed.

Lemma onRequest_instrumented now mc t a e :
  instrumented mc t a e →
  ∃ mc', onRequest now mc = Some mc' ∧ instrumented mc' (t + 1) (a + 1) e.
Proof.
  intros ((mt & lvt & Hmt & Hlt & Hdt) & (ma & lva & Hma & Hla & Hda)
          & (me & lve & Hme & Hle & Hde)).
  unfold onRequest. rewrite Hmt, Hdt. simpl.
  set (mc1 := withMetrics mc _).
  assert (Ha1 : mapGet "app_requests_active" (metrics mc1) = Some ma).
  { unfold mc1. simpl. by rewrite mapGet_mapSet_ne. }
  unfold getMetric. rewrite Ha1, Hda, Hla. simpl.
  eexists. split; [done|]. split_and!.
  - exists (withData mt (CounterData (t + 1) lvt)), lvt.
    rewrite setMetric_other, getMetricWarning_metrics by done.
    unfold mc1. simpl. by rewrite mapGet_mapSet_eq.
  - eexists _, lva. rewrite setMetric_lookup, decide_True by done.
    rewrite getMetricWarning_metrics, Ha1. simpl.
    split_and!; [done|done|]. by rewrite Hla, Hda.
  - exists me, lve. rewrite setMetric_other, getMetricWarning_metrics by done.
    unfold mc1. simpl. by rewrite mapGet_mapSet_ne.
Qed.

Lemma onFinish_instrumented method route statusCode duration mc t a e :
  instrumented mc t a e →
  ∃ mc', onFinish method route statusCode duration mc = Some mc' ∧
    instrumented mc' t (Z.max 0 (a - 1))
      (if decide (400 ≤ statusCode) then e + 1 else e).
Proof.
  intros ((mt & lvt & Hmt & Hlt & Hdt) & (ma & lva & Hma & Hla & Hda)
          & (me & lve & Hme & Hle & Hde)).
  unfold onFinish. unfold getMetric at 1. rewrite Hma, Hda, Hla. simpl.
  set (mc1 := setMetric "app_requests_active" _ ∅ _).
  set (mc2 := observeHistogram "app_request_duration" _ _ mc1).
  assert (H2 : ∀ nm, nm ≠ "app_requests_active" → nm ≠ "app_request_duration" →
                 mapGet nm (metrics mc2) = mapGet nm (metrics mc)).
  { intros nm H1 H2. unfold mc2, mc1.
    rewrite observeHistogram_other, setMetric_other, getMetricWarning_metrics; done. }
  assert (Ha2 : ∃ m, mapGet "app_requests_active" (metrics mc2) = Some m ∧
                  labelNames m = [] ∧ data m = GaugeData (Z.max 0 (a - 1)) lva).
  { eexists. unfold mc2, mc1. rewrite observeHistogram_other by done.
    rewrite setMetric_lookup, decide_True by done.
    rewrite getMetricWarning_metrics, Hma. simpl.
    split_and!; [done|done|]. by rewrite Hla, Hda. }
  destruct Ha2 as (ma2 & Hma2 & Hla2 & Hda2).
  eexists. split; [done|]. case_decide.
  - split_and!.
    + exists mt, lvt. rewrite incrementCounter_other, H2 by done. done.
    + exists ma2, lva. rewrite incrementCounter_other by done. done.
    + assert (He2 : mapGet "app_requests_errors" (metrics mc2) = Some me)
        by (by rewrite H2).
      unfold incrementCounter. rewrite He2. unfold type. rewrite Hde.
      eexists _, lve. rewrite setMetric_lookup, decide_True, He2 by done. simpl.
      split_and!; [done|done|]. by rewrite Hle, Hde.
  - split_and!.
    + exists mt, lvt. by rewrite H2.
    + by exists ma2, lva.
    + exists me, lve. by rewrite H2.
Qed.

Lemma errorResponses_cons ev evs :
  errorResponses (ev :: evs) =
    (match ev with
     | Finishes _ _ statusCode _ => if decide (400 ≤ statusCode) then 1 else 0
     | _ => 0
     end) + errorResponses evs.
Proof.
  unfold errorResponses. simpl. destruct ev as [|m r s d]; [lia|].
  case_bool_decide; case_decide; simpl; try done; lia.
Qed.

Lemma activeAfter_cons a ev evs :
  activeAfter a (ev :: evs) =
    activeAfter (match ev with
                 | Arrives _ => a + 1
                 | Finishes _ _ _ _ => Z.max 0 (a - 1)
                 end) evs.
Proof. done. Qed.

Lemma arrivals_cons ev evs :
  arrivals (ev :: evs) = (match ev with Arrives _ => 1 | _ => 0 end) + arrivals evs.
Proof. unfold arrivals. destruct ev; simpl; lia. Qed.

Lemma finishes_cons ev evs :
  finishes (ev :: evs) = (match ev with Finishes _ _ _ _ => 1 | _ => 0 end) + finishes evs.
Proof. unfold finishes. destruct ev; simpl; lia. Qed.

Lemma activeAfter_balanced (n : nat) evs :
  balanced n evs = true →
  activeAfter (Z.of_nat n) evs = Z.of_nat n + arrivals evs - finishes evs.
Proof.
  revert n. induction evs as [|ev evs IH]; intros n.
  - intros _. unfold activeAfter, arrivals, finishes. simpl. lia.
  - rewrite activeAfter_cons, arrivals_cons, finishes_cons.
    destruct ev as [now|m r s d]; simpl.
    + intros Hb. specialize (IH (S n) Hb).
      replace (Z.of_nat n + 1) with (Z.of_nat (S n)) by lia.
      rewrite IH. lia.
    + destruct n as [|n]; [done|]. intros Hb. specialize (IH n Hb).
      replace (Z.max 0 (Z.of_nat (S n) - 1)) with (Z.of_nat n) by lia.
      rewrite IH. lia.
Qed.

(** X26.  Request accounting.  On a collector that has the three request
    metrics as [initialize] registers them, the middleware handles every
    sequence of arrivals and finished responses, and afterwards
    [app_requests_total] has grown by the number of arrivals,
    [app_requests_errors] by the number of responses with a status of
    400 or more, and [app_requests_active] is never negative; when no
    response finishes before its request arrived, it has grown by the
    number of requests still under way. *)
Theorem request_accounting (evs : list RequestEvent) (mc : MetricsCollector)
    (total active errors : Z) :
  instrumented mc total active errors → 0 ≤ active →
  ∃ mc',
    serve evs mc = Some mc' ∧
    instrumented mc' (total + arrivals evs) (activeAfter active evs)
                     (errors + errorResponses evs) ∧
    0 ≤ activeAfter active evs ∧
    (balanced (Z.to_nat active) evs = true →
       activeAfter active evs = active + arrivals evs - finishes evs).
Proof.
  intros Hin Hpos.
  assert (Hgen : ∃ mc', serve evs mc = Some mc' ∧
            instrumented mc' (total + arrivals evs) (activeAfter active evs)
                             (errors + errorResponses evs) ∧
            0 ≤ activeAfter active evs).
  { revert mc total active errors Hin Hpos.
    induction evs as [|ev evs IH]; intros mc t a e Hin Hpos.
    - exists mc. unfold arrivals, errorResponses. simpl.
      by rewrite !Z.add_0_r.
    - rewrite activeAfter_cons, arrivals_cons, errorResponses_cons.
      destruct ev as [now|m r s d]; cbn [serve handle].
      + destruct (onRequest_instrumented now mc t a e Hin) as (mc1 & -> & Hin1).
        destruct (IH mc1 _ _ _ Hin1 ltac:(lia)) as (mc' & Hs & Hin' & Hpos').
        exists mc'. split; [done|].
        by rewrite Z.add_0_l, Z.add_assoc.
      + destruct (onFinish_instrumented m r s d mc t a e Hin) as (mc1 & -> & Hin1).
        destruct (IH mc1 _ _ _ Hin1 ltac:(lia)) as (mc' & Hs & Hin' & Hpos').
        exists mc'. split; [done|]. rewrite Z.add_0_l. split; [|done].
        by replace (e + ((if decide (400 ≤ s) then 1 else 0) + errorResponses evs))
          with ((if decide (400 ≤ s) then e + 1 else e) + errorResponses evs)
          by (case_decide; lia). }
  destruct Hgen as (mc' & Hs & Hin' & Hpos').
  exists mc'. split_and!; try done.
  intros Hb. rewrite <- (Z2Nat.id active) at 1 2 by done.
  by apply activeAfter_balanced.
Qed.

Lemma new_instrumented now pfx : instrumented (new now pfx true) 0 0 0.
Proof.
  unfold instrumented.
  split_and!;
    match goal with
    | |- ∃ m lv, ?g = Some m ∧ _ =>
        let r := eval vm_compute in g in
        match r with
        | Some ?m => exists m, []; split_and!; vm_compute; reflexivity
        end
    end.
Qed.

(** Three requests arrive, two responses finish, one of them with status
    500. *)
Lemma request_accounting_witness :
  let evs := [Arrives 1; Arrives 2; Finishes "GET" "/users" 200 15; Arrives 3;
              Finishes "POST" "/users" 500 40] in
  ∃ mc', serve evs (new 0 None true) = Some mc' ∧ instrumented mc' 3 1 1.
Proof.
  intros evs.
  destruct (request_accounting evs (new 0 None true) 0 0 0
              (new_instrumented 0 None) ltac:(lia)) as (mc' & Hs & Hin & _ & Hb).
  exists mc'. split; [exact Hs|].
  rewrite (Hb eq_refl) in Hin. exact Hin.
Defined.

End MonitoringFacts.
